(** * EchoBot: a shallow embedding of the calculator, the storage, the
    command handlers, the direct messages and the cooldowns

    The calculator ([calculator.ts]) strips whitespace from the
    expression, checks its characters, its length and a textual
    division-by-zero pattern, and then runs a recursive-descent evaluator
    over a shared cursor.  The storage ([storage.ts]) keeps users,
    commands and log entries in maps with counters for the identifiers.
    The bot ([bot.ts], [commands.ts], [dm.ts]) reads commands from text
    messages, tests commands, sends a message to all members of a server
    and keeps the time of the last use of a command.

    Strings are sequences of UTF-16 code units, numbers are IEEE 754
    binary64 values (the [spec_float] of the Standard Library at
    precision 53), and the exceptions of the evaluator are the [Throw]
    results of a small error monad.  What Discord, the clock and the joke
    service do is given to the functions as arguments. *)

From Stdlib Require Import String Ascii.
From Stdlib Require Import ZArith NArith PArith QArith List Bool Lia.
From Stdlib Require Import Floats.SpecFloat.
From Stdlib Require Import Sorted Permutation.
Import ListNotations.
Close Scope Q_scope.

Set Implicit Arguments.

(** ** Strings *)

Module JsString.

(** A JavaScript string: its code units. *)
Definition jsstring := list N.

Definition ch (a : ascii) : N := N_of_ascii a.

(** The code units of an ASCII literal. *)
Definition js (s : string) : jsstring := map ch (list_ascii_of_string s).

Definition is_digit (c : N) : bool := ((48 <=? c) && (c <=? 57))%N.

(** The regular-expression class [\s]: WhiteSpace and LineTerminator. *)
Definition is_space (c : N) : bool :=
  (((9 <=? c) && (c <=? 13)) || (c =? 32) || (c =? 160) || (c =? 5760)
   || ((8192 <=? c) && (c <=? 8202)) || (c =? 8232) || (c =? 8233)
   || (c =? 8239) || (c =? 8287) || (c =? 12288) || (c =? 65279))%N.

(** [s.substring(start, stop)] for [start <= stop]. *)
Definition substring (s : jsstring) (start stop : nat) : jsstring :=
  firstn (stop - start) (skipn start s).

Fixpoint span (p : N -> bool) (s : jsstring) : jsstring * jsstring :=
  match s with
  | [] => ([], [])
  | c :: r => if p c then let '(a, b) := span p r in (c :: a, b) else ([], s)
  end.

Fixpoint starts_with (prefix s : jsstring) : bool :=
  match prefix, s with
  | [], _ => true
  | _ :: _, [] => false
  | a :: p, c :: r => (a =? c)%N && starts_with p r
  end.

End JsString.
Import JsString.

(** ** Numbers *)

Module JsNumber.

Definition number := spec_float.

Definition prec : Z := 53.
Definition emax : Z := 1024.

Definition NaN : number := S754_nan.
Definition zero : number := S754_zero false.

Definition add : number -> number -> number := SFadd prec emax.
Definition sub : number -> number -> number := SFsub prec emax.
Definition mul : number -> number -> number := SFmul prec emax.
Definition div : number -> number -> number := SFdiv prec emax.

(** [x === y] on numbers. *)
Definition strict_eq : number -> number -> bool := SFeqb.

(** The global [isFinite] on a number. *)
Definition isFinite (x : number) : bool :=
  match x with
  | S754_zero _ | S754_finite _ _ _ => true
  | S754_infinity _ | S754_nan => false
  end.

(** [Number.isInteger]. *)
Definition isInteger (x : number) : bool :=
  match x with
  | S754_zero _ => true
  | S754_finite _ m e =>
      if (0 <=? e)%Z then true else (Zpos m mod 2 ^ (- e) =? 0)%Z
  | S754_infinity _ | S754_nan => false
  end.

(** The number nearest to [num / den] (ties to even), with sign [s]. *)
Definition round_ratio (s : bool) (num : Z) (den : positive) : number :=
  match num with
  | Zpos _ =>
      let '(q, e, l) := SFdiv_core_binary prec emax num 0 (Zpos den) 0 in
      binary_round_aux prec emax s q e l
  | _ => S754_zero s
  end.

(** The number of an integer. *)
Definition of_Z (z : Z) : number := binary_normalize prec emax z 0 false.

(** *** [parseFloat]

    The longest prefix that is a StrDecimalLiteral, after leading
    whitespace, as the nearest double; NaN when there is none.  The
    language lets an implementation round a literal of more than 20
    significant digits either way at the 20th; the engines round it
    correctly, and so does this model. *)

Definition digit_value (c : N) : Z := Z.of_N c - 48.

Definition digits_value (ds : jsstring) : Z :=
  fold_left (fun acc c => 10 * acc + digit_value c)%Z ds 0%Z.

(** The mathematical value [m * 10 ^ e] as a number. *)
Definition decimal (s : bool) (m e : Z) : number :=
  match e with
  | Zneg k => round_ratio s m (10 ^ k)%positive
  | _ => round_ratio s (m * 10 ^ e) 1
  end.

(** An ExponentPart at the head of [s]: its value, 0 when there is none. *)
Definition exponent_part (s : jsstring) : Z :=
  match s with
  | c :: r =>
      if ((c =? ch "e") || (c =? ch "E"))%N then
        match r with
        | d :: r' =>
            if (d =? ch "-")%N then
              match fst (span is_digit r') with
              | [] => 0
              | ds => - digits_value ds
              end
            else if (d =? ch "+")%N then digits_value (fst (span is_digit r'))
            else digits_value (fst (span is_digit r))
        | [] => 0
        end
      else 0
  | [] => 0
  end%Z.

(** The longest prefix of [s] that is an unsigned StrDecimalLiteral. *)
Definition unsigned_literal (s : bool) (t : jsstring) : number :=
  if starts_with (js "Infinity") t then S754_infinity s
  else
    let '(int_digits, r1) := span is_digit t in
    match r1 with
    | c :: r1' =>
        if (c =? ch ".")%N then
          let '(frac_digits, r2) := span is_digit r1' in
          match int_digits, frac_digits with
          | [], [] => NaN
          | _, _ =>
              decimal s (digits_value (int_digits ++ frac_digits))
                (exponent_part r2 - Z.of_nat (length frac_digits))
          end
        else
          match int_digits with
          | [] => NaN
          | _ => decimal s (digits_value int_digits) (exponent_part r1)
          end
    | [] =>
        match int_digits with
        | [] => NaN
        | _ => decimal s (digits_value int_digits) 0
        end
    end.

(** The characters [parseFloat] trims: StrWhiteSpaceChar is the class [\s]. *)
Fixpoint trim_start (s : jsstring) : jsstring :=
  match s with
  | c :: r => if is_space c then trim_start r else s
  | [] => []
  end.

Definition parseFloat (s : jsstring) : number :=
  match trim_start s with
  | c :: r =>
      if (c =? ch "-")%N then unsigned_literal true r
      else if (c =? ch "+")%N then unsigned_literal false r
      else unsigned_literal false (c :: r)
  | [] => NaN
  end.

(** *** [toFixed(6)] *)

Fixpoint digits_of_pos (fuel : nat) (n : Z) (acc : jsstring) : jsstring :=
  match fuel with
  | O => acc
  | S fuel' =>
      let acc' := (Z.to_N (n mod 10) + 48)%N :: acc in
      if (n <? 10)%Z then acc' else digits_of_pos fuel' (n / 10) acc'
  end.

(** The decimal digits of a natural number, ["0"] for zero. *)
Definition digits_of (n : Z) : jsstring :=
  digits_of_pos (S (Z.to_nat (Z.log2 n))) n [].

(** The integer [n] nearest to [m * 2 ^ e * 10 ^ 6], the larger of the two
    on a tie. *)
Definition scaled6 (m : positive) (e : Z) : Z :=
  if (0 <=? e)%Z then Zpos m * 2 ^ e * 10 ^ 6
  else (2 * (Zpos m * 10 ^ 6) + 2 ^ (- e)) / 2 ^ (- e + 1).

(** [n] written with six digits after the point. *)
Definition fixed6 (n : Z) : jsstring :=
  let m := digits_of n in
  let m := repeat (ch "0") (7 - length m) ++ m in
  let k := length m in
  firstn (k - 6) m ++ ch "." :: skipn (k - 6) m.

(** [x.toFixed(6)].  Above 10^21 JavaScript switches to the exponent
    notation of [toString]; every such double is an integer, and the
    calculator calls [toFixed] on non-integers only, so that branch is
    written with plain digits here. *)
Definition toFixed6 (x : number) : jsstring :=
  match x with
  | S754_nan => js "NaN"
  | S754_infinity false => js "Infinity"
  | S754_infinity true => js "-Infinity"
  | S754_zero _ => fixed6 0
  | S754_finite false m e => fixed6 (scaled6 m e)
  | S754_finite true m e => ch "-" :: fixed6 (scaled6 m e)
  end.

(** *** The rational value of a number *)

Definition signed (s : bool) (n : positive) : Z := if s then Zneg n else Zpos n.

(** The rational value of a finite number. *)
Definition to_Q (x : number) : Q :=
  match x with
  | S754_finite s m e =>
      match e with
      | Zneg k => signed s m # 2 ^ k
      | _ => inject_Z (signed s m * 2 ^ e)
      end
  | _ => 0%Q
  end.

End JsNumber.
Import JsNumber.

(** ** Results of the grammar rules

    A rule returns a value, throws an [Error] with a message, or, in the
    model only, runs out of the fuel that bounds its recursion. *)

Inductive res (A : Type) : Type :=
| Ret (a : A)
| Throw (message : string)
| OutOfFuel.

Arguments Ret {A} a.
Arguments Throw {A} message.
Arguments OutOfFuel {A}.

Definition bind {A B : Type} (c : res A) (k : A -> res B) : res B :=
  match c with
  | Ret a => k a
  | Throw message => Throw message
  | OutOfFuel => OutOfFuel
  end.

Notation "' pat <- c ;; k" :=
  (bind c (fun x => match x with pat => k end))
  (at level 61, pat pattern, c at next level, right associativity).

(** ** The calculator *)

Module Calculator.

Definition ERROR_INVALID_EXPRESSION : string :=
  "Sorry, I couldn't understand that expression. Try something like '2 + 2' or '5 * 10'.".
Definition ERROR_DIVISION_BY_ZERO : string :=
  "I can't divide by zero! That's not allowed in this universe.".
Definition ERROR_TOO_COMPLEX : string :=
  "That expression is too complex for me to handle.".

(** [{ result: number | null; error: string | null }] *)
Record outcome : Type := { result : option number; error : option string }.

(** [expression.replace(/\s+/g, '')] *)
Definition remove_whitespace (expression : jsstring) : jsstring :=
  filter (fun c => negb (is_space c)) expression.

(** The class [[0-9+\-*/().]]. *)
Definition allowed_char (c : N) : bool :=
  (is_digit c || (c =? ch "+") || (c =? ch "-") || (c =? ch "*")
   || (c =? ch "/") || (c =? ch "(") || (c =? ch ")") || (c =? ch "."))%N.

(** [/^[0-9+\-*/().]+$/.test(s)] *)
Definition only_allowed_chars (s : jsstring) : bool :=
  match s with
  | [] => false
  | _ :: _ => forallb allowed_char s
  end.

(** [/\/\s*0/.test(s)]: a slash, any whitespace, the digit 0. *)
Fixpoint slash_zero (s : jsstring) : bool :=
  match s with
  | [] => false
  | c :: r =>
      ((c =? ch "/")%N && starts_with [ch "0"] (trim_start r)) || slash_zero r
  end.

Section Evaluate.

Variable expression : jsstring.

(** [expression[pos] === c]; out of range the left side is [undefined]. *)
Definition char_is (pos : nat) (c : ascii) : bool :=
  match nth_error expression pos with
  | Some d => (d =? ch c)%N
  | None => false
  end.

(** [(expression[pos] >= '0' && expression[pos] <= '9') || expression[pos] === '.'] *)
Definition number_char (pos : nat) : bool :=
  match nth_error expression pos with
  | Some d => is_digit d || (d =? ch ".")%N
  | None => false
  end.

(** The loop of [parseFactor] over the characters of a number; each
    iteration moves the cursor, so [n] iterations are enough when [n]
    characters remain. *)
Fixpoint scan_number (n : nat) (pos : nat) : nat :=
  match n with
  | O => pos
  | S n' =>
      if (pos <? length expression) && number_char pos
      then scan_number n' (S pos)
      else pos
  end.

(** The three rules and the two loops.  The cursor [pos] goes in and
    comes out with the value; [fuel] bounds the depth of the calls. *)
Fixpoint parseExpression (fuel : nat) (pos : nat) : res (number * nat) :=
  match fuel with
  | O => OutOfFuel
  | S fuel' =>
      '(left_, pos) <- parseTerm fuel' pos ;;
      parseExpression_loop fuel' left_ pos
  end
with parseExpression_loop (fuel : nat) (left_ : number) (pos : nat)
  : res (number * nat) :=
  match fuel with
  | O => OutOfFuel
  | S fuel' =>
      if pos <? length expression then
        if char_is pos "+" then
          '(right_, pos) <- parseTerm fuel' (S pos) ;;
          parseExpression_loop fuel' (add left_ right_) pos
        else if char_is pos "-" then
          '(right_, pos) <- parseTerm fuel' (S pos) ;;
          parseExpression_loop fuel' (sub left_ right_) pos
        else Ret (left_, pos)
      else Ret (left_, pos)
  end
with parseTerm (fuel : nat) (pos : nat) : res (number * nat) :=
  match fuel with
  | O => OutOfFuel
  | S fuel' =>
      '(left_, pos) <- parseFactor fuel' pos ;;
      parseTerm_loop fuel' left_ pos
  end
with parseTerm_loop (fuel : nat) (left_ : number) (pos : nat)
  : res (number * nat) :=
  match fuel with
  | O => OutOfFuel
  | S fuel' =>
      if pos <? length expression then
        if char_is pos "*" then
          '(right_, pos) <- parseFactor fuel' (S pos) ;;
          parseTerm_loop fuel' (mul left_ right_) pos
        else if char_is pos "/" then
          '(divisor, pos) <- parseFactor fuel' (S pos) ;;
          if strict_eq divisor zero then Throw "Division by zero"
          else parseTerm_loop fuel' (div left_ divisor) pos
        else Ret (left_, pos)
      else Ret (left_, pos)
  end
with parseFactor (fuel : nat) (pos : nat) : res (number * nat) :=
  match fuel with
  | O => OutOfFuel
  | S fuel' =>
      if char_is pos "(" then
        '(result, pos) <- parseExpression fuel' (S pos) ;;
        if char_is pos ")" then Ret (result, S pos)
        else Throw "Missing closing parenthesis"
      else
        let start := pos in
        let pos := scan_number (length expression - start) start in
        if start =? pos then Throw "Expected a number"
        else Ret (parseFloat (substring expression start pos), pos)
  end.

(** Fuel for an expression: three calls per character and three more. *)
Definition enough_fuel : nat := 3 * length expression + 3.

Definition evaluateExpression : res number :=
  '(result, pos) <- parseExpression enough_fuel 0 ;;
  if negb (pos =? length expression) then Throw "Unexpected character"
  else Ret result.

End Evaluate.

(** Lines 42 to 50: the formatted result and its error. *)
Definition formatResult (result : number) : outcome :=
  let formattedResult :=
    if isFinite result
    then Some (if isInteger result then result
               else parseFloat (toFixed6 result))
    else None in
  {| result := formattedResult;
     error := match formattedResult with
              | None => Some ERROR_INVALID_EXPRESSION
              | Some _ => None
              end |}.

Definition failure (message : string) : outcome :=
  {| result := None; error := Some message |}.

(** [calculate]; [None] only if the evaluator ran out of fuel. *)
Definition calculate (expression : jsstring) : option outcome :=
  let sanitizedExpression := remove_whitespace expression in
  if negb (only_allowed_chars sanitizedExpression) then
    Some (failure ERROR_INVALID_EXPRESSION)
  else if 100 <? length sanitizedExpression then
    Some (failure ERROR_TOO_COMPLEX)
  else if slash_zero sanitizedExpression then
    Some (failure ERROR_DIVISION_BY_ZERO)
  else
    match evaluateExpression sanitizedExpression with
    | Ret result => Some (formatResult result)
    | Throw _ => Some (failure ERROR_INVALID_EXPRESSION)
    | OutOfFuel => None
    end.

End Calculator.
Import Calculator.

(** ** The grammar of the specification

    [expression := term (("+" | "-") term)*],
    [term := factor (("*" | "/") factor)*],
    [factor := "(" expression ")" | number], as syntax trees that
    associate to the left, with their text and their value in double
    arithmetic.  A number is any run of digits and points that the
    factor rule consumes; its value is what [parseFloat] reads. *)

Module Grammar.

Inductive expr : Type :=
| ETerm (t : term)
| EAdd (e : expr) (t : term)
| ESub (e : expr) (t : term)
with term : Type :=
| TFactor (f : factor)
| TMul (t : term) (f : factor)
| TDiv (t : term) (f : factor)
with factor : Type :=
| FNum (literal : jsstring)
| FParen (e : expr).

Scheme expr_mut := Induction for expr Sort Prop
with term_mut := Induction for term Sort Prop
with factor_mut := Induction for factor Sort Prop.

Combined Scheme grammar_ind from expr_mut, term_mut, factor_mut.

Fixpoint text_expr (e : expr) : jsstring :=
  match e with
  | ETerm t => text_term t
  | EAdd e t => text_expr e ++ ch "+" :: text_term t
  | ESub e t => text_expr e ++ ch "-" :: text_term t
  end
with text_term (t : term) : jsstring :=
  match t with
  | TFactor f => text_factor f
  | TMul t f => text_term t ++ ch "*" :: text_factor f
  | TDiv t f => text_term t ++ ch "/" :: text_factor f
  end
with text_factor (f : factor) : jsstring :=
  match f with
  | FNum literal => literal
  | FParen e => ch "(" :: text_expr e ++ [ch ")"]
  end.

Fixpoint value_expr (e : expr) : number :=
  match e with
  | ETerm t => value_term t
  | EAdd e t => add (value_expr e) (value_term t)
  | ESub e t => sub (value_expr e) (value_term t)
  end
with value_term (t : term) : number :=
  match t with
  | TFactor f => value_factor f
  | TMul t f => mul (value_term t) (value_factor f)
  | TDiv t f => div (value_term t) (value_factor f)
  end
with value_factor (f : factor) : number :=
  match f with
  | FNum literal => parseFloat literal
  | FParen e => value_expr e
  end.

Definition number_literal (l : jsstring) : Prop :=
  l <> [] /\ forall c, In c l -> In c (js "0123456789.").

(** Every number is a literal, and no divisor is (plus or minus) zero. *)
Fixpoint well_formed_expr (e : expr) : Prop :=
  match e with
  | ETerm t => well_formed_term t
  | EAdd e t | ESub e t => well_formed_expr e /\ well_formed_term t
  end
with well_formed_term (t : term) : Prop :=
  match t with
  | TFactor f => well_formed_factor f
  | TMul t f => well_formed_term t /\ well_formed_factor f
  | TDiv t f =>
      well_formed_term t /\ well_formed_factor f
      /\ strict_eq (value_factor f) zero = false
  end
with well_formed_factor (f : factor) : Prop :=
  match f with
  | FNum literal => number_literal literal
  | FParen e => well_formed_expr e
  end.

(** Exact integer arithmetic.

    The value of a tree over the integers, when its numbers are runs of
    digits, its divisions leave no remainder, and every number and every
    intermediate result is of magnitude below 2^53. *)

Definition safe (z : Z) : option Z :=
  if (Z.abs z <? 2 ^ 53)%Z then Some z else None.

Fixpoint exact_expr (e : expr) : option Z :=
  match e with
  | ETerm t => exact_term t
  | EAdd e t =>
      match exact_expr e, exact_term t with
      | Some a, Some b => safe (a + b)
      | _, _ => None
      end
  | ESub e t =>
      match exact_expr e, exact_term t with
      | Some a, Some b => safe (a - b)
      | _, _ => None
      end
  end
with exact_term (t : term) : option Z :=
  match t with
  | TFactor f => exact_factor f
  | TMul t f =>
      match exact_term t, exact_factor f with
      | Some a, Some b => safe (a * b)
      | _, _ => None
      end
  | TDiv t f =>
      match exact_term t, exact_factor f with
      | Some a, Some b =>
          if (b =? 0)%Z then None
          else if (a mod b =? 0)%Z then Some (a / b)%Z else None
      | _, _ => None
      end
  end
with exact_factor (f : factor) : option Z :=
  match f with
  | FNum literal =>
      match literal with
      | [] => None
      | _ :: _ =>
          if forallb is_digit literal then safe (digits_value literal) else None
      end
  | FParen e => exact_expr e
  end.

End Grammar.
Import Grammar.

(** ** Definitions for the proofs *)

(** More fuel does not change what a rule or a loop returns. *)
Definition rule_mono (f : nat -> nat -> res (number * nat)) (n : nat) : Prop :=
  forall m pos, n <= m -> f n pos <> OutOfFuel -> f m pos = f n pos.

Definition loop_mono (f : nat -> number -> nat -> res (number * nat)) (n : nat) : Prop :=
  forall m v pos, n <= m -> f n v pos <> OutOfFuel -> f m v pos = f n v pos.

(** What a rule started at [pos] may return: a cursor further on
    (strictly, for the rules that consume), or an exception; with
    enough fuel not [OutOfFuel]. *)
Definition advances (expression : jsstring) (strict : bool) (pos : nat)
  (r : res (number * nat)) : Prop :=
  match r with
  | Ret (_, pos') =>
      (if strict then pos < pos' else pos <= pos') /\ pos' <= length expression
  | Throw _ => True
  | OutOfFuel => False
  end.

(** The number of decimal points in a string. *)
Definition points (s : jsstring) : nat := count_occ N.eq_dec s (ch ".").

(** The character after a rule's text, if any, is not one the rule or
    its loop would consume. *)
Definition follows (p : N -> bool) (rest : jsstring) : Prop :=
  match rest with
  | [] => True
  | c :: _ => p c = false
  end.

Definition of_number (c : N) : bool := is_digit c || (c =? ch ".")%N.
Definition of_term (c : N) : bool :=
  of_number c || (c =? ch "*")%N || (c =? ch "/")%N.
Definition of_expr (c : N) : bool :=
  of_term c || (c =? ch "+")%N || (c =? ch "-")%N.

(** What the rules do on the text of a tree: the factor rule returns its
    value; the term and expression rules return what their loop returns
    when started after the text with the value of the tree. *)
Definition factor_parsed (f : factor) : Prop :=
  forall s pre rest,
    s = pre ++ text_factor f ++ rest ->
    well_formed_factor f -> follows of_number rest ->
    exists fuel,
      parseFactor s fuel (length pre)
      = Ret (value_factor f, length pre + length (text_factor f)).

Definition term_parsed (t : term) : Prop :=
  forall s pre rest r,
    s = pre ++ text_term t ++ rest ->
    well_formed_term t -> follows of_number rest -> r <> OutOfFuel ->
    (exists fuel,
        parseTerm_loop s fuel (value_term t)
          (length pre + length (text_term t)) = r) ->
    exists fuel, parseTerm s fuel (length pre) = r.

Definition expr_parsed (e : expr) : Prop :=
  forall s pre rest r,
    s = pre ++ text_expr e ++ rest ->
    well_formed_expr e -> follows of_term rest -> r <> OutOfFuel ->
    (exists fuel,
        parseExpression_loop s fuel (value_expr e)
          (length pre + length (text_expr e)) = r) ->
    exists fuel, parseExpression s fuel (length pre) = r.

(** A record of the shifts of [SpecFloat] with nothing shifted out. *)
Definition exact_record (z : Z) : shr_record :=
  {| shr_m := z; shr_r := false; shr_s := false |}.

(** The double of a positive integer below 2^53. *)
Definition canon (s : bool) (n : positive) : number :=
  S754_finite s (Z.to_pos (Zpos n * 2 ^ (53 - Zpos (digits2_pos n))))
    (Zpos (digits2_pos n) - 53).

(** The double of an integer of magnitude below 2^53. *)
Definition of_int (z : Z) : number :=
  match z with
  | Z0 => S754_zero false
  | Zpos n => canon false n
  | Zneg n => canon true n
  end.

(** [x] is the integer [z]; zero has two doubles. *)
Definition represents (x : number) (z : Z) : Prop :=
  (Z.abs z < 2 ^ 53)%Z /\ (x = of_int z \/ (z = 0%Z /\ x = S754_zero true)).

(** Two trees: [10/4 - .5] and [(12 - 20) * 3 / (1 + 5)]. *)
Definition ten_by_four_minus_half : expr :=
  ESub (ETerm (TDiv (TFactor (FNum (js "10"))) (FNum (js "4"))))
       (TFactor (FNum (js ".5"))).

Definition nested_integers : expr :=
  ETerm (TDiv (TMul (TFactor (FParen (ESub (ETerm (TFactor (FNum (js "12"))))
                                           (TFactor (FNum (js "20"))))))
                    (FNum (js "3")))
              (FParen (EAdd (ETerm (TFactor (FNum (js "1"))))
                            (TFactor (FNum (js "5")))))).

Ltac cursor_eq := rewrite ?length_app; simpl; lia.

(** ** Definitions for the further properties of the calculator *)

(** The text between two cursor positions is a tree with this value. *)
Definition accepted_expr (s : jsstring) (start stop : nat) (v : number) : Prop :=
  exists e, text_expr e = substring s start stop
            /\ value_expr e = v /\ well_formed_expr e.

Definition accepted_term (s : jsstring) (start stop : nat) (v : number) : Prop :=
  exists t, text_term t = substring s start stop
            /\ value_term t = v /\ well_formed_term t.

Definition accepted_factor (s : jsstring) (start stop : nat) (v : number) : Prop :=
  exists f, text_factor f = substring s start stop
            /\ value_factor f = v /\ well_formed_factor f.

(** The depth of parentheses after [s], entered at [depth]; [None] when a
    closing parenthesis has no opening one. *)
Fixpoint nesting (s : jsstring) (depth : nat) : option nat :=
  match s with
  | [] => Some depth
  | c :: r =>
      if (c =? ch "(")%N then nesting r (S depth)
      else if (c =? ch ")")%N then
        match depth with
        | O => None
        | S d => nesting r d
        end
      else nesting r depth
  end.

(** The value of a tree from left to right; a division whose divisor is
    zero throws. *)
Fixpoint run_expr (e : expr) : res number :=
  match e with
  | ETerm t => run_term t
  | EAdd e t =>
      bind (run_expr e) (fun a => bind (run_term t) (fun b => Ret (add a b)))
  | ESub e t =>
      bind (run_expr e) (fun a => bind (run_term t) (fun b => Ret (sub a b)))
  end
with run_term (t : term) : res number :=
  match t with
  | TFactor f => run_factor f
  | TMul t f =>
      bind (run_term t) (fun a => bind (run_factor f) (fun b => Ret (mul a b)))
  | TDiv t f =>
      bind (run_term t) (fun a =>
      bind (run_factor f) (fun b =>
      if strict_eq b zero then Throw "Division by zero" else Ret (div a b)))
  end
with run_factor (f : factor) : res number :=
  match f with
  | FNum literal => Ret (parseFloat literal)
  | FParen e => run_expr e
  end.

(** Every number of the tree is a run of digits and points. *)
Fixpoint literals_expr (e : expr) : Prop :=
  match e with
  | ETerm t => literals_term t
  | EAdd e t | ESub e t => literals_expr e /\ literals_term t
  end
with literals_term (t : term) : Prop :=
  match t with
  | TFactor f => literals_factor f
  | TMul t f | TDiv t f => literals_term t /\ literals_factor f
  end
with literals_factor (f : factor) : Prop :=
  match f with
  | FNum literal => number_literal literal
  | FParen e => literals_expr e
  end.

(** A rule that stops at [stop] with the outcome of the tree. *)
Definition stops_with (c : res number) (stop : nat) : res (number * nat) :=
  match c with
  | Ret v => Ret (v, stop)
  | Throw m => Throw m
  | OutOfFuel => OutOfFuel
  end.

(** A loop entered with the outcome of the tree gives [r]. *)
Definition loop_gives (c : res number)
  (loop : nat -> number -> res (number * nat)) (r : res (number * nat)) : Prop :=
  match c with
  | Ret v => exists fuel, loop fuel v = r
  | Throw m => r = Throw m
  | OutOfFuel => False
  end.

Definition factor_runs (f : factor) : Prop :=
  forall s pre rest,
    s = pre ++ text_factor f ++ rest ->
    literals_factor f -> follows of_number rest ->
    exists fuel,
      parseFactor s fuel (length pre)
      = stops_with (run_factor f) (length pre + length (text_factor f)).

Definition term_runs (t : term) : Prop :=
  forall s pre rest r,
    s = pre ++ text_term t ++ rest ->
    literals_term t -> follows of_number rest -> r <> OutOfFuel ->
    loop_gives (run_term t)
      (fun fuel v =>
         parseTerm_loop s fuel v (length pre + length (text_term t))) r ->
    exists fuel, parseTerm s fuel (length pre) = r.

Definition expr_runs (e : expr) : Prop :=
  forall s pre rest r,
    s = pre ++ text_expr e ++ rest ->
    literals_expr e -> follows of_term rest -> r <> OutOfFuel ->
    loop_gives (run_expr e)
      (fun fuel v =>
         parseExpression_loop s fuel v (length pre + length (text_expr e))) r ->
    exists fuel, parseExpression s fuel (length pre) = r.

(** The tree of [8/(2-2)+1]. *)
Definition eight_by_nothing : expr :=
  EAdd (ETerm (TDiv (TFactor (FNum (js "8")))
                    (FParen (ESub (ETerm (TFactor (FNum (js "2"))))
                                  (TFactor (FNum (js "2")))))))
       (TFactor (FNum (js "1"))).

(** ** Text of commands ([commands.ts], [bot.ts])

    The string functions that the command handlers use. *)

Module JsText.

(** [s.trimEnd()] *)
Fixpoint trim_end (s : jsstring) : jsstring :=
  match s with
  | [] => []
  | c :: r =>
      match trim_end r with
      | [] => if is_space c then [] else [c]
      | kept => c :: kept
      end
  end.

(** [s.trim()] *)
Definition trim (s : jsstring) : jsstring := trim_end (trim_start s).

(** A string as a condition: the empty string counts as false. *)
Definition truthy (s : jsstring) : bool :=
  match s with
  | [] => false
  | _ :: _ => true
  end.

Definition string_eqb (a b : jsstring) : bool :=
  if list_eq_dec N.eq_dec a b then true else false.

(** [s.indexOf(c)] for a string [c] of one code unit; [None] is -1. *)
Fixpoint index_of (c : N) (s : jsstring) : option nat :=
  match s with
  | [] => None
  | d :: r =>
      if (d =? c)%N then Some 0
      else match index_of c r with
           | Some i => Some (S i)
           | None => None
           end
  end.

(** [s.split(c)] for a string [c] of one code unit. *)
Fixpoint split (c : N) (s : jsstring) : list jsstring :=
  match s with
  | [] => [[]]
  | d :: r =>
      if (d =? c)%N then [] :: split c r
      else match split c r with
           | part :: parts => (d :: part) :: parts
           | [] => [[d]]
           end
  end.

(** [parts.join(c)] *)
Fixpoint join (c : N) (parts : list jsstring) : jsstring :=
  match parts with
  | [] => []
  | [part] => part
  | part :: rest => part ++ c :: join c rest
  end.

Definition space : N := ch " ".

End JsText.

(** ** The in-memory storage ([MemStorage])

    A [Map] keeps its entries in the order in which their keys were first
    set; it is a list of entries here.  Identifiers and counts are
    integers, timestamps are milliseconds. *)

Module JsMap.

Local Open Scope Z_scope.

Definition t (V : Type) : Type := list (Z * V).

Definition empty {V : Type} : t V := [].

(** [map.get(key)] *)
Fixpoint get {V : Type} (key : Z) (m : t V) : option V :=
  match m with
  | [] => None
  | (k, v) :: r => if (k =? key)%Z then Some v else get key r
  end.

Definition has {V : Type} (key : Z) (m : t V) : bool :=
  match get key m with
  | Some _ => true
  | None => false
  end.

(** [map.set(key, value)]: an existing key keeps its place. *)
Fixpoint set {V : Type} (key : Z) (value : V) (m : t V) : t V :=
  match m with
  | [] => [(key, value)]
  | (k, v) :: r =>
      if (k =? key)%Z then (k, value) :: r else (k, v) :: set key value r
  end.

(** [map.delete(key)]: the map without the key. *)
Fixpoint delete {V : Type} (key : Z) (m : t V) : t V :=
  match m with
  | [] => []
  | (k, v) :: r => if (k =? key)%Z then r else (k, v) :: delete key r
  end.

(** [Array.from(map.values())] *)
Definition values {V : Type} (m : t V) : list V := map snd m.

Definition keys {V : Type} (m : t V) : list Z := map fst m.

End JsMap.

Module Storage.

Import JsText.
Local Open Scope Z_scope.

Record User : Type := {
  user_id : Z;
  user_username : jsstring;
  user_password : jsstring
}.

Record InsertUser : Type := {
  new_username : jsstring;
  new_password : jsstring
}.

Record Command : Type := {
  id : Z;
  name : jsstring;
  description : jsstring;
  prefix : jsstring;
  cooldown : Z;
  permissionLevel : jsstring;
  isActive : bool;
  usageCount : Z
}.

(** [InsertCommand]: the columns with a default may be absent. *)
Record InsertCommand : Type := {
  insert_name : jsstring;
  insert_description : jsstring;
  insert_prefix : jsstring;
  insert_cooldown : option Z;
  insert_permissionLevel : option jsstring;
  insert_isActive : option bool
}.

(** [Partial<InsertCommand>]: every property may be absent. *)
Record PartialCommand : Type := {
  partial_name : option jsstring;
  partial_description : option jsstring;
  partial_prefix : option jsstring;
  partial_cooldown : option Z;
  partial_permissionLevel : option jsstring;
  partial_isActive : option bool
}.

Record CommandLog : Type := {
  log_id : Z;
  timestamp : Z;
  userId : jsstring;
  username : jsstring;
  command : jsstring;
  serverId : option jsstring;
  serverName : option jsstring;
  status : jsstring
}.

Record InsertCommandLog : Type := {
  insert_userId : jsstring;
  insert_username : jsstring;
  insert_command : jsstring;
  insert_serverId : option jsstring;
  insert_serverName : option jsstring;
  insert_status : jsstring
}.

Record MemStorage : Type := {
  users : JsMap.t User;
  botCommands : JsMap.t Command;
  botCommandLogs : JsMap.t CommandLog;
  currentUserId : Z;
  currentCommandId : Z;
  currentLogId : Z
}.

(** [a ?? b] *)
Definition or_default {A : Type} (a : option A) (b : A) : A :=
  match a with
  | Some x => x
  | None => b
  end.

Definition getUser (id : Z) (st : MemStorage) : option User :=
  JsMap.get id (users st).

Definition getUserByUsername (username : jsstring) (st : MemStorage)
  : option User :=
  find (fun user => string_eqb (user_username user) username)
    (JsMap.values (users st)).

Definition createUser (insertUser : InsertUser) (st : MemStorage)
  : User * MemStorage :=
  let id := currentUserId st in
  let user := {| user_id := id;
                 user_username := new_username insertUser;
                 user_password := new_password insertUser |} in
  (user,
   {| users := JsMap.set id user (users st);
      botCommands := botCommands st;
      botCommandLogs := botCommandLogs st;
      currentUserId := id + 1;
      currentCommandId := currentCommandId st;
      currentLogId := currentLogId st |}).

Definition getCommands (st : MemStorage) : list Command :=
  JsMap.values (botCommands st).

Definition getCommand (id : Z) (st : MemStorage) : option Command :=
  JsMap.get id (botCommands st).

Definition getCommandByName (name_ : jsstring) (st : MemStorage)
  : option Command :=
  find (fun cmd => string_eqb (name cmd) name_) (JsMap.values (botCommands st)).

Definition with_commands (st : MemStorage) (m : JsMap.t Command) (next : Z)
  : MemStorage :=
  {| users := users st;
     botCommands := m;
     botCommandLogs := botCommandLogs st;
     currentUserId := currentUserId st;
     currentCommandId := next;
     currentLogId := currentLogId st |}.

Definition createCommand (insertCommand : InsertCommand) (st : MemStorage)
  : Command * MemStorage :=
  let id_ := currentCommandId st in
  let command :=
    {| id := id_;
       name := insert_name insertCommand;
       description := insert_description insertCommand;
       prefix := insert_prefix insertCommand;
       cooldown := or_default (insert_cooldown insertCommand) 3;
       permissionLevel :=
         or_default (insert_permissionLevel insertCommand) (js "None");
       isActive := or_default (insert_isActive insertCommand) true;
       usageCount := 0 |} in
  (command, with_commands st (JsMap.set id_ command (botCommands st)) (id_ + 1)).

(** [{ ...existing, ...partialCommand }] *)
Definition merge (existing : Command) (partialCommand : PartialCommand)
  : Command :=
  {| id := id existing;
     name := or_default (partial_name partialCommand) (name existing);
     description :=
       or_default (partial_description partialCommand) (description existing);
     prefix := or_default (partial_prefix partialCommand) (prefix existing);
     cooldown := or_default (partial_cooldown partialCommand) (cooldown existing);
     permissionLevel :=
       or_default (partial_permissionLevel partialCommand)
         (permissionLevel existing);
     isActive := or_default (partial_isActive partialCommand) (isActive existing);
     usageCount := usageCount existing |}.

Definition updateCommand (id_ : Z) (partialCommand : PartialCommand)
  (st : MemStorage) : option Command * MemStorage :=
  match JsMap.get id_ (botCommands st) with
  | None => (None, st)
  | Some existing =>
      let updated := merge existing partialCommand in
      (Some updated,
       with_commands st (JsMap.set id_ updated (botCommands st))
         (currentCommandId st))
  end.

Definition deleteCommand (id_ : Z) (st : MemStorage) : bool * MemStorage :=
  (JsMap.has id_ (botCommands st),
   with_commands st (JsMap.delete id_ (botCommands st)) (currentCommandId st)).

Definition incrementCommandUsage (id_ : Z) (st : MemStorage) : MemStorage :=
  match JsMap.get id_ (botCommands st) with
  | Some command_ =>
      let command' :=
        {| id := id command_;
           name := name command_;
           description := description command_;
           prefix := prefix command_;
           cooldown := cooldown command_;
           permissionLevel := permissionLevel command_;
           isActive := isActive command_;
           usageCount := usageCount command_ + 1 |} in
      with_commands st (JsMap.set id_ command' (botCommands st))
        (currentCommandId st)
  | None => st
  end.

Definition with_logs (st : MemStorage) (m : JsMap.t CommandLog) (next : Z)
  : MemStorage :=
  {| users := users st;
     botCommands := botCommands st;
     botCommandLogs := m;
     currentUserId := currentUserId st;
     currentCommandId := currentCommandId st;
     currentLogId := next |}.

(** [createCommandLog]; [now] is the reading of the clock. *)
Definition createCommandLog (insertLog : InsertCommandLog) (now : Z)
  (st : MemStorage) : CommandLog * MemStorage :=
  let id_ := currentLogId st in
  let log :=
    {| log_id := id_;
       timestamp := now;
       userId := insert_userId insertLog;
       username := insert_username insertLog;
       command := insert_command insertLog;
       serverId := insert_serverId insertLog;
       serverName := insert_serverName insertLog;
       status := insert_status insertLog |} in
  (log, with_logs st (JsMap.set id_ log (botCommandLogs st)) (id_ + 1)).

Definition clearCommandLogs (st : MemStorage) : MemStorage :=
  with_logs st JsMap.empty (currentLogId st).

(** [array.sort(compare)]: the sort is stable, so with a comparator that
    orders by one key its result is the stable insertion sort. *)
Fixpoint insert_sorted {A : Type} (compare : A -> A -> Z) (x : A) (l : list A)
  : list A :=
  match l with
  | [] => [x]
  | y :: r =>
      if (compare x y <=? 0)%Z then x :: y :: r
      else y :: insert_sorted compare x r
  end.

Definition sort {A : Type} (compare : A -> A -> Z) (l : list A) : list A :=
  fold_right (insert_sorted compare) [] l.

(** An index of [slice] as an integer: NaN counts as 0, a negative
    number counts from the end. *)
Definition slice_index (len : nat) (i : option Z) : nat :=
  match i with
  | None => 0
  | Some z =>
      if (z <? 0)%Z then Z.to_nat (Z.max (Z.of_nat len + z) 0)
      else Nat.min (Z.to_nat z) len
  end.

(** [array.slice(start, stop)] *)
Definition slice {A : Type} (l : list A) (start stop : option Z) : list A :=
  let from := slice_index (length l) start in
  let to := slice_index (length l) stop in
  firstn (to - from) (skipn from l).

(** [a + b] on numbers that are integers or NaN ([None]). *)
Definition plus (a b : option Z) : option Z :=
  match a, b with
  | Some x, Some y => Some (x + y)%Z
  | _, _ => None
  end.

(** [getCommandLogs(limit = 100, offset = 0)]: an argument is absent
    ([None]) or a number, which is an integer or NaN. *)
Definition getCommandLogs (limit offset : option (option Z)) (st : MemStorage)
  : list CommandLog :=
  let limit := or_default limit (Some 100) in
  let offset := or_default offset (Some 0) in
  let logs :=
    sort (fun a b => timestamp b - timestamp a)
      (JsMap.values (botCommandLogs st)) in
  slice logs offset (plus offset limit).

(** [new MemStorage()] *)
Definition newStorage : MemStorage :=
  snd (createCommand
         {| insert_name := js "repeat";
            insert_description := js "Repeats whatever message the user sends";
            insert_prefix := js "/";
            insert_cooldown := Some 3%Z;
            insert_permissionLevel := Some (js "None");
            insert_isActive := Some true |}
         {| users := JsMap.empty;
            botCommands := JsMap.empty;
            botCommandLogs := JsMap.empty;
            currentUserId := 1;
            currentCommandId := 1;
            currentLogId := 1 |}).

(** The calls that change the storage. *)
Inductive operation : Type :=
| CreateUser (insertUser : InsertUser)
| CreateCommand (insertCommand : InsertCommand)
| UpdateCommand (id_ : Z) (partialCommand : PartialCommand)
| DeleteCommand (id_ : Z)
| IncrementCommandUsage (id_ : Z)
| CreateCommandLog (insertLog : InsertCommandLog) (now : Z)
| ClearCommandLogs.

Definition run (st : MemStorage) (op : operation) : MemStorage :=
  match op with
  | CreateUser u => snd (createUser u st)
  | CreateCommand c => snd (createCommand c st)
  | UpdateCommand i p => snd (updateCommand i p st)
  | DeleteCommand i => snd (deleteCommand i st)
  | IncrementCommandUsage i => incrementCommandUsage i st
  | CreateCommandLog l now => snd (createCommandLog l now st)
  | ClearCommandLogs => clearCommandLogs st
  end.

Definition run_all (ops : list operation) (st : MemStorage) : MemStorage :=
  fold_left run ops st.





(** A map whose entries carry their own key, in increasing order and
    below the counter. *)
Definition keyed {V : Type} (key_of : V -> Z) (next : Z) (m : JsMap.t V)
  : Prop :=
  StronglySorted Z.lt (JsMap.keys m) /\
  Forall (fun entry => fst entry < next /\ key_of (snd entry) = fst entry) m.

Definition consistent (st : MemStorage) : Prop :=
  keyed user_id (currentUserId st) (users st) /\
  keyed id (currentCommandId st) (botCommands st) /\
  keyed log_id (currentLogId st) (botCommandLogs st).

Definition reachable (st : MemStorage) : Prop :=
  exists ops, st = run_all ops newStorage.

(** Values for the statements and the examples. *)


Definition only_cooldown (seconds : Z) : PartialCommand :=
  {| partial_name := None; partial_description := None;
     partial_prefix := None; partial_cooldown := Some seconds;
     partial_permissionLevel := None; partial_isActive := None |}.


Definition newest_first (a b : CommandLog) : Prop := timestamp b <= timestamp a.

Definition by_timestamp (a b : CommandLog) : Z := timestamp b - timestamp a.

(** The stored entries, newest first. *)
Definition all_logs (st : MemStorage) : list CommandLog :=
  sort by_timestamp (JsMap.values (botCommandLogs st)).

Definition log_entry (user text : string) : InsertCommandLog :=
  {| insert_userId := js "42"; insert_username := js user;
     insert_command := js text; insert_serverId := None;
     insert_serverName := None; insert_status := js "Success" |}.

Definition three_entries : MemStorage :=
  run_all
    [CreateCommandLog (log_entry "ann" "/joke") 1000;
     CreateCommandLog (log_entry "bob" "/repeat hi") 3000;
     CreateCommandLog (log_entry "cy" "/calculate 1+1") 2000]
    newStorage.

End Storage.

(** ** The handlers of stored commands ([commands.ts]) *)

Module Commands.

Import JsText.

Record CommandResult : Type := { response : jsstring; status : jsstring }.

(** [handleRepeatCommand]; [message] is [None] for [null], and otherwise
    tells whether [message.reply] with the given text succeeds. *)
Definition handleRepeatCommand (args : jsstring)
  (message : option (jsstring -> bool)) : CommandResult :=
  if negb (truthy args) || string_eqb (trim args) [] then
    {| response := js "You need to provide a message to repeat!";
       status := js "Missing Args" |}
  else
    match message with
    | Some reply =>
        if reply args then {| response := args; status := js "Success" |}
        else {| response := js "Error sending message to channel";
                status := js "Error" |}
    | None => {| response := args; status := js "Success" |}
    end.

(** [handleCommand] *)
Definition handleCommand (command : Storage.Command) (args : jsstring)
  (message : option (jsstring -> bool)) : CommandResult :=
  if string_eqb (Storage.name command) (js "repeat")
  then handleRepeatCommand args message
  else {| response := js "Unknown command: " ++ Storage.name command;
          status := js "Unknown Command" |}.

End Commands.

(** ** The bot ([bot.ts]) *)

Module Bot.

Import JsText.

(** A string or [null] as a condition. *)
Definition given (error : option string) : bool :=
  match error with
  | Some e => truthy (js e)
  | None => false
  end.

Section Format.

(** The text of a number in a template, [`${result}`]. *)
Variable toString : number -> jsstring.

(** The characters before "Expression", "Error" and "Result", as the
    source file has them. *)
Definition expression_mark : jsstring := [240; 376; 8220]%N.
Definition error_mark : jsstring := [226; 338]%N.
Definition result_mark : jsstring := [226; 339; 8230]%N.

(** [formatCalculationResult] *)
Definition formatCalculationResult (expression : jsstring)
  (result : option number) (error : option string) : jsstring :=
  let line :=
    expression_mark ++ js " **Expression:** `" ++ expression ++ js "`" ++ [10%N]
  in
  if given error then
    line ++ error_mark ++ js " **Error:** " ++
    match error with
    | Some e => js e
    | None => js "null"
    end
  else
    line ++ result_mark ++ js " **Result:** `" ++
    match result with
    | Some r => toString r
    | None => js "null"
    end ++ js "`".

(** [parts] and [commandName] of [testCommand]. *)
Definition command_parts (command_ : jsstring) : list jsstring :=
  split space (trim command_).

Definition command_name (command_ : jsstring) : jsstring :=
  let first := hd [] (command_parts command_) in
  if starts_with (js "/") first then skipn 1 first else first.

(** What [testCommand] returns. *)
Record TestResult : Type := {
  command : jsstring;
  response : jsstring;
  status : jsstring;
  timestamp : Z
}.

(** [testCommand].  [joke] is the joke that [getRandomJoke] fetches,
    [None] if it fails; [fallbackJoke] is what [getFallbackJoke] picks;
    [now] is the clock.  The result is [None] only if the calculator ran
    out of fuel. *)
Definition testCommand (joke : option jsstring) (fallbackJoke : jsstring)
  (now : Z) (storage : Storage.MemStorage) (command_ : jsstring)
  : option TestResult :=
  let answer response_ status_ :=
    Some {| command := command_; response := response_; status := status_;
            timestamp := now |} in
  let parts := command_parts command_ in
  let first := hd [] parts in
  let commandName := command_name command_ in
  if string_eqb commandName (js "joke") then
    match joke with
    | Some text => answer text (js "Success")
    | None => answer fallbackJoke (js "API Error - Using Fallback")
    end
  else if string_eqb commandName (js "calculate") then
    let expression := trim (join space (tl parts)) in
    if negb (truthy expression) then
      answer (js "Please provide a mathematical expression to calculate.")
        (js "Missing Expression")
    else
      match calculate expression with
      | Some o =>
          answer (formatCalculationResult expression (result o) (error o))
            (if given (error o) then js "Error" else js "Success")
      | None => None
      end
  else if string_eqb commandName (js "dm") then
    let args := trim (join space (tl parts)) in
    if negb (truthy args) then
      answer (js "Please provide either a username and message, or just a message to send to everyone.")
        (js "Missing Arguments")
    else
      match index_of space args with
      | None => answer (js "Please provide a message to send.")
                  (js "Missing Message")
      | Some firstSpace =>
          let username := trim (firstn firstSpace args) in
          let message := trim (skipn (firstSpace + 1) args) in
          let note :=
            [10%N; 10%N] ++
            js "This is a simulated response - actual messages will not be sent in test mode." in
          if string_eqb username (js "all") then
            answer (js "This would send a DM to ALL server members with the message: " ++
                    [34%N] ++ message ++ [34%N] ++ note)
              (js "Simulated")
          else
            answer (js "This would send a DM to user " ++ [34%N] ++ username ++
                    [34%N] ++ js " with the message: " ++ [34%N] ++ message ++
                    [34%N] ++ note)
              (js "Simulated")
      end
  else
    match Storage.getCommandByName commandName storage with
    | None => answer (js "Unknown command: " ++ first) (js "Unknown Command")
    | Some cmd =>
        let args := join space (tl parts) in
        let result_ := Commands.handleCommand cmd args None in
        answer (Commands.response result_) (Commands.status result_)
    end.

(** What the handler of text messages does with a message: the branch it
    takes, with the text that it replies and the status that it logs.
    [DmUser] and [DmEveryone] are the two branches after the parsing of
    [/dm]: the search for the user, and the request to confirm a message
    to all members. *)
Inductive TextAction : Type :=
| IgnoreBot
| TellJoke
| RepeatReply (textToRepeat : jsstring)
| RepeatHint
| CalculateReply (expression response_ status_ : jsstring)
| CalculateHint
| JoinVoice
| LeaveVoice
| DmRefused
| DmHint
| DmUser (username messageContent : jsstring)
| DmEveryone (messageContent : jsstring)
| NoCommand.

(** The handler of [MessageCreate], up to the choice of the branch.
    [authorIsBot] is [message.author.bot], [mayManageMessages] is
    [message.member?.permissions.has('ManageMessages')].  The result is
    [None] only if the calculator ran out of fuel. *)
Definition onMessageCreate (authorIsBot mayManageMessages : bool)
  (messageContent : jsstring) : option TextAction :=
  if authorIsBot then Some IgnoreBot
  else
    let content := trim messageContent in
    if string_eqb content (js "/joke") then Some TellJoke
    else if starts_with (js "/repeat ") content then
      let textToRepeat := trim (skipn (length (js "/repeat ")) content) in
      if truthy textToRepeat then Some (RepeatReply textToRepeat)
      else Some RepeatHint
    else if starts_with (js "/calculate ") content then
      let expression := trim (skipn (length (js "/calculate ")) content) in
      if truthy expression then
        match calculate expression with
        | Some o =>
            Some (CalculateReply expression
                    (formatCalculationResult expression (result o) (error o))
                    (if given (error o) then js "Error" else js "Success"))
        | None => None
        end
      else Some CalculateHint
    else if string_eqb content (js "/joinvoice") then Some JoinVoice
    else if string_eqb content (js "/leavevoice") then Some LeaveVoice
    else if starts_with (js "/dm ") content then
      if negb mayManageMessages then Some DmRefused
      else
        let args := trim (skipn (length (js "/dm ")) content) in
        let '(username, messageContent_) :=
          match index_of space args with
          | Some firstSpace =>
              (Some (trim (firstn firstSpace args)),
               trim (skipn (firstSpace + 1) args))
          | None => (None, args)
          end in
        if negb (truthy messageContent_) then Some DmHint
        else
          match username with
          | Some name =>
              if truthy name && negb (string_eqb name (js "all"))
              then Some (DmUser name messageContent_)
              else Some (DmEveryone messageContent_)
          | None => Some (DmEveryone messageContent_)
          end
    else Some NoCommand.

End Format.

End Bot.

(** ** Definitions for the properties of the handlers *)

(** A string that has no whitespace at either end. *)
Definition trimmed (s : jsstring) : Prop :=
  s = [] \/
  exists first middle last_,
    (s = [first] /\ first = last_ \/ s = first :: middle ++ [last_]) /\
    is_space first = false /\ is_space last_ = false.

(** The literal texts as their code units. *)
Ltac literals :=
  repeat match goal with
         | |- context [js ?s] =>
             let v := eval vm_compute in (js s) in change (js s) with v
         end;
  change JsText.space with 32%N.

(** ** Direct messages to all members ([dm.ts])

    What the calls to Discord do is given with the arguments: whether the
    fetch of the members fails, whether a member can be messaged, and
    whether a send on the progress channel fails, each with the text of
    its error. *)

Module Dm.

Local Open Scope Z_scope.

(** A member in the cache of the guild.  [delivery] is [None] if
    [createDM] and [send] succeed for the member, and the error if not. *)
Record Member : Type := {
  bot : bool;
  tag : jsstring;
  delivery : option jsstring
}.

(** [fetch] is the error of [guild.members.fetch()], [None] if it
    succeeds; [members] is [guild.members.cache] after it. *)
Record Guild : Type := {
  fetch : option jsstring;
  members : list Member
}.

(** The progress channel: the error of its [n]-th [send], counted from
    0, [None] if it succeeds. *)
Definition Channel : Type := nat -> option jsstring.

Record Stats : Type := {
  total : Z;
  sent : Z;
  failed : Z;
  errors : list jsstring
}.

(** What the function sends: a direct message to the member with a tag,
    or a text on the progress channel. *)
Inductive Event : Type :=
| Direct (tag_ : jsstring) (text : jsstring)
| Progress (text : jsstring).

(** [stats], the number of sends on the progress channel so far, and
    what has been sent. *)
Record Run : Type := {
  stats : Stats;
  sends : nat;
  events : list Event
}.

Inductive Outcome : Type :=
| Resolved (stats_ : Stats)
| Rejected (error : jsstring).

Definition with_stats (r : Run) (s : Stats) : Run :=
  {| stats := s; sends := sends r; events := events r |}.

(** [await progressChannel.send(text)] *)
Definition send_progress (channel : Channel) (text : jsstring) (r : Run)
  : Run * option jsstring :=
  ({| stats := stats r; sends := S (sends r);
      events := events r ++ [Progress text] |},
   channel (sends r)).

(** The [catch] in the loop. *)
Definition member_failed (member : Member) (error : jsstring) (r : Run) : Run :=
  with_stats r
    {| total := total (stats r); sent := sent (stats r);
       failed := failed (stats r) + 1;
       errors := errors (stats r) ++
                 [js "Could not message " ++ tag member ++ js ": " ++ error] |}.

(** The body of the loop. *)
Definition message_member (message : jsstring) (progressChannel : option Channel)
  (r : Run) (member : Member) : Run :=
  let r := {| stats := stats r; sends := sends r;
              events := events r ++ [Direct (tag member) message] |} in
  match delivery member with
  | Some error => member_failed member error r
  | None =>
      let r := with_stats r
                 {| total := total (stats r); sent := sent (stats r) + 1;
                    failed := failed (stats r); errors := errors (stats r) |} in
      match progressChannel with
      | Some channel =>
          if Z.rem (sent (stats r)) 5 =? 0 then
            let '(r, outcome) :=
              send_progress channel
                (js "Progress: " ++ digits_of (sent (stats r)) ++ js "/" ++
                 digits_of (total (stats r)) ++ js " messages sent.") r in
            match outcome with
            | Some error => member_failed member error r
            | None => r
            end
          else r
      | None => r
      end
  end.

(** The outer [catch]. *)
Definition global_error (progressChannel : option Channel) (error : jsstring)
  (r : Run) : Outcome * list Event :=
  let finish (r : Run) :=
    (Resolved {| total := total (stats r); sent := sent (stats r);
                 failed := total (stats r) - sent (stats r);
                 errors := errors (stats r) ++ [js "Global error: " ++ error] |},
     events r) in
  match progressChannel with
  | Some channel =>
      let '(r, outcome) :=
        send_progress channel (js "Error sending DMs: " ++ error) r in
      match outcome with
      | Some error' => (Rejected error', events r)
      | None => finish r
      end
  | None => finish r
  end.

(** [sendDirectMessageToAllMembers], with what it sent. *)
Definition sendDirectMessageToAllMembers (guild : Guild) (message : jsstring)
  (progressChannel : option Channel) : Outcome * list Event :=
  let r := {| stats := {| total := 0; sent := 0; failed := 0; errors := [] |};
              sends := 0; events := [] |} in
  match fetch guild with
  | Some error => global_error progressChannel error r
  | None =>
      let members_ := filter (fun member => negb (bot member)) (members guild) in
      let r := with_stats r
                 {| total := Z.of_nat (length members_); sent := sent (stats r);
                    failed := failed (stats r); errors := errors (stats r) |} in
      let '(r, started) :=
        match progressChannel with
        | Some channel =>
            send_progress channel
              (js "Starting to send DMs to " ++ digits_of (total (stats r)) ++
               js " members...") r
        | None => (r, None)
        end in
      match started with
      | Some error => global_error progressChannel error r
      | None =>
          let r := fold_left (message_member message progressChannel) members_ r in
          let '(r, finished) :=
            match progressChannel with
            | Some channel =>
                send_progress channel
                  (js "Finished sending DMs. Sent: " ++ digits_of (sent (stats r))
                   ++ js ", Failed: " ++ digits_of (failed (stats r))) r
            | None => (r, None)
            end in
          match finished with
          | Some error => global_error progressChannel error r
          | None => (Resolved (stats r), events r)
          end
      end
  end.

(** The members that get the message, and the tags of the direct
    messages among the events. *)
Definition recipients (guild : Guild) : list Member :=
  filter (fun member => negb (bot member)) (members guild).

Definition reached (member : Member) : bool :=
  match delivery member with
  | None => true
  | Some _ => false
  end.

Fixpoint direct_tags (evs : list Event) : list jsstring :=
  match evs with
  | [] => []
  | Direct t _ :: r => t :: direct_tags r
  | Progress _ :: r => direct_tags r
  end.

Fixpoint progress_count (evs : list Event) : nat :=
  match evs with
  | [] => 0
  | Direct _ _ :: r => progress_count r
  | Progress _ :: r => S (progress_count r)
  end.

(** Values for the statements and the examples. *)

(** The progress channel, if there is one, fails at no send from the
    [k]-th on. *)
Definition quiet_from (k : nat) (progressChannel : option Channel) : Prop :=
  forall channel n, progressChannel = Some channel -> (k <= n)%nat ->
                    channel n = None.

Definition unreached (member : Member) : bool := negb (reached member).

(** The entry of [errors] for a member that could not be messaged. *)
Definition failure_text (member : Member) : jsstring :=
  js "Could not message " ++ tag member ++ js ": " ++
  match delivery member with
  | Some error => error
  | None => []
  end.

Definition ann : Member :=
  {| bot := false; tag := js "ann#1"; delivery := None |}.
Definition robot : Member :=
  {| bot := true; tag := js "robot#2"; delivery := None |}.
Definition bob : Member :=
  {| bot := false; tag := js "bob#3"; delivery := Some (js "blocked") |}.
Definition small_guild : Guild :=
  {| fetch := None; members := [ann; robot; bob] |}.

Definition human (name_ : string) : Member :=
  {| bot := false; tag := js name_; delivery := None |}.

Definition five_humans : Guild :=
  {| fetch := None;
     members := [human "a#1"; human "b#2"; robot; human "c#3"; human "d#4";
                 human "e#5"] |}.

Definition second_send_fails : Channel :=
  fun n => match n with
           | 1%nat => Some (js "Missing Access")
           | _ => None
           end.

End Dm.

(** ** Cooldowns ([bot.ts])

    [commandCooldowns] maps the name of a command to a map from the
    identifier of a user to the time of the last use, in milliseconds. *)

Module Cooldowns.

Import JsText.

(** A [Map] with strings as keys. *)
Definition StringMap (V : Type) : Type := list (jsstring * V).

Fixpoint get {V : Type} (key : jsstring) (m : StringMap V) : option V :=
  match m with
  | [] => None
  | (k, v) :: r => if string_eqb k key then Some v else get key r
  end.

(** [map.set(key, value)]: an existing key keeps its place. *)
Fixpoint set {V : Type} (key : jsstring) (value : V) (m : StringMap V)
  : StringMap V :=
  match m with
  | [] => [(key, value)]
  | (k, v) :: r =>
      if string_eqb k key then (k, value) :: r else (k, v) :: set key value r
  end.

Definition Cooldowns : Type := StringMap (StringMap number).

(** [x < y] on numbers. *)
Definition lt : number -> number -> bool := SFltb.

(** [Math.ceil] *)
Definition ceil (x : number) : number :=
  match x with
  | S754_finite s m e =>
      if (0 <=? e)%Z then x
      else
        let q := (Zpos m / 2 ^ (- e))%Z in
        if s then (if (q =? 0)%Z then S754_zero true else of_Z (- q))
        else if (Zpos m mod 2 ^ (- e) =? 0)%Z then of_Z q
             else of_Z (q + 1)
  | _ => x
  end.

(** [isOnCooldown]; [now] is [Date.now()].  The answer, and the map
    after the call. *)
Definition isOnCooldown (userId commandName : jsstring) (cooldownTime : number)
  (now : number) (commandCooldowns : Cooldowns) : bool * Cooldowns :=
  match get commandName commandCooldowns with
  | None => (false, set commandName [] commandCooldowns)
  | Some timestamps =>
      match get userId timestamps with
      | None => (false, commandCooldowns)
      | Some timestamp =>
          let expirationTime := add timestamp (mul cooldownTime (of_Z 1000)) in
          (lt now expirationTime, commandCooldowns)
      end
  end.

(** [getRemainingCooldown]; a user without an entry gives [undefined],
    which is NaN in the sum. *)
Definition getRemainingCooldown (userId commandName : jsstring) (now : number)
  (commandCooldowns : Cooldowns) : number :=
  match get commandName commandCooldowns with
  | None => of_Z 0
  | Some timestamps =>
      let timestamp :=
        match get userId timestamps with
        | Some t => t
        | None => NaN
        end in
      let expirationTime := add timestamp (of_Z 3000) in
      ceil (div (sub expirationTime now) (of_Z 1000))
  end.

(** [setCooldown]; the map after the call. *)
Definition setCooldown (userId commandName : jsstring) (cooldownTime : number)
  (now : number) (commandCooldowns : Cooldowns) : Cooldowns :=
  let commandCooldowns :=
    match get commandName commandCooldowns with
    | None => set commandName [] commandCooldowns
    | Some _ => commandCooldowns
    end in
  match get commandName commandCooldowns with
  | Some timestamps =>
      set commandName (set userId now timestamps) commandCooldowns
  | None => commandCooldowns
  end.

(** The time of the last use that the map holds. *)
Definition last_use (userId commandName : jsstring) (cds : Cooldowns)
  : option number :=
  match get commandName cds with
  | Some timestamps => get userId timestamps
  | None => None
  end.

(** A number that is zero, negative or NaN. *)
Definition not_above_zero (x : number) : bool :=
  match x with
  | S754_zero _ | S754_nan => true
  | S754_finite s _ _ | S754_infinity s => s
  end.

End Cooldowns.

(** ** Fuel: more of it changes nothing, and [enough_fuel] is enough *)

Lemma bind_fuel A B (c c' : res A) (k k' : A -> res B) :
  (c <> OutOfFuel -> c' = c) ->
  (forall a, c = Ret a -> k a <> OutOfFuel -> k' a = k a) ->
  bind c k <> OutOfFuel -> bind c' k' = bind c k.
Proof.
  intros Hc Hk H.
  destruct c as [a | m | ]; simpl in *.
  - rewrite Hc by discriminate. simpl. now apply Hk.
  - rewrite Hc by discriminate. reflexivity.
  - now elim H.
Qed.

Section FuelFacts.

Variable expression : jsstring.

Lemma fuel_mono_all n :
  rule_mono (parseExpression expression) n
  /\ loop_mono (parseExpression_loop expression) n
  /\ rule_mono (parseTerm expression) n
  /\ loop_mono (parseTerm_loop expression) n
  /\ rule_mono (parseFactor expression) n.
Proof.
  induction n as [| n (IHe & IHel & IHt & IHtl & IHf)].
  - repeat split; intros m; intros; simpl in *; congruence.
  - repeat split.
    + intros [| m] pos Hle H; [lia |]. simpl in *.
      apply bind_fuel; auto.
      * intros; apply IHt; [lia | assumption].
      * intros [v p] _ Hk. apply IHel; [lia | assumption].
    + intros [| m] v pos Hle H; [lia |]. simpl in *.
      destruct (pos <? length expression); [| reflexivity].
      destruct (char_is expression pos "+").
      { apply bind_fuel; auto.
        - intros; apply IHt; [lia | assumption].
        - intros [w p] _ Hk. apply IHel; [lia | assumption]. }
      destruct (char_is expression pos "-"); [| reflexivity].
      apply bind_fuel; auto.
      * intros; apply IHt; [lia | assumption].
      * intros [w p] _ Hk. apply IHel; [lia | assumption].
    + intros [| m] pos Hle H; [lia |]. simpl in *.
      apply bind_fuel; auto.
      * intros; apply IHf; [lia | assumption].
      * intros [v p] _ Hk. apply IHtl; [lia | assumption].
    + intros [| m] v pos Hle H; [lia |]. simpl in *.
      destruct (pos <? length expression); [| reflexivity].
      destruct (char_is expression pos "*").
      { apply bind_fuel; auto.
        - intros; apply IHf; [lia | assumption].
        - intros [w p] _ Hk. apply IHtl; [lia | assumption]. }
      destruct (char_is expression pos "/"); [| reflexivity].
      apply bind_fuel; auto.
      * intros; apply IHf; [lia | assumption].
      * intros [w p] _ Hk.
        destruct (strict_eq w zero); [reflexivity |].
        apply IHtl; [lia | assumption].
    + intros [| m] pos Hle H; [lia |]. simpl in *.
      destruct (char_is expression pos "("); [| reflexivity].
      apply bind_fuel; auto.
      intros; apply IHe; [lia | assumption].
Qed.

Lemma parseExpression_mono n m pos r :
  parseExpression expression n pos = r -> r <> OutOfFuel -> n <= m ->
  parseExpression expression m pos = r.
Proof.
  intros <- H Hle. now apply (proj1 (fuel_mono_all n)).
Qed.

Lemma parseExpression_loop_mono n m v pos r :
  parseExpression_loop expression n v pos = r -> r <> OutOfFuel -> n <= m ->
  parseExpression_loop expression m v pos = r.
Proof.
  intros <- H Hle. now apply (proj1 (proj2 (fuel_mono_all n))).
Qed.

Lemma parseTerm_mono n m pos r :
  parseTerm expression n pos = r -> r <> OutOfFuel -> n <= m ->
  parseTerm expression m pos = r.
Proof.
  intros <- H Hle. now apply (proj1 (proj2 (proj2 (fuel_mono_all n)))).
Qed.

Lemma parseTerm_loop_mono n m v pos r :
  parseTerm_loop expression n v pos = r -> r <> OutOfFuel -> n <= m ->
  parseTerm_loop expression m v pos = r.
Proof.
  intros <- H Hle.
  now apply (proj1 (proj2 (proj2 (proj2 (fuel_mono_all n))))).
Qed.

Lemma parseFactor_mono n m pos r :
  parseFactor expression n pos = r -> r <> OutOfFuel -> n <= m ->
  parseFactor expression m pos = r.
Proof.
  intros <- H Hle.
  now apply (proj2 (proj2 (proj2 (proj2 (fuel_mono_all n))))).
Qed.

(** The cursor stays inside the expression. *)

Lemma char_is_lt pos c : char_is expression pos c = true -> pos < length expression.
Proof.
  unfold char_is. destruct (nth_error expression pos) eqn:E; [| discriminate].
  intros _. apply nth_error_Some. congruence.
Qed.

Lemma scan_number_bounds n pos :
  pos <= length expression ->
  pos <= scan_number expression n pos <= length expression.
Proof.
  revert pos. induction n as [| n IH]; intros pos Hle; simpl; [lia |].
  destruct (pos <? length expression) eqn:E; simpl; [| lia].
  apply Nat.ltb_lt in E.
  destruct (number_char expression pos); [| lia].
  specialize (IH (S pos)). lia.
Qed.

Lemma advances_bind s1 s2 pos c (k : number * nat -> res (number * nat)) :
  advances expression s1 pos c ->
  (forall v pos', c = Ret (v, pos') ->
                  (if s1 then pos < pos' else pos <= pos') ->
                  pos' <= length expression ->
                  advances expression s2 pos' (k (v, pos'))) ->
  advances expression (s1 || s2) pos (bind c k).
Proof.
  intros Hc Hk. destruct c as [[v p] | m |]; simpl in *; auto.
  destruct Hc as [H1 H2]. specialize (Hk v p eq_refl H1 H2).
  destruct (k (v, p)) as [[w q] | m |]; simpl in *; auto.
  destruct Hk as [H3 H4]. split; [| assumption].
  destruct s1, s2; simpl; lia.
Qed.

Lemma enough_fuel_all n :
  (forall pos, pos <= length expression ->
               3 * (length expression - pos) + 3 <= n ->
               advances expression true pos (parseExpression expression n pos))
  /\ (forall v pos, pos <= length expression ->
                    3 * (length expression - pos) + 1 <= n ->
                    advances expression false pos (parseExpression_loop expression n v pos))
  /\ (forall pos, pos <= length expression ->
                  3 * (length expression - pos) + 2 <= n ->
                  advances expression true pos (parseTerm expression n pos))
  /\ (forall v pos, pos <= length expression ->
                    3 * (length expression - pos) + 1 <= n ->
                    advances expression false pos (parseTerm_loop expression n v pos))
  /\ (forall pos, pos <= length expression ->
                  3 * (length expression - pos) + 1 <= n ->
                  advances expression true pos (parseFactor expression n pos)).
Proof.
  induction n as [| n (IHe & IHel & IHt & IHtl & IHf)].
  - repeat split; intros; lia.
  - repeat split.
    + intros pos Hp Hn. simpl.
      apply (advances_bind true false).
      * apply IHt; lia.
      * intros v p _ H1 H2. apply IHel; lia.
    + intros v pos Hp Hn. simpl.
      destruct (pos <? length expression) eqn:E; [| simpl; lia].
      apply Nat.ltb_lt in E.
      destruct (char_is expression pos "+").
      { cut (advances expression true pos
               ('(right_, pos0) <- parseTerm expression n (S pos) ;;
                parseExpression_loop expression n (add v right_) pos0)).
        { destruct (bind _ _) as [[w q] | |]; simpl; auto. lia. }
        cut (advances expression true (S pos)
               ('(right_, pos0) <- parseTerm expression n (S pos) ;;
                parseExpression_loop expression n (add v right_) pos0)).
        { destruct (bind _ _) as [[w q] | |]; simpl; auto. lia. }
        apply (advances_bind true false).
        - apply IHt; lia.
        - intros w p _ H1 H2. apply IHel; lia. }
      destruct (char_is expression pos "-"); [| simpl; lia].
      cut (advances expression true (S pos)
             ('(right_, pos0) <- parseTerm expression n (S pos) ;;
              parseExpression_loop expression n (sub v right_) pos0)).
      { destruct (bind _ _) as [[w q] | |]; simpl; auto. lia. }
      apply (advances_bind true false).
      * apply IHt; lia.
      * intros w p _ H1 H2. apply IHel; lia.
    + intros pos Hp Hn. simpl.
      apply (advances_bind true false).
      * apply IHf; lia.
      * intros v p _ H1 H2. apply IHtl; lia.
    + intros v pos Hp Hn. simpl.
      destruct (pos <? length expression) eqn:E; [| simpl; lia].
      apply Nat.ltb_lt in E.
      destruct (char_is expression pos "*").
      { cut (advances expression true (S pos)
               ('(right_, pos0) <- parseFactor expression n (S pos) ;;
                parseTerm_loop expression n (mul v right_) pos0)).
        { destruct (bind _ _) as [[w q] | |]; simpl; auto. lia. }
        apply (advances_bind true false).
        - apply IHf; lia.
        - intros w p _ H1 H2. apply IHtl; lia. }
      destruct (char_is expression pos "/"); [| simpl; lia].
      cut (advances expression true (S pos)
             ('(divisor, pos0) <- parseFactor expression n (S pos) ;;
              if strict_eq divisor zero then Throw "Division by zero"
              else parseTerm_loop expression n (div v divisor) pos0)).
      { destruct (bind _ _) as [[w q] | |]; simpl; auto. lia. }
      apply (advances_bind true false).
      * apply IHf; lia.
      * intros w p _ H1 H2.
        destruct (strict_eq w zero); [exact I |]. apply IHtl; lia.
    + intros pos Hp Hn. simpl.
      destruct (char_is expression pos "(") eqn:E.
      * apply char_is_lt in E.
        cut (advances expression true (S pos)
               ('(result, pos0) <- parseExpression expression n (S pos) ;;
                if char_is expression pos0 ")" then Ret (result, S pos0)
                else Throw "Missing closing parenthesis")).
        { destruct (bind _ _) as [[w q] | |]; simpl; auto. lia. }
        apply (advances_bind true false).
        -- apply IHe; lia.
        -- intros w p _ H1 H2.
           destruct (char_is expression p ")") eqn:E'; [| exact I].
           apply char_is_lt in E'. simpl. lia.
      * pose proof (scan_number_bounds (length expression - pos) Hp) as Hs.
        destruct (pos =? scan_number expression (length expression - pos) pos) eqn:E';
          [exact I |].
        apply Nat.eqb_neq in E'. simpl. lia.
Qed.

Lemma parseExpression_enough :
  advances expression true 0 (parseExpression expression (enough_fuel expression) 0).
Proof.
  apply (proj1 (enough_fuel_all (enough_fuel expression))); unfold enough_fuel; lia.
Qed.

(** The evaluator returns a number or throws. *)
Lemma evaluateExpression_total :
  (exists v, evaluateExpression expression = Ret v)
  \/ (exists message, evaluateExpression expression = Throw message).
Proof.
  unfold evaluateExpression.
  pose proof parseExpression_enough as H.
  destruct (parseExpression expression (enough_fuel expression) 0) as [[v p] | m |];
    simpl in *.
  - destruct (p =? length expression); simpl; eauto.
  - eauto.
  - contradiction.
Qed.

End FuelFacts.

(** ** The checks before the evaluator *)

Lemma allowed_char_spec c :
  allowed_char c = true <-> In c (js "0123456789+-*/().").
Proof.
  unfold allowed_char, is_digit. cbn [js list_ascii_of_string map In].
  repeat rewrite orb_true_iff. rewrite andb_true_iff.
  rewrite N.leb_le, N.leb_le. repeat rewrite N.eqb_eq.
  change (ch "0") with 48%N; change (ch "1") with 49%N;
    change (ch "2") with 50%N; change (ch "3") with 51%N;
    change (ch "4") with 52%N; change (ch "5") with 53%N;
    change (ch "6") with 54%N; change (ch "7") with 55%N;
    change (ch "8") with 56%N; change (ch "9") with 57%N;
    change (ch "+") with 43%N; change (ch "-") with 45%N;
    change (ch "*") with 42%N; change (ch "/") with 47%N;
    change (ch "(") with 40%N; change (ch ")") with 41%N;
    change (ch ".") with 46%N.
  lia.
Qed.

Lemma only_allowed_chars_spec s :
  only_allowed_chars s = true <->
  s <> [] /\ forall c, In c s -> In c (js "0123456789+-*/().").
Proof.
  destruct s as [| c r].
  - simpl. split; [discriminate | intros [H _]; now elim H].
  - unfold only_allowed_chars. rewrite forallb_forall. split.
    + intros H. split; [discriminate |].
      intros d Hd. now apply allowed_char_spec, H.
    + intros [_ H] d Hd. now apply allowed_char_spec, H.
Qed.

Lemma remove_whitespace_no_space s c :
  In c (remove_whitespace s) -> is_space c = false.
Proof.
  unfold remove_whitespace. rewrite filter_In. intros [_ H].
  now apply negb_true_iff.
Qed.

Lemma trim_start_no_space s :
  (forall c, In c s -> is_space c = false) -> trim_start s = s.
Proof.
  destruct s as [| c r]; [reflexivity |].
  intros H. simpl. now rewrite (H c (or_introl eq_refl)).
Qed.

(** In a text without whitespace the pattern is the substring ["/0"]. *)
Lemma slash_zero_substring s :
  (exists a b, s = a ++ js "/0" ++ b) -> slash_zero s = true.
Proof.
  intros (a & b & ->). induction a as [| x a IH].
  - reflexivity.
  - change (slash_zero ((x :: a) ++ js "/0" ++ b))
      with (((x =? ch "/")%N
             && starts_with [ch "0"] (trim_start (a ++ js "/0" ++ b)))
            || slash_zero (a ++ js "/0" ++ b)).
    rewrite IH. apply orb_true_r.
Qed.

Lemma slash_zero_inv s :
  (forall c, In c s -> is_space c = false) ->
  slash_zero s = true -> exists a b, s = a ++ js "/0" ++ b.
Proof.
  induction s as [| c r IH]; intros Hs H; [discriminate |].
  cbn [slash_zero] in H. apply orb_true_iff in H. destruct H as [H | H].
  - apply andb_true_iff in H. destruct H as [Hc H0].
    apply N.eqb_eq in Hc. subst c.
    rewrite trim_start_no_space in H0 by (intros d Hd; apply Hs; now right).
    destruct r as [| d r']; [discriminate |].
    change (starts_with [ch "0"] (d :: r'))
      with ((ch "0" =? d)%N && true) in H0.
    rewrite andb_true_r in H0. apply N.eqb_eq in H0. subst d.
    now exists [], r'.
  - destruct IH as (a & b & ->); [intros d Hd; apply Hs; now right | assumption |].
    now exists (c :: a), b.
Qed.

Lemma errors_distinct :
  ERROR_INVALID_EXPRESSION <> ERROR_DIVISION_BY_ZERO
  /\ ERROR_INVALID_EXPRESSION <> ERROR_TOO_COMPLEX
  /\ ERROR_DIVISION_BY_ZERO <> ERROR_TOO_COMPLEX.
Proof. repeat split; discriminate. Qed.

(** [calculate] always returns an outcome. *)
Lemma calculate_total expression : exists o, calculate expression = Some o.
Proof.
  unfold calculate.
  destruct (negb _); [eauto |].
  destruct (100 <? _); [eauto |].
  destruct (slash_zero _); [eauto |].
  destruct (evaluateExpression_total (remove_whitespace expression))
    as [[v ->] | [m ->]]; eauto.
Qed.

(** The outcome once the three checks have passed. *)
Lemma calculate_evaluates expression :
  let s := remove_whitespace expression in
  only_allowed_chars s = true -> length s <= 100 -> slash_zero s = false ->
  calculate expression =
    match evaluateExpression s with
    | Ret result => Some (formatResult result)
    | Throw _ => Some (failure ERROR_INVALID_EXPRESSION)
    | OutOfFuel => None
    end.
Proof.
  intros s H1 H2 H3. unfold calculate. fold s. rewrite H1, H3. simpl.
  destruct (100 <? length s) eqn:E; [| reflexivity].
  apply Nat.ltb_lt in E. lia.
Qed.

(** ** The claims on the checks *)

(** C8: an expression that is empty once its whitespace is removed, or
    that contains a character other than a digit, one of [+ - * /], a
    parenthesis or a point, is answered with the invalid-expression error;
    ["abc"] is one. *)
Theorem C8_invalid_characters :
  (forall expression,
      remove_whitespace expression = []
      \/ (exists c, In c (remove_whitespace expression)
                    /\ ~ In c (js "0123456789+-*/().")) ->
      calculate expression = Some (failure ERROR_INVALID_EXPRESSION))
  /\ calculate (js "abc") = Some (failure ERROR_INVALID_EXPRESSION).
Proof.
  split; [| reflexivity].
  intros expression H. unfold calculate.
  destruct (only_allowed_chars (remove_whitespace expression)) eqn:E;
    [| reflexivity].
  apply only_allowed_chars_spec in E. destruct E as [Hne Hall].
  destruct H as [H | (c & Hin & Hc)]; [contradiction |].
  elim Hc. now apply Hall.
Qed.

Lemma C8_witness :
  calculate (js " a b ") = Some (failure ERROR_INVALID_EXPRESSION)
  /\ calculate (js "   ") = Some (failure ERROR_INVALID_EXPRESSION).
Proof.
  split.
  - apply (proj1 C8_invalid_characters). right. exists (ch "a"). split.
    + vm_compute. auto.
    + vm_compute. intros H.
      repeat (destruct H as [H | H]; [discriminate H |]). exact H.
  - apply (proj1 C8_invalid_characters). left. reflexivity.
Defined.

(** C2, as stated, fails: 101 letters are too long and are answered with
    the invalid-expression error, because the characters are checked
    before the length. *)
Lemma C2_counterexample :
  100 < length (remove_whitespace (repeat (ch "a") 101))
  /\ calculate (repeat (ch "a") 101) = Some (failure ERROR_INVALID_EXPRESSION)
  /\ calculate (repeat (ch "a") 101) <> Some (failure ERROR_TOO_COMPLEX).
Proof.
  split; [vm_compute; lia |]. split; [reflexivity |].
  vm_compute. discriminate.
Qed.

(** C2, amended: an expression whose sanitized form is longer than 100
    characters, all of them allowed characters, is answered with the
    too-complex error, whether or not it is well formed. *)
Theorem C2_too_complex expression :
  (forall c, In c (remove_whitespace expression) ->
             In c (js "0123456789+-*/().")) ->
  100 < length (remove_whitespace expression) ->
  calculate expression = Some (failure ERROR_TOO_COMPLEX).
Proof.
  intros Hall Hlen. unfold calculate.
  assert (E : only_allowed_chars (remove_whitespace expression) = true).
  { apply only_allowed_chars_spec. split; [| assumption].
    intros E. rewrite E in Hlen. simpl in Hlen. lia. }
  rewrite E. simpl. apply Nat.ltb_lt in Hlen. now rewrite Hlen.
Qed.

Lemma C2_witness :
  calculate (repeat (ch "1") 101) = Some (failure ERROR_TOO_COMPLEX)
  /\ calculate (repeat (ch "+") 101) = Some (failure ERROR_TOO_COMPLEX).
Proof.
  split.
  - apply (C2_too_complex (repeat (ch "1") 101)).
    + intros c Hc. apply allowed_char_spec.
      change (remove_whitespace (repeat (ch "1") 101))
        with (repeat (ch "1") 101) in Hc.
      apply repeat_spec in Hc. subst c. reflexivity.
    + vm_compute. lia.
  - apply (C2_too_complex (repeat (ch "+") 101)).
    + intros c Hc. apply allowed_char_spec.
      change (remove_whitespace (repeat (ch "+") 101))
        with (repeat (ch "+") 101) in Hc.
      apply repeat_spec in Hc. subst c. reflexivity.
    + vm_compute. lia.
Defined.

(** C3: when the characters and the length pass and the sanitized text
    contains a slash directly followed by the digit 0, the answer is the
    division-by-zero error, whatever the evaluator would do; so for
    ["5 / 0"] and also for ["7/0.0001"]. *)
Theorem C3_division_by_zero_pattern :
  (forall expression a b,
      remove_whitespace expression = a ++ js "/0" ++ b ->
      (forall c, In c (remove_whitespace expression) ->
                 In c (js "0123456789+-*/().")) ->
      length (remove_whitespace expression) <= 100 ->
      calculate expression = Some (failure ERROR_DIVISION_BY_ZERO))
  /\ calculate (js "5 / 0") = Some (failure ERROR_DIVISION_BY_ZERO)
  /\ calculate (js "7/0.0001") = Some (failure ERROR_DIVISION_BY_ZERO).
Proof.
  split; [| split; reflexivity].
  intros expression a b Hs Hall Hlen. unfold calculate.
  assert (E : only_allowed_chars (remove_whitespace expression) = true).
  { apply only_allowed_chars_spec. split; [| assumption].
    rewrite Hs. now destruct a. }
  rewrite E. simpl.
  destruct (100 <? _) eqn:E'; [apply Nat.ltb_lt in E'; lia |].
  rewrite slash_zero_substring; [reflexivity |]. now exists a, b.
Qed.

Lemma C3_witness :
  calculate (js "(1 + 2) /0.5") = Some (failure ERROR_DIVISION_BY_ZERO).
Proof.
  apply (proj1 C3_division_by_zero_pattern (js "(1 + 2) /0.5") (js "(1+2)") (js ".5")).
  - reflexivity.
  - intros c Hc. apply allowed_char_spec.
    vm_compute in Hc.
    repeat (destruct Hc as [<- | Hc]; [reflexivity |]). contradiction.
  - vm_compute. lia.
Defined.

(** ** The claims on the outcome and on the exceptions *)

Lemma formatResult_one_field v :
  (result (formatResult v) <> None /\ error (formatResult v) = None)
  \/ (result (formatResult v) = None /\ error (formatResult v) <> None).
Proof.
  unfold formatResult. destruct (isFinite v); simpl.
  - left. split; [discriminate | reflexivity].
  - right. split; [reflexivity | discriminate].
Qed.

(** C9: every call returns an outcome, and in it exactly one of [result]
    and [error] is not null. *)
Theorem C9_exactly_one_field expression :
  exists o, calculate expression = Some o
            /\ ((result o <> None /\ error o = None)
                \/ (result o = None /\ error o <> None)).
Proof.
  destruct (calculate_total expression) as [o Ho]. exists o. split; [assumption |].
  unfold calculate in Ho.
  assert (Hf : forall m, result (failure m) = None /\ error (failure m) <> None)
    by (intros m; split; [reflexivity | discriminate]).
  destruct (negb _); [injection Ho as <-; right; apply Hf |].
  destruct (100 <? _); [injection Ho as <-; right; apply Hf |].
  destruct (slash_zero _); [injection Ho as <-; right; apply Hf |].
  destruct (evaluateExpression _) as [v | m |].
  - injection Ho as <-. apply formatResult_one_field.
  - injection Ho as <-. right. apply Hf.
  - discriminate.
Qed.

(** C4: no exception leaves [calculate]: every call returns an outcome,
    and whenever the evaluator throws (a malformed expression, a divisor
    equal to 0, characters left over) that outcome is the
    invalid-expression error.  ["(1-1)*5/(3-3)"] passes the textual
    check, throws ["Division by zero"] in the evaluator and is answered
    with the invalid-expression error, not the division-by-zero one. *)
Theorem C4_exceptions_caught :
  (forall expression, exists o, calculate expression = Some o)
  /\ (forall expression message,
         only_allowed_chars (remove_whitespace expression) = true ->
         length (remove_whitespace expression) <= 100 ->
         slash_zero (remove_whitespace expression) = false ->
         evaluateExpression (remove_whitespace expression) = Throw message ->
         calculate expression = Some (failure ERROR_INVALID_EXPRESSION))
  /\ slash_zero (js "(1-1)*5/(3-3)") = false
  /\ evaluateExpression (js "(1-1)*5/(3-3)") = Throw "Division by zero"
  /\ calculate (js "(1-1)*5/(3-3)") = Some (failure ERROR_INVALID_EXPRESSION)
  /\ failure ERROR_INVALID_EXPRESSION <> failure ERROR_DIVISION_BY_ZERO.
Proof.
  split; [exact calculate_total |]. split.
  - intros expression message H1 H2 H3 H4.
    rewrite calculate_evaluates by assumption. now rewrite H4.
  - repeat split; try reflexivity. discriminate.
Qed.

Lemma C4_witness :
  calculate (js "2 + ") = Some (failure ERROR_INVALID_EXPRESSION).
Proof.
  apply (proj1 (proj2 C4_exceptions_caught) (js "2 + ") "Expected a number"%string);
    reflexivity || (vm_compute; lia).
Defined.

Lemma parseExpression_at_enough_fuel expression fuel r :
  parseExpression expression fuel 0 = r -> r <> OutOfFuel ->
  parseExpression expression (enough_fuel expression) 0 = r.
Proof.
  intros H Hr.
  destruct (Nat.le_ge_cases fuel (enough_fuel expression)) as [Hle | Hle].
  - now apply parseExpression_mono with fuel.
  - pose proof (parseExpression_enough expression) as He.
    rewrite <- H. symmetry.
    apply parseExpression_mono with (enough_fuel expression); [reflexivity | | assumption].
    intros E. rewrite E in He. exact He.
Qed.

(** C7: when the top-level [parseExpression] returns with the cursor
    before the end of the sanitized text, [evaluateExpression] throws
    ["Unexpected character"] and the caller sees the invalid-expression
    error. *)
Theorem C7_trailing_characters expression fuel value pos :
  only_allowed_chars (remove_whitespace expression) = true ->
  length (remove_whitespace expression) <= 100 ->
  slash_zero (remove_whitespace expression) = false ->
  parseExpression (remove_whitespace expression) fuel 0 = Ret (value, pos) ->
  pos < length (remove_whitespace expression) ->
  evaluateExpression (remove_whitespace expression) = Throw "Unexpected character"
  /\ calculate expression = Some (failure ERROR_INVALID_EXPRESSION).
Proof.
  intros H1 H2 H3 H4 H5.
  assert (E : evaluateExpression (remove_whitespace expression)
              = Throw "Unexpected character").
  { unfold evaluateExpression.
    rewrite (parseExpression_at_enough_fuel _ _ H4) by discriminate.
    simpl. destruct (pos =? _) eqn:E; [| reflexivity].
    apply Nat.eqb_eq in E. lia. }
  split; [assumption |].
  rewrite calculate_evaluates by assumption. now rewrite E.
Qed.

Lemma C7_witness :
  evaluateExpression (js "1+2)") = Throw "Unexpected character"
  /\ calculate (js "1 + 2 )") = Some (failure ERROR_INVALID_EXPRESSION).
Proof.
  apply (@C7_trailing_characters (js "1 + 2 )") 5 (of_Z 3) 3);
    reflexivity || (vm_compute; lia).
Defined.

(** ** The factor rule *)

Section Factor.

Variable expression : jsstring.

Lemma number_char_lt pos :
  number_char expression pos = true -> pos < length expression.
Proof.
  unfold number_char. destruct (nth_error expression pos) eqn:E; [| discriminate].
  intros _. apply nth_error_Some. congruence.
Qed.

(** The loop stops at the first character that is not of a number. *)
Lemma scan_number_spec n pos :
  length expression - pos <= n ->
  let stop := scan_number expression n pos in
  pos <= stop
  /\ (forall i, pos <= i < stop -> number_char expression i = true)
  /\ number_char expression stop = false.
Proof.
  revert pos. induction n as [| n IH]; intros pos Hn; simpl.
  - split; [lia |]. split; [intros i Hi; lia |].
    destruct (number_char expression pos) eqn:E; [| reflexivity].
    apply number_char_lt in E. lia.
  - destruct (pos <? length expression) eqn:E; simpl.
    + destruct (number_char expression pos) eqn:E'.
      * destruct (IH (S pos)) as (H1 & H2 & H3); [lia |].
        split; [lia |]. split; [| assumption].
        intros i Hi. destruct (Nat.eq_dec i pos) as [-> | Hne]; [assumption |].
        apply H2. lia.
      * split; [lia |]. split; [intros i Hi; lia | assumption].
    + apply Nat.ltb_ge in E.
      split; [lia |]. split; [intros i Hi; lia |].
      destruct (number_char expression pos) eqn:E'; [| reflexivity].
      apply number_char_lt in E'. lia.
Qed.

Lemma parseFactor_number fuel pos :
  char_is expression pos "(" = false ->
  exists stop,
    pos <= stop
    /\ (forall i, pos <= i < stop -> number_char expression i = true)
    /\ number_char expression stop = false
    /\ parseFactor expression (S fuel) pos =
         if pos =? stop then Throw "Expected a number"
         else Ret (parseFloat (substring expression pos stop), stop).
Proof.
  intros Hp. exists (scan_number expression (length expression - pos) pos).
  destruct (@scan_number_spec (length expression - pos) pos (le_n _))
    as (H1 & H2 & H3).
  repeat split; try assumption.
  simpl. now rewrite Hp.
Qed.

End Factor.

(** C5, as stated, fails: on ["1.2.3"] the factor rule consumes all five
    characters, two decimal points among them, and [parseFloat] reads the
    prefix ["1.2"]; the calculator answers 1.2. *)
Lemma C5_counterexample :
  parseFactor (js "1.2.3") 1 0 = Ret (parseFloat (js "1.2.3"), 5)
  /\ points (substring (js "1.2.3") 0 5) = 2
  /\ ~ points (substring (js "1.2.3") 0 5) <= 1
  /\ parseFloat (js "1.2.3") = parseFloat (js "1.2")
  /\ calculate (js "1.2.3")
     = Some {| result := Some (parseFloat (js "1.2")); error := None |}.
Proof.
  repeat split; try reflexivity. vm_compute. lia.
Qed.

(** C5, amended: at an opening parenthesis the factor rule consumes it,
    evaluates an expression and then requires a closing parenthesis,
    which it consumes, or throws ["Missing closing parenthesis"]; an
    exception of the inner expression goes through.  Otherwise it
    consumes the longest run of digits and decimal points, however many
    points there are, throws ["Expected a number"] when the run is empty
    and else returns [parseFloat] of the run. *)
Theorem C5_factor_rule expression fuel pos :
  (char_is expression pos "(" = true ->
   (forall value pos',
       parseExpression expression fuel (S pos) = Ret (value, pos') ->
       parseFactor expression (S fuel) pos =
         if char_is expression pos' ")" then Ret (value, S pos')
         else Throw "Missing closing parenthesis")
   /\ (forall message,
          parseExpression expression fuel (S pos) = Throw message ->
          parseFactor expression (S fuel) pos = Throw message))
  /\ (char_is expression pos "(" = false ->
      exists stop,
        pos <= stop
        /\ (forall i, pos <= i < stop -> number_char expression i = true)
        /\ number_char expression stop = false
        /\ parseFactor expression (S fuel) pos =
             if pos =? stop then Throw "Expected a number"
             else Ret (parseFloat (substring expression pos stop), stop)).
Proof.
  split.
  - intros Hp. split.
    + intros value pos' H. simpl. rewrite Hp, H. reflexivity.
    + intros message H. simpl. rewrite Hp, H. reflexivity.
  - apply parseFactor_number.
Qed.

Lemma C5_witness :
  parseFactor (js "(1+2)*3") 7 0 = Ret (of_Z 3, 5)
  /\ parseFactor (js "(1+2") 7 0 = Throw "Missing closing parenthesis"
  /\ parseFactor (js "(1+)") 7 0 = Throw "Expected a number"
  /\ exists stop,
      2 <= stop
      /\ (forall i, 2 <= i < stop -> number_char (js "1+2.5*3") i = true)
      /\ number_char (js "1+2.5*3") stop = false
      /\ parseFactor (js "1+2.5*3") 1 2 =
           if 2 =? stop then Throw "Expected a number"
           else Ret (parseFloat (substring (js "1+2.5*3") 2 stop), stop).
Proof.
  split; [| split; [| split]].
  - apply (proj1 (proj1 (@C5_factor_rule (js "(1+2)*3") 6 0) eq_refl) (of_Z 3) 4).
    reflexivity.
  - apply (proj1 (proj1 (@C5_factor_rule (js "(1+2") 6 0) eq_refl) (of_Z 3) 4).
    reflexivity.
  - apply (proj2 (proj1 (@C5_factor_rule (js "(1+)") 6 0) eq_refl)).
    reflexivity.
  - apply (proj2 (@C5_factor_rule (js "1+2.5*3") 0 2)). reflexivity.
Defined.

(** ** A leading operator *)

Lemma operator_first_char c rest :
  In c (js "+-*/") ->
  char_is (c :: rest) 0 "(" = false /\ number_char (c :: rest) 0 = false.
Proof.
  intros Hc. unfold char_is, number_char. simpl nth_error.
  cbn [js list_ascii_of_string map In] in Hc.
  destruct Hc as [<- | [<- | [<- | [<- | []]]]]; split; reflexivity.
Qed.

Lemma evaluateExpression_operator_first c rest :
  In c (js "+-*/") ->
  evaluateExpression (c :: rest) = Throw "Expected a number".
Proof.
  intros Hc.
  destruct (@operator_first_char c rest Hc) as [H1 H2].
  unfold evaluateExpression, enough_fuel.
  replace (3 * length (c :: rest) + 3) with (S (S (S (3 * length (c :: rest)))))
    by lia.
  cbn [parseExpression parseTerm parseFactor].
  rewrite H1.
  replace (length (c :: rest) - 0) with (S (length rest)) by (simpl; lia).
  cbn [scan_number]. rewrite H2, andb_false_r. reflexivity.
Qed.

(** C10, as stated, fails: ["-5/0"] begins with an operator and is
    answered with the division-by-zero error of the textual check, which
    runs before the evaluator. *)
Lemma C10_counterexample :
  (exists rest, remove_whitespace (js "-5/0") = ch "-" :: rest)
  /\ calculate (js "-5/0") = Some (failure ERROR_DIVISION_BY_ZERO)
  /\ calculate (js "-5/0") <> Some (failure ERROR_INVALID_EXPRESSION).
Proof.
  split; [eexists; reflexivity |]. split; [reflexivity |].
  vm_compute. discriminate.
Qed.

(** C10, amended: an expression whose sanitized form begins with one of
    [+ - * /], is at most 100 characters long and does not contain ["/0"]
    is answered with the invalid-expression error: there is no unary
    plus or minus. *)
Theorem C10_leading_operator expression c rest :
  remove_whitespace expression = c :: rest ->
  In c (js "+-*/") ->
  length (remove_whitespace expression) <= 100 ->
  ~ (exists a b, remove_whitespace expression = a ++ js "/0" ++ b) ->
  calculate expression = Some (failure ERROR_INVALID_EXPRESSION).
Proof.
  intros Hs Hc Hlen Hno.
  destruct (only_allowed_chars (remove_whitespace expression)) eqn:E.
  - assert (Hz : slash_zero (remove_whitespace expression) = false).
    { destruct (slash_zero (remove_whitespace expression)) eqn:Ez; [| reflexivity].
      elim Hno. apply slash_zero_inv; [| assumption].
      intros d. apply remove_whitespace_no_space. }
    rewrite calculate_evaluates by assumption.
    rewrite Hs, evaluateExpression_operator_first by assumption. reflexivity.
  - unfold calculate. now rewrite E.
Qed.

Lemma C10_witness :
  calculate (js "-5") = Some (failure ERROR_INVALID_EXPRESSION)
  /\ calculate (js " + 3") = Some (failure ERROR_INVALID_EXPRESSION).
Proof.
  split.
  - apply (@C10_leading_operator (js "-5") (ch "-") (js "5")).
    + reflexivity.
    + vm_compute. auto.
    + vm_compute. lia.
    + intros (a & b & H).
      destruct a as [| x [| y a]]; try discriminate H.
      destruct a; discriminate H.
  - apply (@C10_leading_operator (js " + 3") (ch "+") (js "3")).
    + reflexivity.
    + vm_compute. auto.
    + vm_compute. lia.
    + intros (a & b & H).
      destruct a as [| x [| y a]]; try discriminate H.
      destruct a; discriminate H.
Defined.

(** ** Rounding to six decimals: [parseFloat] after [toFixed(6)] *)

Lemma digits_value_snoc ds c :
  digits_value (ds ++ [c]) = (10 * digits_value ds + digit_value c)%Z.
Proof. unfold digits_value. now rewrite fold_left_app. Qed.

Lemma digits_value_zeros k ds :
  digits_value (repeat (ch "0") k ++ ds) = digits_value ds.
Proof.
  unfold digits_value. rewrite fold_left_app. f_equal.
  induction k as [| k IH]; [reflexivity | exact IH].
Qed.

Lemma digits_of_pos_spec fuel n acc :
  (0 <= n < 2 ^ Z.of_nat fuel)%Z -> 0 < fuel ->
  exists ds,
    digits_of_pos fuel n acc = ds ++ acc
    /\ ds <> [] /\ forallb is_digit ds = true /\ digits_value ds = n.
Proof.
  revert n acc. induction fuel as [| fuel IH]; intros n acc Hn Hf; [lia |].
  simpl digits_of_pos.
  assert (Hmod : (0 <= n mod 10 < 10)%Z) by (apply Z.mod_pos_bound; lia).
  destruct (n <? 10)%Z eqn:E.
  - apply Z.ltb_lt in E. exists [(Z.to_N (n mod 10) + 48)%N].
    rewrite Z.mod_small by lia.
    repeat split; try discriminate.
    + unfold is_digit. simpl. rewrite andb_true_r.
      apply andb_true_iff. split; apply N.leb_le; lia.
    + unfold digits_value, digit_value. simpl. lia.
  - apply Z.ltb_ge in E.
    assert (Hdiv : (1 <= n / 10)%Z) by (apply Z.div_le_lower_bound; lia).
    assert (Hup : (n / 10 < 2 ^ Z.of_nat fuel)%Z).
    { apply Z.div_lt_upper_bound; [lia |].
      rewrite Nat2Z.inj_succ, Z.pow_succ_r in Hn by lia. lia. }
    assert (Hfuel : 0 < fuel).
    { destruct fuel; [simpl in Hup; lia | lia]. }
    destruct (IH (n / 10)%Z ((Z.to_N (n mod 10) + 48)%N :: acc))
      as (ds & H1 & H2 & H3 & H4); [lia | assumption |].
    exists (ds ++ [(Z.to_N (n mod 10) + 48)%N]).
    rewrite H1, <- app_assoc. repeat split.
    + now destruct ds.
    + rewrite forallb_app, H3. simpl. rewrite andb_true_r.
      unfold is_digit. apply andb_true_iff. split; apply N.leb_le; lia.
    + rewrite digits_value_snoc, H4. unfold digit_value.
      pose proof (Z.div_mod n 10). lia.
Qed.

Lemma digits_of_spec n :
  (0 <= n)%Z ->
  digits_of n <> [] /\ forallb is_digit (digits_of n) = true
  /\ digits_value (digits_of n) = n.
Proof.
  intros Hn. unfold digits_of.
  destruct (@digits_of_pos_spec (S (Z.to_nat (Z.log2 n))) n [])
    as (ds & H1 & H2 & H3 & H4); [| lia |].
  - rewrite Nat2Z.inj_succ, Z2Nat.id by apply Z.log2_nonneg.
    destruct (Z.eq_dec n 0) as [-> | Hne]; [simpl; lia |].
    pose proof (Z.log2_spec n). lia.
  - rewrite H1, app_nil_r. auto.
Qed.

(** The shape of [fixed6]: digits, a point, six digits. *)
Lemma fixed6_spec n :
  (0 <= n)%Z ->
  exists a b,
    fixed6 n = a ++ ch "." :: b
    /\ a <> [] /\ forallb is_digit a = true /\ forallb is_digit b = true
    /\ length b = 6 /\ digits_value (a ++ b) = n.
Proof.
  intros Hn. destruct (digits_of_spec Hn) as (H1 & H2 & H3).
  unfold fixed6.
  set (m := repeat (ch "0") (7 - length (digits_of n)) ++ digits_of n).
  assert (Hlen : 7 <= length m).
  { unfold m. rewrite length_app, repeat_length. lia. }
  assert (Hdig : forallb is_digit m = true).
  { unfold m. rewrite forallb_app, H2, andb_true_r.
    apply forallb_forall. intros c Hc. apply repeat_spec in Hc. now subst c. }
  exists (firstn (length m - 6) m), (skipn (length m - 6) m).
  rewrite <- (firstn_skipn (length m - 6) m), forallb_app in Hdig.
  apply andb_true_iff in Hdig. destruct Hdig as [Ha Hb].
  repeat split; try assumption.
  - intros E. apply (f_equal (@length N)) in E.
    rewrite length_firstn in E. simpl in E. lia.
  - rewrite length_skipn. lia.
  - rewrite firstn_skipn. unfold m. now rewrite digits_value_zeros.
Qed.

Lemma span_digits a r :
  forallb is_digit a = true ->
  match r with [] => True | c :: _ => is_digit c = false end ->
  span is_digit (a ++ r) = (a, r).
Proof.
  intros Ha Hr. induction a as [| d a IH]; simpl in *.
  - destruct r as [| c r]; [reflexivity |]. simpl. now rewrite Hr.
  - apply andb_true_iff in Ha. destruct Ha as [Hd Ha].
    rewrite Hd, IH by assumption. reflexivity.
Qed.

Lemma is_digit_range d : is_digit d = true -> (48 <= d <= 57)%N.
Proof.
  unfold is_digit. intros H. apply andb_true_iff in H.
  destruct H as [H1 H2]. apply N.leb_le in H1, H2. lia.
Qed.

Lemma is_digit_not c d : is_digit d = true -> (c < 48 \/ 57 < c)%N -> (d =? c)%N = false.
Proof.
  intros Hd Hc. apply is_digit_range in Hd. apply N.eqb_neq. lia.
Qed.

Lemma is_space_digit d : is_digit d = true -> is_space d = false.
Proof.
  intros Hd. apply is_digit_range in Hd.
  destruct (is_space d) eqn:E; [| reflexivity].
  unfold is_space in E.
  repeat rewrite orb_true_iff in E. repeat rewrite andb_true_iff in E.
  repeat rewrite N.leb_le in E. repeat rewrite N.eqb_eq in E. lia.
Qed.

Lemma unsigned_literal_fixed s a b :
  a <> [] -> forallb is_digit a = true -> forallb is_digit b = true ->
  unsigned_literal s (a ++ ch "." :: b)
  = decimal s (digits_value (a ++ b)) (- Z.of_nat (length b)).
Proof.
  intros Hne Ha Hb. unfold unsigned_literal.
  destruct a as [| d a]; [now elim Hne |].
  assert (Hd : is_digit d = true) by (simpl in Ha; now apply andb_true_iff in Ha).
  replace (starts_with (js "Infinity") ((d :: a) ++ ch "." :: b)) with false.
  2:{ symmetry. change (js "Infinity") with (ch "I" :: js "nfinity").
      simpl app. cbn [starts_with].
      rewrite N.eqb_sym, (is_digit_not _ Hd); [reflexivity |].
      change (ch "I") with 73%N. lia. }
  rewrite span_digits by (assumption || reflexivity).
  rewrite N.eqb_refl.
  rewrite <- (app_nil_r b) at 1. rewrite span_digits by (assumption || exact I).
  replace (exponent_part [] - Z.of_nat (length b))%Z
    with (- Z.of_nat (length b))%Z by (simpl; lia).
  now destruct b.
Qed.

Lemma parseFloat_fixed6 n :
  (0 <= n)%Z ->
  parseFloat (fixed6 n) = round_ratio false n (10 ^ 6)
  /\ parseFloat (ch "-" :: fixed6 n) = round_ratio true n (10 ^ 6).
Proof.
  intros Hn. destruct (fixed6_spec Hn) as (a & b & -> & Hne & Ha & Hb & Hlen & Hv).
  pose proof (@unsigned_literal_fixed false a b Hne Ha Hb) as Hp.
  pose proof (@unsigned_literal_fixed true a b Hne Ha Hb) as Hm.
  rewrite Hlen, Hv in Hp, Hm. change (decimal false n (- Z.of_nat 6))
    with (round_ratio false n (10 ^ 6)) in Hp.
  change (decimal true n (- Z.of_nat 6)) with (round_ratio true n (10 ^ 6)) in Hm.
  split.
  - rewrite <- Hp. destruct a as [| d a]; [now elim Hne |].
    assert (Hd : is_digit d = true) by (simpl in Ha; now apply andb_true_iff in Ha).
    unfold parseFloat. simpl app. cbn [trim_start].
    rewrite (@is_space_digit d Hd). apply is_digit_range in Hd.
    replace (d =? ch "-")%N with false
      by (symmetry; apply N.eqb_neq; change (ch "-") with 45%N; lia).
    replace (d =? ch "+")%N with false
      by (symmetry; apply N.eqb_neq; change (ch "+") with 43%N; lia).
    reflexivity.
  - rewrite <- Hm. reflexivity.
Qed.

(** [scaled6 m e] is the integer nearest to [m * 2 ^ e * 10 ^ 6], and the
    larger one when two integers are as near. *)
Lemma scaled6_nearest m e :
  (e < 0)%Z ->
  let n := scaled6 m e in
  (0 <= n
   /\ (2 * n - 1) * 2 ^ (- e) <= 2 * (Zpos m * 10 ^ 6)
      < (2 * n + 1) * 2 ^ (- e))%Z.
Proof.
  intros He. unfold scaled6.
  destruct (0 <=? e)%Z eqn:E; [apply Z.leb_le in E; lia |].
  set (k := (- e)%Z). assert (Hk : (0 < 2 ^ k)%Z) by (apply Z.pow_pos_nonneg; lia).
  replace (2 ^ (k + 1))%Z with (2 * 2 ^ k)%Z by (rewrite Z.pow_add_r; lia).
  set (x := (2 * (Zpos m * 10 ^ 6) + 2 ^ k)%Z).
  assert (Hx : (0 <= x)%Z) by (unfold x; lia).
  pose proof (Z.div_mod x (2 * 2 ^ k)) as Hdm.
  pose proof (Z.mod_pos_bound x (2 * 2 ^ k)) as Hmod.
  assert (Hq : (0 <= x / (2 * 2 ^ k))%Z) by (apply Z.div_pos; lia).
  cbv zeta. split; [assumption |]. unfold x in *. nia.
Qed.

Lemma signed_opp s m z :
  signed s m = z -> Zpos m = (if s then - z else z)%Z.
Proof. intros <-. now destruct s. Qed.

(** [Number.isInteger] on a finite number: its value is an integer. *)
Lemma isInteger_spec x :
  isFinite x = true ->
  (isInteger x = true <-> exists z, (to_Q x == inject_Z z)%Q).
Proof.
  destruct x as [s | s | | s m e]; try discriminate; intros _.
  - split; [intros _; now exists 0%Z | reflexivity].
  - unfold isInteger, to_Q. destruct e as [| k | k].
    + split; [intros _; eexists; reflexivity | reflexivity].
    + split; [intros _; eexists; reflexivity | reflexivity].
    + change (0 <=? Z.neg k)%Z with false. change (- Z.neg k)%Z with (Zpos k).
      assert (Hpow : (0 < 2 ^ Zpos k)%Z) by (apply Z.pow_pos_nonneg; lia).
      rewrite Z.eqb_eq. unfold Qeq. simpl Qnum. simpl Qden.
      rewrite Pos2Z.inj_pow. split.
      * intros H. apply Z.div_exact in H; [| lia].
        exists (signed s (Z.to_pos (Zpos m / 2 ^ Zpos k))).
        assert (Hq : (0 < Zpos m / 2 ^ Zpos k)%Z) by nia.
        destruct s; unfold signed.
        -- change (Zneg m) with (- Zpos m)%Z.
           change (Zneg (Z.to_pos (Zpos m / 2 ^ Zpos k)))
             with (- Zpos (Z.to_pos (Zpos m / 2 ^ Zpos k)))%Z.
           rewrite Z2Pos.id by assumption. lia.
        -- rewrite Z2Pos.id by assumption. lia.
      * intros [z Hz]. rewrite Z.mul_1_r in Hz. apply signed_opp in Hz.
        rewrite Hz. destruct s.
        -- rewrite <- Z.mul_opp_l. apply Z.mod_mul. lia.
        -- apply Z.mod_mul. lia.
Qed.

(** C6: once the checks have passed and the evaluator has returned a
    value: a value that is not finite (an infinity or NaN) is answered
    with the invalid-expression error; a finite value that is an integer
    is returned as it is; any other finite value [m * 2 ^ e] is replaced
    by the number nearest to [n / 10 ^ 6], where [n] is the integer
    nearest to [m * 2 ^ e * 10 ^ 6].  So ["0.1 + 0.2"], whose sum is the
    number 0.30000000000000004, is answered with the number 0.3, and
    ["."], which evaluates to NaN, with the error. *)
Theorem C6_result_format :
  (forall expression value,
      only_allowed_chars (remove_whitespace expression) = true ->
      length (remove_whitespace expression) <= 100 ->
      slash_zero (remove_whitespace expression) = false ->
      evaluateExpression (remove_whitespace expression) = Ret value ->
      (isFinite value = false ->
       calculate expression = Some (failure ERROR_INVALID_EXPRESSION))
      /\ (isFinite value = true ->
          (exists z, (to_Q value == inject_Z z)%Q) ->
          calculate expression = Some {| result := Some value; error := None |})
      /\ (isFinite value = true ->
          ~ (exists z, (to_Q value == inject_Z z)%Q) ->
          exists s m e n,
            value = S754_finite s m e
            /\ (0 <= n
                /\ (2 * n - 1) * 2 ^ (- e) <= 2 * (Zpos m * 10 ^ 6)
                   < (2 * n + 1) * 2 ^ (- e))%Z
            /\ calculate expression
               = Some {| result := Some (round_ratio s n (10 ^ 6));
                         error := None |}))
  /\ add (parseFloat (js "0.1")) (parseFloat (js "0.2"))
     = parseFloat (js "0.30000000000000004")
  /\ parseFloat (js "0.30000000000000004") <> parseFloat (js "0.3")
  /\ calculate (js "0.1 + 0.2")
     = Some {| result := Some (parseFloat (js "0.3")); error := None |}
  /\ evaluateExpression (js ".") = Ret NaN
  /\ calculate (js ".") = Some (failure ERROR_INVALID_EXPRESSION).
Proof.
  split; [| repeat split; try reflexivity; vm_compute; discriminate].
  intros expression value H1 H2 H3 H4.
  rewrite calculate_evaluates by assumption. rewrite H4.
  unfold formatResult. repeat split.
  - now intros ->.
  - intros Hf Hi. apply (isInteger_spec _ Hf) in Hi. now rewrite Hf, Hi.
  - intros Hf Hi.
    assert (Hn : isInteger value = false).
    { destruct (isInteger value) eqn:E; [| reflexivity].
      elim Hi. now apply (isInteger_spec _ Hf). }
    rewrite Hf, Hn. clear Hi.
    destruct value as [s | s | | s m e]; try discriminate.
    assert (He : (e < 0)%Z).
    { simpl in Hn. destruct (0 <=? e)%Z eqn:E; [discriminate |].
      now apply Z.leb_gt in E. }
    destruct (scaled6_nearest m He) as [H0 Hb].
    exists s, m, e, (scaled6 m e). split; [reflexivity |].
    split; [split; assumption |].
    destruct (parseFloat_fixed6 H0) as [Hp Hm].
    destruct s; unfold toFixed6; [rewrite Hm | rewrite Hp]; reflexivity.
Qed.

Lemma C6_witness :
  calculate (js "7 * 6") = Some {| result := Some (of_Z 42); error := None |}
  /\ calculate (js "1/(.)") = Some (failure ERROR_INVALID_EXPRESSION).
Proof.
  split.
  - apply (proj1 C6_result_format (js "7 * 6") (of_Z 42));
      try reflexivity; try (vm_compute; lia).
    exists 42%Z. reflexivity.
  - apply (proj1 C6_result_format (js "1/(.)") NaN);
      reflexivity || (vm_compute; lia).
Defined.

Section AtCursor.

Variables (pre rest : jsstring).

Lemma char_is_at c a :
  char_is (pre ++ c :: rest) (length pre) a = (c =? ch a)%N.
Proof.
  unfold char_is. rewrite nth_error_app2, Nat.sub_diag by lia. reflexivity.
Qed.

Lemma number_char_at c :
  number_char (pre ++ c :: rest) (length pre) = of_number c.
Proof.
  unfold number_char. rewrite nth_error_app2, Nat.sub_diag by lia. reflexivity.
Qed.

Lemma cursor_lt c : (length pre <? length (pre ++ c :: rest)) = true.
Proof. apply Nat.ltb_lt. rewrite length_app. simpl. lia. Qed.

End AtCursor.

Lemma char_is_end s a : char_is s (length s) a = false.
Proof.
  unfold char_is. now rewrite (proj2 (nth_error_None s (length s)) (le_n _)).
Qed.

Lemma number_char_end s : number_char s (length s) = false.
Proof.
  unfold number_char. now rewrite (proj2 (nth_error_None s (length s)) (le_n _)).
Qed.

Lemma number_literal_chars l c :
  number_literal l -> In c l -> of_number c = true.
Proof.
  intros [_ H] Hc. specialize (H c Hc).
  cbn [js list_ascii_of_string map In] in H. unfold of_number.
  repeat (destruct H as [<- | H]; [reflexivity |]). contradiction.
Qed.

(** The factor rule on a number literal. *)
Lemma parseFactor_literal pre l rest fuel :
  number_literal l -> follows of_number rest ->
  parseFactor (pre ++ l ++ rest) (S fuel) (length pre)
  = Ret (parseFloat l, length pre + length l).
Proof.
  intros Hl Hrest. pose proof Hl as [Hne _].
  set (s := pre ++ l ++ rest).
  assert (Hin : forall i, i < length l ->
                          number_char s (length pre + i) = true).
  { intros i Hi. unfold number_char, s.
    rewrite nth_error_app2 by lia.
    replace (length pre + i - length pre) with i by lia.
    rewrite nth_error_app1 by assumption.
    destruct (nth_error l i) eqn:E; [| apply nth_error_None in E; lia].
    apply nth_error_In in E. exact (@number_literal_chars l n Hl E). }
  assert (Hout : number_char s (length pre + length l) = false).
  { unfold s. rewrite app_assoc, <- length_app.
    destruct rest as [| c rest'].
    - rewrite app_nil_r. apply number_char_end.
    - rewrite number_char_at. exact Hrest. }
  assert (Hparen : char_is s (length pre) "(" = false).
  { destruct l as [| c l']; [now elim Hne |].
    unfold s. simpl app. rewrite char_is_at.
    assert (Hc : of_number c = true)
      by (apply (@number_literal_chars (c :: l') c Hl); now left).
    unfold of_number in Hc. apply orb_true_iff in Hc.
    destruct Hc as [Hc | Hc].
    - apply (is_digit_not _ Hc). change (ch "(") with 40%N. lia.
    - apply N.eqb_eq in Hc. now subst c. }
  destruct (@parseFactor_number s fuel (length pre) Hparen)
    as (stop & H1 & H2 & H3 & ->).
  assert (Hstop : stop = length pre + length l).
  { destruct (Nat.lt_trichotomy stop (length pre + length l)) as [H | [H | H]].
    - assert (H' : number_char s (length pre + (stop - length pre)) = true)
        by (apply Hin; lia).
      replace (length pre + (stop - length pre)) with stop in H' by lia.
      congruence.
    - assumption.
    - rewrite H2 in Hout by lia. discriminate. }
  subst stop.
  destruct (length pre =? length pre + length l) eqn:E.
  - apply Nat.eqb_eq in E. destruct l; [now elim Hne | simpl in E; lia].
  - f_equal. f_equal. f_equal. unfold substring, s.
    rewrite skipn_app, skipn_all, Nat.sub_diag. simpl.
    replace (length pre + length l - length pre) with (length l) by lia.
    rewrite firstn_app, firstn_all, Nat.sub_diag. simpl. apply app_nil_r.
Qed.

(** ** One step of each rule, for some fuel *)

Section Steps.

Variable s : jsstring.

Lemma parseExpression_start f1 f2 v pos pos' r :
  parseTerm s f2 pos = Ret (v, pos') ->
  parseExpression_loop s f1 v pos' = r -> r <> OutOfFuel ->
  exists fuel, parseExpression s fuel pos = r.
Proof.
  intros Ht Hl Hr. exists (S (Nat.max f1 f2)). simpl.
  rewrite (parseTerm_mono _ _ Ht) by (discriminate || lia). simpl.
  apply (parseExpression_loop_mono _ _ _ Hl); [assumption | lia].
Qed.

Lemma parseTerm_start f1 f2 v pos pos' r :
  parseFactor s f2 pos = Ret (v, pos') ->
  parseTerm_loop s f1 v pos' = r -> r <> OutOfFuel ->
  exists fuel, parseTerm s fuel pos = r.
Proof.
  intros Hf Hl Hr. exists (S (Nat.max f1 f2)). simpl.
  rewrite (parseFactor_mono _ _ Hf) by (discriminate || lia). simpl.
  apply (parseTerm_loop_mono _ _ _ Hl); [assumption | lia].
Qed.

Lemma parseExpression_loop_add f1 f2 v w pos pos' r :
  pos < length s -> char_is s pos "+" = true ->
  parseTerm s f2 (S pos) = Ret (w, pos') ->
  parseExpression_loop s f1 (add v w) pos' = r -> r <> OutOfFuel ->
  exists fuel, parseExpression_loop s fuel v pos = r.
Proof.
  intros Hp Hc Ht Hl Hr. exists (S (Nat.max f1 f2)). simpl.
  apply Nat.ltb_lt in Hp. rewrite Hp, Hc.
  rewrite (parseTerm_mono _ _ Ht) by (discriminate || lia). simpl.
  apply (parseExpression_loop_mono _ _ _ Hl); [assumption | lia].
Qed.

Lemma parseExpression_loop_sub f1 f2 v w pos pos' r :
  pos < length s -> char_is s pos "+" = false -> char_is s pos "-" = true ->
  parseTerm s f2 (S pos) = Ret (w, pos') ->
  parseExpression_loop s f1 (sub v w) pos' = r -> r <> OutOfFuel ->
  exists fuel, parseExpression_loop s fuel v pos = r.
Proof.
  intros Hp Hc Hc' Ht Hl Hr. exists (S (Nat.max f1 f2)). simpl.
  apply Nat.ltb_lt in Hp. rewrite Hp, Hc, Hc'.
  rewrite (parseTerm_mono _ _ Ht) by (discriminate || lia). simpl.
  apply (parseExpression_loop_mono _ _ _ Hl); [assumption | lia].
Qed.

Lemma parseTerm_loop_mul f1 f2 v w pos pos' r :
  pos < length s -> char_is s pos "*" = true ->
  parseFactor s f2 (S pos) = Ret (w, pos') ->
  parseTerm_loop s f1 (mul v w) pos' = r -> r <> OutOfFuel ->
  exists fuel, parseTerm_loop s fuel v pos = r.
Proof.
  intros Hp Hc Hf Hl Hr. exists (S (Nat.max f1 f2)). simpl.
  apply Nat.ltb_lt in Hp. rewrite Hp, Hc.
  rewrite (parseFactor_mono _ _ Hf) by (discriminate || lia). simpl.
  apply (parseTerm_loop_mono _ _ _ Hl); [assumption | lia].
Qed.

Lemma parseTerm_loop_div f1 f2 v w pos pos' r :
  pos < length s -> char_is s pos "*" = false -> char_is s pos "/" = true ->
  parseFactor s f2 (S pos) = Ret (w, pos') ->
  strict_eq w zero = false ->
  parseTerm_loop s f1 (div v w) pos' = r -> r <> OutOfFuel ->
  exists fuel, parseTerm_loop s fuel v pos = r.
Proof.
  intros Hp Hc Hc' Hf Hz Hl Hr. exists (S (Nat.max f1 f2)). simpl.
  apply Nat.ltb_lt in Hp. rewrite Hp, Hc, Hc'.
  rewrite (parseFactor_mono _ _ Hf) by (discriminate || lia). simpl.
  rewrite Hz.
  apply (parseTerm_loop_mono _ _ _ Hl); [assumption | lia].
Qed.

Lemma parseFactor_paren f v pos pos' :
  char_is s pos "(" = true ->
  parseExpression s f (S pos) = Ret (v, pos') ->
  char_is s pos' ")" = true ->
  parseFactor s (S f) pos = Ret (v, S pos').
Proof.
  intros Hc He Hc'. simpl. rewrite Hc, He. simpl. now rewrite Hc'.
Qed.

End Steps.

(** A loop stops where the text of its rule ends. *)

Lemma parseTerm_loop_done pre rest fuel v :
  follows of_term rest ->
  parseTerm_loop (pre ++ rest) (S fuel) v (length pre) = Ret (v, length pre).
Proof.
  intros H. simpl. destruct rest as [| c rest'].
  - rewrite app_nil_r, Nat.ltb_irrefl. reflexivity.
  - rewrite cursor_lt, !char_is_at.
    simpl in H. unfold of_term in H.
    apply orb_false_iff in H. destruct H as [H H2].
    apply orb_false_iff in H. destruct H as [_ H1].
    now rewrite H1, H2.
Qed.

Lemma parseExpression_loop_done pre rest fuel v :
  follows of_expr rest ->
  parseExpression_loop (pre ++ rest) (S fuel) v (length pre) = Ret (v, length pre).
Proof.
  intros H. simpl. destruct rest as [| c rest'].
  - rewrite app_nil_r, Nat.ltb_irrefl. reflexivity.
  - rewrite cursor_lt, !char_is_at.
    simpl in H. unfold of_expr in H.
    apply orb_false_iff in H. destruct H as [H H2].
    apply orb_false_iff in H. destruct H as [_ H1].
    now rewrite H1, H2.
Qed.

Lemma follows_term_number rest : follows of_term rest -> follows of_number rest.
Proof.
  destruct rest as [| c rest']; [trivial |]. simpl. unfold of_term.
  intros H. apply orb_false_iff in H. destruct H as [H _].
  apply orb_false_iff in H. now destruct H.
Qed.

(** ** The evaluator follows the grammar *)

(** A term that is followed by neither [*] nor [/] is parsed whole. *)
Lemma term_parsed_whole t s pre rest :
  term_parsed t ->
  s = pre ++ text_term t ++ rest ->
  well_formed_term t -> follows of_term rest ->
  exists fuel,
    parseTerm s fuel (length pre)
    = Ret (value_term t, length pre + length (text_term t)).
Proof.
  intros IH Hs Hwf Hrest.
  apply (IH s pre rest); try assumption; try discriminate.
  - now apply follows_term_number.
  - exists 1. rewrite Hs, app_assoc, <- length_app.
    now apply parseTerm_loop_done.
Qed.

Lemma grammar_parsed :
  (forall e, expr_parsed e) /\ (forall t, term_parsed t)
  /\ (forall f, factor_parsed f).
Proof.
  apply grammar_ind.
  - (* ETerm *)
    intros t IH s pre rest r Hs Hwf Hrest Hr [f1 H1]. simpl in *.
    destruct (@term_parsed_whole t s pre rest IH Hs Hwf Hrest) as [f2 H2].
    eapply parseExpression_start; eassumption.
  - (* EAdd *)
    intros e IHe t IHt s pre rest r Hs [Hwe Hwt] Hrest Hr [f1 H1].
    cbn [text_expr value_expr] in *.
    assert (Hs1 : s = pre ++ text_expr e ++ (ch "+" :: text_term t ++ rest))
      by (rewrite Hs, <- app_assoc; reflexivity).
    assert (Hs2 : s = (pre ++ text_expr e ++ [ch "+"]) ++ text_term t ++ rest)
      by (rewrite Hs, <- !app_assoc; reflexivity).
    assert (Hs3 : s = (pre ++ text_expr e) ++ ch "+" :: text_term t ++ rest)
      by (rewrite Hs1, app_assoc; reflexivity).
    destruct (@term_parsed_whole t s _ rest IHt Hs2 Hwt Hrest) as [f2 H2].
    apply (IHe s pre _ r Hs1 Hwe); [reflexivity | assumption |].
    rewrite <- length_app.
    apply parseExpression_loop_add
      with (f1 := f1) (f2 := f2) (w := value_term t)
           (pos' := length pre + length (text_expr e ++ ch "+" :: text_term t));
      try assumption.
    + rewrite Hs3. rewrite !length_app. simpl. lia.
    + rewrite Hs3, char_is_at. reflexivity.
    + etransitivity; [| etransitivity; [exact H2 |]].
      * f_equal. cursor_eq.
      * do 2 f_equal. cursor_eq.
  - (* ESub *)
    intros e IHe t IHt s pre rest r Hs [Hwe Hwt] Hrest Hr [f1 H1].
    cbn [text_expr value_expr] in *.
    assert (Hs1 : s = pre ++ text_expr e ++ (ch "-" :: text_term t ++ rest))
      by (rewrite Hs, <- app_assoc; reflexivity).
    assert (Hs2 : s = (pre ++ text_expr e ++ [ch "-"]) ++ text_term t ++ rest)
      by (rewrite Hs, <- !app_assoc; reflexivity).
    assert (Hs3 : s = (pre ++ text_expr e) ++ ch "-" :: text_term t ++ rest)
      by (rewrite Hs1, app_assoc; reflexivity).
    destruct (@term_parsed_whole t s _ rest IHt Hs2 Hwt Hrest) as [f2 H2].
    apply (IHe s pre _ r Hs1 Hwe); [reflexivity | assumption |].
    rewrite <- length_app.
    apply parseExpression_loop_sub
      with (f1 := f1) (f2 := f2) (w := value_term t)
           (pos' := length pre + length (text_expr e ++ ch "-" :: text_term t));
      try assumption.
    + rewrite Hs3. rewrite !length_app. simpl. lia.
    + rewrite Hs3, char_is_at. reflexivity.
    + rewrite Hs3, char_is_at. reflexivity.
    + etransitivity; [| etransitivity; [exact H2 |]].
      * f_equal. cursor_eq.
      * do 2 f_equal. cursor_eq.
  - (* TFactor *)
    intros f IH s pre rest r Hs Hwf Hrest Hr [f1 H1]. simpl in *.
    destruct (IH s pre rest Hs Hwf Hrest) as [f2 H2].
    eapply parseTerm_start; eassumption.
  - (* TMul *)
    intros t IHt f IHf s pre rest r Hs [Hwt Hwf] Hrest Hr [f1 H1].
    cbn [text_term value_term] in *.
    assert (Hs1 : s = pre ++ text_term t ++ (ch "*" :: text_factor f ++ rest))
      by (rewrite Hs, <- app_assoc; reflexivity).
    assert (Hs2 : s = (pre ++ text_term t ++ [ch "*"]) ++ text_factor f ++ rest)
      by (rewrite Hs, <- !app_assoc; reflexivity).
    assert (Hs3 : s = (pre ++ text_term t) ++ ch "*" :: text_factor f ++ rest)
      by (rewrite Hs1, app_assoc; reflexivity).
    destruct (IHf s _ rest Hs2 Hwf Hrest) as [f2 H2].
    apply (IHt s pre _ r Hs1 Hwt); [reflexivity | assumption |].
    rewrite <- length_app.
    apply parseTerm_loop_mul
      with (f1 := f1) (f2 := f2) (w := value_factor f)
           (pos' := length pre + length (text_term t ++ ch "*" :: text_factor f));
      try assumption.
    + rewrite Hs3. rewrite !length_app. simpl. lia.
    + rewrite Hs3, char_is_at. reflexivity.
    + etransitivity; [| etransitivity; [exact H2 |]].
      * f_equal. cursor_eq.
      * do 2 f_equal. cursor_eq.
  - (* TDiv *)
    intros t IHt f IHf s pre rest r Hs (Hwt & Hwf & Hz) Hrest Hr [f1 H1].
    cbn [text_term value_term] in *.
    assert (Hs1 : s = pre ++ text_term t ++ (ch "/" :: text_factor f ++ rest))
      by (rewrite Hs, <- app_assoc; reflexivity).
    assert (Hs2 : s = (pre ++ text_term t ++ [ch "/"]) ++ text_factor f ++ rest)
      by (rewrite Hs, <- !app_assoc; reflexivity).
    assert (Hs3 : s = (pre ++ text_term t) ++ ch "/" :: text_factor f ++ rest)
      by (rewrite Hs1, app_assoc; reflexivity).
    destruct (IHf s _ rest Hs2 Hwf Hrest) as [f2 H2].
    apply (IHt s pre _ r Hs1 Hwt); [reflexivity | assumption |].
    rewrite <- length_app.
    apply parseTerm_loop_div
      with (f1 := f1) (f2 := f2) (w := value_factor f)
           (pos' := length pre + length (text_term t ++ ch "/" :: text_factor f));
      try assumption.
    + rewrite Hs3. rewrite !length_app. simpl. lia.
    + rewrite Hs3, char_is_at. reflexivity.
    + rewrite Hs3, char_is_at. reflexivity.
    + etransitivity; [| etransitivity; [exact H2 |]].
      * f_equal. cursor_eq.
      * do 2 f_equal. cursor_eq.
  - (* FNum *)
    intros l s pre rest Hs Hwf Hrest. simpl in *.
    exists 1. rewrite Hs. now apply parseFactor_literal.
  - (* FParen *)
    intros e IH s pre rest Hs Hwf Hrest. cbn [text_factor value_factor] in *.
    assert (Hs1 : s = (pre ++ [ch "("]) ++ text_expr e ++ (ch ")" :: rest))
      by (rewrite Hs; simpl; rewrite <- !app_assoc; reflexivity).
    assert (Hs2 : s = ((pre ++ [ch "("]) ++ text_expr e) ++ ch ")" :: rest)
      by (rewrite Hs1, <- !app_assoc; reflexivity).
    assert (Hs3 : s = pre ++ ch "(" :: text_expr e ++ ch ")" :: rest)
      by (rewrite Hs1, <- !app_assoc; reflexivity).
    destruct (IH s _ _ (Ret (value_expr e,
                             length (pre ++ [ch "("]) + length (text_expr e)))
                Hs1 Hwf) as [f2 H2]; [reflexivity | discriminate | |].
    { exists 1. rewrite Hs2 at 1. rewrite <- length_app.
      now apply parseExpression_loop_done. }
    exists (S f2).
    replace (length pre + length (ch "(" :: text_expr e ++ [ch ")"]))
      with (S (length (pre ++ [ch "("]) + length (text_expr e)))
      by (simpl; rewrite !length_app; simpl; lia).
    apply parseFactor_paren.
    + rewrite Hs3, char_is_at. reflexivity.
    + etransitivity; [| exact H2]. f_equal. rewrite length_app. simpl. lia.
    + rewrite <- length_app. rewrite Hs2 at 1. rewrite char_is_at. reflexivity.
Qed.

Lemma text_allowed :
  (forall e, well_formed_expr e ->
             text_expr e <> []
             /\ forall c, In c (text_expr e) -> allowed_char c = true)
  /\ (forall t, well_formed_term t ->
                text_term t <> []
                /\ forall c, In c (text_term t) -> allowed_char c = true)
  /\ (forall f, well_formed_factor f ->
                text_factor f <> []
                /\ forall c, In c (text_factor f) -> allowed_char c = true).
Proof.
  apply grammar_ind; cbn [text_expr text_term text_factor
                          well_formed_expr well_formed_term well_formed_factor].
  - auto.
  - intros e IHe t IHt [He Ht].
    destruct (IHe He) as [H1 H2], (IHt Ht) as [H3 H4]. split.
    + intros E. apply app_eq_nil in E. now destruct E.
    + intros c Hc. apply in_app_or in Hc.
      destruct Hc as [Hc | [<- | Hc]]; auto.
  - intros e IHe t IHt [He Ht].
    destruct (IHe He) as [H1 H2], (IHt Ht) as [H3 H4]. split.
    + intros E. apply app_eq_nil in E. now destruct E.
    + intros c Hc. apply in_app_or in Hc.
      destruct Hc as [Hc | [<- | Hc]]; auto.
  - auto.
  - intros t IHt f IHf [Ht Hf].
    destruct (IHt Ht) as [H1 H2], (IHf Hf) as [H3 H4]. split.
    + intros E. apply app_eq_nil in E. now destruct E.
    + intros c Hc. apply in_app_or in Hc.
      destruct Hc as [Hc | [<- | Hc]]; auto.
  - intros t IHt f IHf (Ht & Hf & _).
    destruct (IHt Ht) as [H1 H2], (IHf Hf) as [H3 H4]. split.
    + intros E. apply app_eq_nil in E. now destruct E.
    + intros c Hc. apply in_app_or in Hc.
      destruct Hc as [Hc | [<- | Hc]]; auto.
  - intros l [Hne Hl]. split; [assumption |].
    intros c Hc. apply allowed_char_spec. specialize (Hl c Hc).
    cbn [js list_ascii_of_string map In] in *. tauto.
  - intros e IHe He. destruct (IHe He) as [H1 H2]. split; [discriminate |].
    intros c [<- | Hc]; [reflexivity |].
    apply in_app_or in Hc. destruct Hc as [Hc | [<- | []]]; auto.
Qed.

(** On the text of a well-formed tree the evaluator returns its value. *)
Lemma evaluateExpression_grammar e :
  well_formed_expr e ->
  evaluateExpression (text_expr e) = Ret (value_expr e).
Proof.
  intros Hwf.
  destruct (proj1 grammar_parsed e (text_expr e) [] []
              (Ret (value_expr e, length (text_expr e))))
    as [fuel H]; try (exact I || discriminate || assumption).
  - now rewrite app_nil_r.
  - exists 1. simpl length at 1.
    rewrite <- (app_nil_r (text_expr e)) at 1.
    now apply parseExpression_loop_done.
  - unfold evaluateExpression. simpl length in H.
    rewrite (parseExpression_at_enough_fuel _ _ H) by discriminate.
    simpl. now rewrite Nat.eqb_refl.
Qed.

(** ** Integers in double arithmetic *)

Lemma digits2_log2 p : Zpos (digits2_pos p) = (Z.log2 (Zpos p) + 1)%Z.
Proof.
  destruct p as [p | p |]; simpl; try reflexivity.
  - induction p; simpl; lia.
  - induction p; simpl; lia.
Qed.

Lemma Zdigits2_log2 z : (0 < z)%Z -> Zdigits2 z = (Z.log2 z + 1)%Z.
Proof.
  destruct z as [| p | p]; try lia. intros _. apply digits2_log2.
Qed.

Lemma Zdigits2_shift z k :
  (0 < z)%Z -> (0 <= k)%Z -> Zdigits2 (z * 2 ^ k) = (Zdigits2 z + k)%Z.
Proof.
  intros Hz Hk.
  assert (0 < 2 ^ k)%Z by (apply Z.pow_pos_nonneg; lia).
  rewrite !Zdigits2_log2 by nia. rewrite Z.log2_mul_pow2 by lia. lia.
Qed.

Lemma fexp_small d : (-1021 <= d)%Z -> fexp prec emax d = (d - 53)%Z.
Proof. intros H. unfold fexp, emin, prec, emax. lia. Qed.

Lemma shr_1_double z : (0 <= z)%Z -> shr_1 (exact_record (2 * z)) = exact_record z.
Proof. destruct z; try lia; reflexivity. Qed.

Lemma iter_shr_1 p z :
  (0 <= z)%Z ->
  iter_pos shr_1 p (exact_record (z * 2 ^ Zpos p)) = exact_record z.
Proof.
  revert z. induction p as [p IH | p IH |]; intros z Hz.
  - cbn [iter_pos].
    replace (z * 2 ^ Zpos p~1)%Z with (2 * ((z * 2 ^ Zpos p) * 2 ^ Zpos p))%Z.
    2:{ replace (Zpos p~1) with (1 + Zpos p + Zpos p)%Z by lia.
        rewrite !Z.pow_add_r, Z.pow_1_r by lia. ring. }
    assert (0 < 2 ^ Zpos p)%Z by (apply Z.pow_pos_nonneg; lia).
    rewrite shr_1_double by nia. rewrite IH by nia. now apply IH.
  - cbn [iter_pos].
    replace (z * 2 ^ Zpos p~0)%Z with ((z * 2 ^ Zpos p) * 2 ^ Zpos p)%Z.
    2:{ replace (Zpos p~0) with (Zpos p + Zpos p)%Z by lia.
        rewrite Z.pow_add_r by lia. ring. }
    assert (0 < 2 ^ Zpos p)%Z by (apply Z.pow_pos_nonneg; lia).
    rewrite IH by nia. now apply IH.
  - cbn [iter_pos]. replace (z * 2 ^ 1)%Z with (2 * z)%Z by lia.
    now apply shr_1_double.
Qed.

Lemma shr_exact z e k :
  (0 <= z)%Z -> (0 <= k)%Z ->
  shr (exact_record (z * 2 ^ k)) e k = (exact_record z, (e + k)%Z).
Proof.
  intros Hz Hk. destruct k as [| p | p]; try lia.
  - simpl. rewrite Z.mul_1_r, Z.add_0_r. reflexivity.
  - unfold shr. now rewrite iter_shr_1.
Qed.

(** Rounding a value [n * 2 ^ 0] that is held as [m * 2 ^ e] changes nothing. *)
Lemma round_exact s m e n :
  (Zpos m = Zpos n * 2 ^ (- e))%Z ->
  (Zpos n < 2 ^ 53)%Z ->
  (e <= Zpos (digits2_pos n) - 53)%Z ->
  binary_round_aux prec emax s (Zpos m) e loc_Exact = canon s n.
Proof.
  intros Hm Hn He.
  set (d := Zpos (digits2_pos n)) in *.
  assert (Hd : (1 <= d <= 53)%Z).
  { unfold d. rewrite digits2_log2. pose proof (Z.log2_nonneg (Zpos n)).
    assert (Z.log2 (Zpos n) < 53)%Z by (apply Z.log2_lt_pow2; lia). lia. }
  set (k := (d - 53 - e)%Z).
  set (z := (Zpos n * 2 ^ (53 - d))%Z).
  assert (Hz : (0 < z)%Z) by (unfold z; apply Z.mul_pos_pos; [lia | apply Z.pow_pos_nonneg; lia]).
  assert (Hmz : (Zpos m = z * 2 ^ k)%Z).
  { rewrite Hm. unfold z, k. rewrite <- Z.mul_assoc, <- Z.pow_add_r by lia.
    f_equal. f_equal. lia. }
  assert (Hdz : Zdigits2 z = 53%Z).
  { unfold z. rewrite Zdigits2_shift by lia. simpl Zdigits2. fold d. lia. }
  unfold binary_round_aux, shr_fexp.
  rewrite Hmz at 1 2. rewrite Zdigits2_shift by lia. rewrite Hdz.
  rewrite fexp_small by lia.
  replace (53 + k + e - 53 - e)%Z with k by lia.
  change (shr_record_of_loc (z * 2 ^ k) loc_Exact) with (exact_record (z * 2 ^ k)).
  rewrite shr_exact by lia.
  cbn [exact_record shr_m loc_of_shr_record round_nearest_even].
  rewrite Hdz. rewrite fexp_small by lia.
  replace (53 + (e + k) - 53 - (e + k))%Z with 0%Z by lia.
  cbn [shr shr_record_of_loc shr_m].
  destruct z as [| p | p] eqn:Ez; try lia.
  replace (e + k <=? emax - prec)%Z with true
    by (symmetry; apply Z.leb_le; unfold emax, prec, k; lia).
  unfold canon. fold d. f_equal.
  - change (Z.pos n * 2 ^ (53 - d))%Z with z. now rewrite Ez.
  - unfold k. lia.
Qed.

Lemma iter_xO m d : Zpos (Pos.iter xO m d) = (Zpos m * 2 ^ Zpos d)%Z.
Proof.
  induction d as [| d IH] using Pos.peano_ind.
  - simpl. lia.
  - rewrite Pos.iter_succ, Pos2Z.inj_xO, IH, Pos2Z.inj_succ, Z.pow_succ_r by lia.
    ring.
Qed.

Lemma shl_align_fst m e e' :
  (e' <= e)%Z -> Zpos (fst (shl_align m e e')) = (Zpos m * 2 ^ (e - e'))%Z.
Proof.
  intros H. unfold shl_align.
  destruct (e' - e)%Z as [| d | d] eqn:E; try lia; simpl fst.
  - replace (e - e')%Z with 0%Z by lia. lia.
  - rewrite iter_xO. f_equal. f_equal. lia.
Qed.

Lemma shl_align_snd m e e' :
  (e' <= e)%Z -> snd (shl_align m e e') = e' .
Proof.
  intros H. unfold shl_align.
  destruct (e' - e)%Z as [| d | d] eqn:E; try lia; simpl snd; lia.
Qed.

Lemma of_int_signed s n : of_int (signed s n) = canon s n.
Proof. now destruct s. Qed.

Lemma binary_round_exact s m e n :
  (e <= 0)%Z -> (Zpos m = Zpos n * 2 ^ (- e))%Z -> (Zpos n < 2 ^ 53)%Z ->
  binary_round prec emax s m e = canon s n.
Proof.
  intros He Hm Hn. unfold binary_round.
  set (d := Zpos (digits2_pos n)).
  assert (Hd : (1 <= d <= 53)%Z).
  { unfold d. rewrite digits2_log2. pose proof (Z.log2_nonneg (Zpos n)).
    assert (Z.log2 (Zpos n) < 53)%Z by (apply Z.log2_lt_pow2; lia). lia. }
  assert (Hdm : (Zpos (digits2_pos m) + e = d)%Z).
  { change (Zpos (digits2_pos m)) with (Zdigits2 (Zpos m)).
    rewrite Hm, Zdigits2_shift by lia. simpl Zdigits2. fold d. lia. }
  rewrite Hdm, fexp_small by lia.
  destruct (Z_le_gt_dec (d - 53) e) as [Hle | Hgt].
  - pose proof (@shl_align_fst m e (d - 53) Hle) as H1.
    pose proof (@shl_align_snd m e (d - 53) Hle) as H2.
    destruct (shl_align m e (d - 53)) as [mz ez]. cbn [fst snd] in H1, H2. subst ez.
    apply round_exact; try assumption; fold d; try lia.
    rewrite H1, Hm, <- Z.mul_assoc, <- Z.pow_add_r by lia.
    f_equal. f_equal. lia.
  - unfold shl_align.
    destruct (d - 53 - e)%Z as [| p | p] eqn:E; try lia.
    apply round_exact; try assumption. fold d. lia.
Qed.

Lemma binary_normalize_exact m e z :
  (e <= 0)%Z -> (m = z * 2 ^ (- e))%Z -> (Z.abs z < 2 ^ 53)%Z ->
  binary_normalize prec emax m e false = of_int z.
Proof.
  intros He Hm Hz.
  assert (H2 : (0 < 2 ^ (- e))%Z) by (apply Z.pow_pos_nonneg; lia).
  unfold binary_normalize.
  destruct m as [| p | p], z as [| n | n]; try nia; simpl of_int.
  - reflexivity.
  - apply binary_round_exact; assumption.
  - apply binary_round_exact; try assumption.
    change (Zneg p) with (- Zpos p)%Z in Hm.
    change (Zneg n) with (- Zpos n)%Z in Hm. lia.
Qed.

Lemma canon_mantissa s n :
  (Zpos n < 2 ^ 53)%Z ->
  exists m e, canon s n = S754_finite s m e
              /\ (e <= 0)%Z /\ (-52 <= e)%Z
              /\ Zpos m = (Zpos n * 2 ^ (- e))%Z
              /\ e = (Zpos (digits2_pos n) - 53)%Z.
Proof.
  intros Hn. unfold canon.
  set (d := Zpos (digits2_pos n)).
  assert (Hd : (1 <= d <= 53)%Z).
  { unfold d. rewrite digits2_log2. pose proof (Z.log2_nonneg (Zpos n)).
    assert (Z.log2 (Zpos n) < 53)%Z by (apply Z.log2_lt_pow2; lia). lia. }
  eexists _, _. split; [reflexivity |]. repeat split; try lia.
  assert (0 < 2 ^ (53 - d))%Z by (apply Z.pow_pos_nonneg; lia).
  rewrite Z2Pos.id by nia. f_equal. f_equal. lia.
Qed.

Lemma pow2_split a b : (0 <= a)%Z -> (0 <= b)%Z -> (2 ^ a * 2 ^ b = 2 ^ (a + b))%Z.
Proof. intros. now rewrite Z.pow_add_r. Qed.

Lemma aligned m e n e' :
  (e' <= e)%Z -> (e <= 0)%Z -> Zpos m = (Zpos n * 2 ^ (- e))%Z ->
  Zpos (fst (shl_align m e e')) = (Zpos n * 2 ^ (- e'))%Z.
Proof.
  intros H1 H2 Hm. rewrite shl_align_fst, Hm by assumption.
  rewrite <- Z.mul_assoc, pow2_split by lia. f_equal. f_equal. lia.
Qed.

Lemma signed_cond s n : cond_Zopp s (Zpos n) = signed s n.
Proof. now destruct s. Qed.

Lemma signed_mul s n k : (cond_Zopp s (Zpos n * k) = signed s n * k)%Z.
Proof.
  destruct s; unfold cond_Zopp, signed; [| reflexivity].
  now rewrite <- Z.mul_opp_l.
Qed.

Lemma add_canon sa na sb nb :
  (Zpos na < 2 ^ 53)%Z -> (Zpos nb < 2 ^ 53)%Z ->
  (Z.abs (signed sa na + signed sb nb) < 2 ^ 53)%Z ->
  add (canon sa na) (canon sb nb) = of_int (signed sa na + signed sb nb).
Proof.
  intros Ha Hb Hab.
  destruct (canon_mantissa sa Ha) as (ma & ea & -> & Ha1 & Ha2 & Ha3 & _).
  destruct (canon_mantissa sb Hb) as (mb & eb & -> & Hb1 & Hb2 & Hb3 & _).
  unfold add, SFadd. cbv zeta.
  apply binary_normalize_exact; try assumption; [lia |].
  rewrite (@aligned ma ea na), (@aligned mb eb nb) by (assumption || lia).
  rewrite !signed_mul. ring.
Qed.

Lemma sub_canon sa na sb nb :
  (Zpos na < 2 ^ 53)%Z -> (Zpos nb < 2 ^ 53)%Z ->
  (Z.abs (signed sa na - signed sb nb) < 2 ^ 53)%Z ->
  sub (canon sa na) (canon sb nb) = of_int (signed sa na - signed sb nb).
Proof.
  intros Ha Hb Hab.
  destruct (canon_mantissa sa Ha) as (ma & ea & -> & Ha1 & Ha2 & Ha3 & _).
  destruct (canon_mantissa sb Hb) as (mb & eb & -> & Hb1 & Hb2 & Hb3 & _).
  unfold sub, SFsub. cbv zeta.
  apply binary_normalize_exact; try assumption; [lia |].
  rewrite (@aligned ma ea na), (@aligned mb eb nb) by (assumption || lia).
  rewrite !signed_mul. ring.
Qed.

Lemma mul_canon sa na sb nb :
  (Zpos (na * nb) < 2 ^ 53)%Z ->
  mul (canon sa na) (canon sb nb) = canon (xorb sa sb) (na * nb).
Proof.
  intros Hab.
  assert (Ha : (Zpos na < 2 ^ 53)%Z) by nia.
  assert (Hb : (Zpos nb < 2 ^ 53)%Z) by nia.
  destruct (canon_mantissa sa Ha) as (ma & ea & -> & Ha1 & Ha2 & Ha3 & Ha4).
  destruct (canon_mantissa sb Hb) as (mb & eb & -> & Hb1 & Hb2 & Hb3 & Hb4).
  unfold mul, SFmul. apply round_exact; try assumption.
  - rewrite !Pos2Z.inj_mul, Ha3, Hb3.
    replace (- (ea + eb))%Z with (- ea + - eb)%Z by lia.
    rewrite Z.pow_add_r by lia. ring.
  - rewrite digits2_log2 in *. rewrite Pos2Z.inj_mul.
    pose proof (Z.log2_mul_below (Zpos na) (Zpos nb)). lia.
Qed.

Lemma div_eucl_exact a b q :
  (0 < b)%Z -> (a = q * b)%Z -> Z.div_eucl a b = (q, 0%Z).
Proof.
  intros Hb Ha. destruct (Z.div_eucl a b) as [q' r'] eqn:E.
  assert (Hq : q' = (a / b)%Z) by (unfold Z.div; now rewrite E).
  assert (Hr : r' = (a mod b)%Z) by (unfold Z.modulo; now rewrite E).
  rewrite Hq, Hr, Ha, Z.div_mul, Z.mod_mul by lia. reflexivity.
Qed.

Lemma new_location_zero n : new_location n 0 = loc_Exact.
Proof. unfold new_location. now destruct (Z.even n). Qed.

Lemma div_canon sa na sb nb q :
  (Zpos na < 2 ^ 53)%Z -> (Zpos nb < 2 ^ 53)%Z -> (na = q * nb)%positive ->
  div (canon sa na) (canon sb nb) = canon (xorb sa sb) q.
Proof.
  intros Ha Hb Hq.
  assert (Hq' : (Zpos q < 2 ^ 53)%Z) by (subst na; nia).
  destruct (canon_mantissa sa Ha) as (ma & ea & -> & Ha1 & Ha2 & Ha3 & Ha4).
  destruct (canon_mantissa sb Hb) as (mb & eb & -> & Hb1 & Hb2 & Hb3 & Hb4).
  assert (Hda : Zdigits2 (Zpos ma) = 53%Z).
  { rewrite Ha3, Zdigits2_shift by lia. simpl Zdigits2. lia. }
  assert (Hdb : Zdigits2 (Zpos mb) = 53%Z).
  { rewrite Hb3, Zdigits2_shift by lia. simpl Zdigits2. lia. }
  unfold div, SFdiv, SFdiv_core_binary. rewrite Hda, Hdb. cbv zeta.
  rewrite fexp_small by lia.
  replace (Z.min (53 + ea - (53 + eb) - 53) (ea - eb))%Z with (ea - eb - 53)%Z by lia.
  replace (ea - eb - (ea - eb - 53))%Z with 53%Z by lia.
  cbv iota. rewrite Z.shiftl_mul_pow2 by lia.
  set (e' := (ea - eb - 53)%Z).
  assert (Hpow : (0 < 2 ^ (- e'))%Z) by (apply Z.pow_pos_nonneg; unfold e'; lia).
  assert (Heq : (Zpos ma * 2 ^ 53 = Zpos q * 2 ^ (- e') * Zpos mb)%Z).
  { rewrite Ha3, Hb3, Hq, Pos2Z.inj_mul.
    transitivity (Zpos q * Zpos nb * 2 ^ (- ea + 53))%Z.
    - rewrite Z.pow_add_r by lia. ring.
    - replace (- ea + 53)%Z with (- e' + - eb)%Z by (unfold e'; lia).
      rewrite Z.pow_add_r by (unfold e'; lia). ring. }
  rewrite (@div_eucl_exact _ (Zpos mb) (Zpos q * 2 ^ (- e'))%Z) by (lia || exact Heq).
  rewrite new_location_zero.
  destruct (Zpos q * 2 ^ (- e'))%Z as [| p | p] eqn:E; try nia.
  apply round_exact; try assumption.
  - now rewrite E.
  - unfold e'. rewrite digits2_log2 in *.
    pose proof (Z.log2_mul_above (Zpos q) (Zpos nb)).
    subst na. rewrite Pos2Z.inj_mul in *. lia.
Qed.

Lemma add_represents x y a b :
  represents x a -> represents y b -> (Z.abs (a + b) < 2 ^ 53)%Z ->
  represents (add x y) (a + b).
Proof.
  intros [Ha Hx] [Hb Hy] Hab. split; [assumption |].
  destruct a as [| na | na], b as [| nb | nb];
    destruct Hx as [-> | [Hx ->]]; try discriminate Hx;
    destruct Hy as [-> | [Hy ->]]; try discriminate Hy;
    try (left; reflexivity); try (right; split; reflexivity); left.
  - apply (@add_canon false na false nb); assumption.
  - apply (@add_canon false na true nb); assumption.
  - apply (@add_canon true na false nb); assumption.
  - apply (@add_canon true na true nb); assumption.
Qed.

Lemma sub_represents x y a b :
  represents x a -> represents y b -> (Z.abs (a - b) < 2 ^ 53)%Z ->
  represents (sub x y) (a - b).
Proof.
  intros [Ha Hx] [Hb Hy] Hab. split; [assumption |].
  destruct a as [| na | na], b as [| nb | nb];
    destruct Hx as [-> | [Hx ->]]; try discriminate Hx;
    destruct Hy as [-> | [Hy ->]]; try discriminate Hy;
    try (left; reflexivity); try (right; split; reflexivity); left.
  - apply (@sub_canon false na false nb); assumption.
  - apply (@sub_canon false na true nb); assumption.
  - apply (@sub_canon true na false nb); assumption.
  - apply (@sub_canon true na true nb); assumption.
Qed.

Lemma mul_represents x y a b :
  represents x a -> represents y b -> (Z.abs (a * b) < 2 ^ 53)%Z ->
  represents (mul x y) (a * b).
Proof.
  intros [Ha Hx] [Hb Hy] Hab. split; [assumption |].
  destruct a as [| na | na], b as [| nb | nb];
    destruct Hx as [-> | [Hx ->]]; try discriminate Hx;
    destruct Hy as [-> | [Hy ->]]; try discriminate Hy;
    try (left; reflexivity); try (right; split; reflexivity); left.
  - apply (@mul_canon false na false nb); assumption.
  - apply (@mul_canon false na true nb); assumption.
  - apply (@mul_canon true na false nb); assumption.
  - apply (@mul_canon true na true nb); assumption.
Qed.

Lemma div_represents x y a b :
  represents x a -> represents y b -> b <> 0%Z -> (a mod b = 0)%Z ->
  represents (div x y) (a / b).
Proof.
  intros [Ha Hx] [Hb Hy] Hb0 Hmod.
  assert (Hq : (a = a / b * b)%Z).
  { pose proof (Z.div_mod a b Hb0). lia. }
  set (q := (a / b)%Z) in *.
  assert (Hqa : (Z.abs q < 2 ^ 53)%Z) by nia.
  split; [assumption |].
  destruct Hy as [-> | [Hy _]]; [| contradiction].
  destruct a as [| na | na].
  - assert (q = 0%Z) as -> by nia.
    destruct b as [| nb | nb]; [contradiction | |];
      destruct Hx as [-> | [_ ->]];
      (left; reflexivity) || (right; split; reflexivity).
  - destruct Hx as [-> | [Hx _]]; [| discriminate Hx]. left.
    destruct b as [| nb | nb], q as [| nq | nq]; try contradiction;
      try discriminate Hq.
    + apply (@div_canon false na false nb nq); try assumption.
      now injection Hq.
    + apply (@div_canon false na true nb nq); try assumption.
      now injection Hq.
  - destruct Hx as [-> | [Hx _]]; [| discriminate Hx]. left.
    destruct b as [| nb | nb], q as [| nq | nq]; try contradiction;
      try discriminate Hq.
    + apply (@div_canon true na false nb nq); try assumption.
      now injection Hq.
    + apply (@div_canon true na true nb nq); try assumption.
      now injection Hq.
Qed.

Lemma represents_nonzero x z :
  represents x z -> z <> 0%Z -> strict_eq x zero = false.
Proof.
  intros [_ [-> | [Hz _]]] Hne; [| contradiction].
  destruct z as [| n | n]; [contradiction | reflexivity | reflexivity].
Qed.

Lemma canon_integer s n :
  (Zpos n < 2 ^ 53)%Z -> isInteger (canon s n) = true.
Proof.
  intros Hn.
  destruct (canon_mantissa s Hn) as (m & e & -> & He1 & He2 & Hm & _).
  unfold isInteger. destruct (0 <=? e)%Z; [reflexivity |].
  apply Z.eqb_eq. rewrite Hm. apply Z.mod_mul.
  apply Z.pow_nonzero; lia.
Qed.

Lemma represents_format x z :
  represents x z ->
  formatResult x = {| result := Some x; error := None |}.
Proof.
  intros [Hz Hx]. unfold formatResult.
  assert (H : isFinite x = true /\ isInteger x = true).
  { destruct Hx as [-> | [_ ->]]; [| split; reflexivity].
    destruct z as [| n | n]; [split; reflexivity | |];
      (split; [reflexivity | now apply canon_integer]). }
  destruct H as [-> ->]. reflexivity.
Qed.

Lemma signed_scale s m n k :
  Zpos m = (Zpos n * k)%Z -> signed s m = (signed s n * k)%Z.
Proof.
  intros H. destruct s; unfold signed; [| assumption].
  change (Zneg m) with (- Zpos m)%Z. change (Zneg n) with (- Zpos n)%Z.
  rewrite H. ring.
Qed.

Lemma represents_value x z : represents x z -> (to_Q x == inject_Z z)%Q.
Proof.
  intros [Hz [-> | [-> ->]]]; [| reflexivity].
  assert (H : forall s n, (Zpos n < 2 ^ 53)%Z ->
                          (to_Q (canon s n) == inject_Z (signed s n))%Q).
  { intros s n Hn.
    destruct (canon_mantissa s Hn) as (m & e & -> & He1 & He2 & Hm & _).
    unfold to_Q. destruct e as [| k | k]; try lia.
    - rewrite (@signed_scale s _ _ _ Hm). simpl. now rewrite !Z.mul_1_r.
    - unfold Qeq. simpl Qnum. simpl Qden.
      rewrite (@signed_scale s _ _ _ Hm), Pos2Z.inj_pow. simpl. ring. }
  destruct z as [| n | n]; [reflexivity | |].
  - apply (H false n). exact Hz.
  - apply (H true n). exact Hz.
Qed.

Lemma digits_fold_nonneg l acc :
  (0 <= acc)%Z -> forallb is_digit l = true ->
  (0 <= fold_left (fun a c => 10 * a + digit_value c) l acc)%Z.
Proof.
  revert acc. induction l as [| c l IH]; intros acc Hacc Hl;
    cbn [fold_left forallb] in *.
  - assumption.
  - apply andb_true_iff in Hl. destruct Hl as [Hc Hl].
    apply IH; [| assumption].
    apply is_digit_range in Hc. unfold digit_value. lia.
Qed.

Lemma digits_value_nonneg l :
  forallb is_digit l = true -> (0 <= digits_value l)%Z.
Proof. apply digits_fold_nonneg. lia. Qed.

Lemma round_ratio_integer n :
  (0 <= n < 2 ^ 53)%Z -> round_ratio false n 1 = of_int n.
Proof.
  intros Hn. destruct n as [| p | p]; try lia; [reflexivity |].
  unfold round_ratio, SFdiv_core_binary.
  set (d := Zdigits2 (Zpos p)).
  assert (Hd : (1 <= d <= 53)%Z).
  { unfold d. simpl Zdigits2. rewrite digits2_log2.
    pose proof (Z.log2_nonneg (Zpos p)).
    assert (Z.log2 (Zpos p) < 53)%Z by (apply Z.log2_lt_pow2; lia). lia. }
  change (Zdigits2 1) with 1%Z. cbv zeta.
  rewrite fexp_small by lia.
  replace (Z.min (d + 0 - (1 + 0) - 53) (0 - 0))%Z with (d - 54)%Z by lia.
  replace (0 - 0 - (d - 54))%Z with (54 - d)%Z by lia.
  destruct (54 - d)%Z as [| k | k] eqn:E; try lia.
  rewrite Z.shiftl_mul_pow2 by lia.
  rewrite (@div_eucl_exact _ 1%Z (Zpos p * 2 ^ Zpos k)%Z) by lia.
  rewrite new_location_zero.
  assert (Hpow : (0 < 2 ^ Zpos k)%Z) by (apply Z.pow_pos_nonneg; lia).
  destruct (Zpos p * 2 ^ Zpos k)%Z as [| m | m] eqn:Em; try nia.
  apply round_exact; try lia.
  - rewrite <- Em. f_equal. f_equal. lia.
  - fold (Zdigits2 (Zpos p)). fold d. lia.
Qed.

(** [parseFloat] on a run of digits whose value is below 2^53. *)
Lemma parseFloat_digits l :
  l <> [] -> forallb is_digit l = true -> (digits_value l < 2 ^ 53)%Z ->
  parseFloat l = of_int (digits_value l).
Proof.
  intros Hne Hl Hv. pose proof (digits_value_nonneg l Hl) as H0.
  destruct l as [| d r]; [now elim Hne |].
  assert (Hd : is_digit d = true) by (simpl in Hl; now apply andb_true_iff in Hl).
  unfold parseFloat. cbn [trim_start]. rewrite (@is_space_digit d Hd).
  rewrite (is_digit_not _ Hd) by (change (ch "-") with 45%N; lia).
  rewrite (is_digit_not _ Hd) by (change (ch "+") with 43%N; lia).
  unfold unsigned_literal.
  replace (starts_with (js "Infinity") (d :: r)) with false.
  2:{ symmetry. change (js "Infinity") with (ch "I" :: js "nfinity").
      cbn [starts_with].
      rewrite N.eqb_sym, (is_digit_not _ Hd); [reflexivity |].
      change (ch "I") with 73%N. lia. }
  rewrite <- (app_nil_r (d :: r)) at 1.
  rewrite span_digits by (assumption || exact I).
  unfold decimal. rewrite <- round_ratio_integer by lia.
  f_equal. change (10 ^ 0)%Z with 1%Z. lia.
Qed.

Lemma of_Z_of_int z : (Z.abs z < 2 ^ 53)%Z -> of_Z z = of_int z.
Proof.
  intros Hz. unfold of_Z. apply binary_normalize_exact; [lia | | assumption].
  simpl. lia.
Qed.

Lemma safe_inv z z' : safe z = Some z' -> z' = z /\ (Z.abs z < 2 ^ 53)%Z.
Proof.
  unfold safe. destruct (Z.abs z <? 2 ^ 53)%Z eqn:E; [| discriminate].
  intros H. injection H as <-. apply Z.ltb_lt in E. auto.
Qed.

Lemma digit_literal c : is_digit c = true -> In c (js "0123456789.").
Proof.
  intros H. apply is_digit_range in H.
  cbn [js list_ascii_of_string map In].
  change (ch "0") with 48%N; change (ch "1") with 49%N;
    change (ch "2") with 50%N; change (ch "3") with 51%N;
    change (ch "4") with 52%N; change (ch "5") with 53%N;
    change (ch "6") with 54%N; change (ch "7") with 55%N;
    change (ch "8") with 56%N; change (ch "9") with 57%N.
  lia.
Qed.

Lemma exact_sound :
  (forall e z, exact_expr e = Some z ->
               well_formed_expr e /\ represents (value_expr e) z)
  /\ (forall t z, exact_term t = Some z ->
                  well_formed_term t /\ represents (value_term t) z)
  /\ (forall f z, exact_factor f = Some z ->
                  well_formed_factor f /\ represents (value_factor f) z).
Proof.
  apply grammar_ind;
    cbn [exact_expr exact_term exact_factor value_expr value_term value_factor
         well_formed_expr well_formed_term well_formed_factor].
  - auto.
  - intros e IHe t IHt z H.
    destruct (exact_expr e) as [a |]; [| discriminate].
    destruct (exact_term t) as [b |]; [| discriminate].
    destruct (IHe a eq_refl) as [He Ha], (IHt b eq_refl) as [Ht Hb].
    apply safe_inv in H. destruct H as [-> H].
    split; [split; assumption |]. now apply add_represents.
  - intros e IHe t IHt z H.
    destruct (exact_expr e) as [a |]; [| discriminate].
    destruct (exact_term t) as [b |]; [| discriminate].
    destruct (IHe a eq_refl) as [He Ha], (IHt b eq_refl) as [Ht Hb].
    apply safe_inv in H. destruct H as [-> H].
    split; [split; assumption |]. now apply sub_represents.
  - auto.
  - intros t IHt f IHf z H.
    destruct (exact_term t) as [a |]; [| discriminate].
    destruct (exact_factor f) as [b |]; [| discriminate].
    destruct (IHt a eq_refl) as [Ht Ha], (IHf b eq_refl) as [Hf Hb].
    apply safe_inv in H. destruct H as [-> H].
    split; [split; assumption |]. now apply mul_represents.
  - intros t IHt f IHf z H.
    destruct (exact_term t) as [a |]; [| discriminate].
    destruct (exact_factor f) as [b |]; [| discriminate].
    destruct (IHt a eq_refl) as [Ht Ha], (IHf b eq_refl) as [Hf Hb].
    destruct (b =? 0)%Z eqn:E0; [discriminate |]. apply Z.eqb_neq in E0.
    destruct (a mod b =? 0)%Z eqn:Em; [| discriminate]. apply Z.eqb_eq in Em.
    injection H as <-. split.
    + repeat split; try assumption. now apply represents_nonzero with b.
    + now apply div_represents.
  - intros l z H. destruct l as [| c l']; [discriminate |].
    destruct (forallb is_digit (c :: l')) eqn:E; [| discriminate].
    apply safe_inv in H. destruct H as [-> H].
    pose proof (digits_value_nonneg _ E) as H0.
    split.
    + split; [discriminate |]. intros d Hd. apply digit_literal.
      now apply (proj1 (forallb_forall _ _) E).
    + split; [assumption |]. left.
      apply parseFloat_digits; [discriminate | assumption | lia].
  - auto.
Qed.

(** ** The evaluator and the grammar: the claim on correct results *)

Lemma calculate_grammar expression e :
  remove_whitespace expression = text_expr e ->
  well_formed_expr e ->
  length (text_expr e) <= 100 ->
  ~ (exists a b, text_expr e = a ++ js "/0" ++ b) ->
  calculate expression = Some (formatResult (value_expr e)).
Proof.
  intros Hs Hwf Hlen Hno.
  destruct (proj1 text_allowed e Hwf) as [Hne Hall].
  rewrite calculate_evaluates; rewrite Hs.
  - now rewrite evaluateExpression_grammar.
  - destruct (text_expr e) as [| c r] eqn:E; [now elim Hne |].
    unfold only_allowed_chars. apply forallb_forall. exact Hall.
  - assumption.
  - destruct (slash_zero (text_expr e)) eqn:Ez; [| reflexivity].
    elim Hno. apply slash_zero_inv; [| assumption].
    intros c Hc. rewrite <- Hs in Hc.
    now apply remove_whitespace_no_space with expression.
Qed.

(** C1, as stated, fails: ["9007199254740993"] is a number of 16 digits
    whose value is 2^53 + 1; the calculator answers 2^53, which is off
    by 1. *)
Lemma C1_counterexample :
  exact_expr (ETerm (TFactor (FNum (js "9007199254740993")))) = None
  /\ digits_value (js "9007199254740993") = 9007199254740993%Z
  /\ calculate (js "9007199254740993")
     = Some {| result := Some (of_Z 9007199254740992); error := None |}
  /\ (to_Q (of_Z 9007199254740992) == 9007199254740992)%Q
  /\ (1 # 1000000 < 9007199254740993 - to_Q (of_Z 9007199254740992))%Q.
Proof. repeat split; reflexivity. Qed.

(** C1, amended: when the sanitized input is the text of a tree of the
    grammar in which no divisor evaluates to zero, is at most 100
    characters long and does not contain ["/0"], [calculate] answers with
    the formatted value of the tree in double arithmetic: [*] and [/]
    bind tighter than [+] and [-], operators of one level associate to
    the left, and parentheses override both.  When moreover the numbers
    are runs of digits, every division is without remainder and all
    numbers and intermediate results are below 2^53 in magnitude, the
    answer is a result and it is exactly the mathematical value.  So
    ["2 + 2 * 2"] gives 6 and ["(2 + 3) * 4"] gives 20. *)
Theorem C1_evaluates_grammar :
  (forall expression e,
      remove_whitespace expression = text_expr e ->
      well_formed_expr e ->
      length (text_expr e) <= 100 ->
      ~ (exists a b, text_expr e = a ++ js "/0" ++ b) ->
      calculate expression = Some (formatResult (value_expr e)))
  /\ (forall expression e z,
         remove_whitespace expression = text_expr e ->
         exact_expr e = Some z ->
         length (text_expr e) <= 100 ->
         ~ (exists a b, text_expr e = a ++ js "/0" ++ b) ->
         exists r,
           calculate expression = Some {| result := Some r; error := None |}
           /\ (to_Q r == inject_Z z)%Q)
  /\ calculate (js "2 + 2 * 2")
     = Some {| result := Some (of_Z 6); error := None |}
  /\ calculate (js "(2 + 3) * 4")
     = Some {| result := Some (of_Z 20); error := None |}
  /\ (to_Q (of_Z 6) == 6)%Q /\ (to_Q (of_Z 20) == 20)%Q.
Proof.
  split; [exact calculate_grammar |].
  split; [| repeat split; reflexivity].
  intros expression e z Hs Hz Hlen Hno.
  destruct (proj1 exact_sound e z Hz) as [Hwf Hr].
  exists (value_expr e). split.
  - rewrite (@calculate_grammar expression e Hs Hwf Hlen Hno).
    f_equal. now apply represents_format with z.
  - now apply represents_value.
Qed.

Lemma no_slash_zero_checked s :
  slash_zero s = false -> ~ (exists a b, s = a ++ js "/0" ++ b).
Proof.
  intros H Hex. apply slash_zero_substring in Hex. congruence.
Qed.

Lemma C1_witness :
  calculate (js " 10/4 - .5")
  = Some (formatResult (value_expr ten_by_four_minus_half))
  /\ value_expr ten_by_four_minus_half = of_Z 2
  /\ exists r,
      calculate (js "(12 - 20) * 3 / (1 + 5)")
      = Some {| result := Some r; error := None |}
      /\ (to_Q r == inject_Z (-4))%Q.
Proof.
  split; [| split].
  - apply (proj1 C1_evaluates_grammar (js " 10/4 - .5") ten_by_four_minus_half).
    + reflexivity.
    + cbn. repeat split; try discriminate;
        intros c Hc; cbn in Hc;
        repeat (destruct Hc as [<- | Hc]; [cbn; tauto |]); contradiction.
    + vm_compute. lia.
    + apply no_slash_zero_checked. reflexivity.
  - reflexivity.
  - apply (proj1 (proj2 C1_evaluates_grammar)
             (js "(12 - 20) * 3 / (1 + 5)") nested_integers (-4)%Z).
    + reflexivity.
    + reflexivity.
    + vm_compute. lia.
    + apply no_slash_zero_checked. reflexivity.
Defined.

(** ** Whitespace and the kinds of error *)

Lemma remove_whitespace_app a b :
  remove_whitespace (a ++ b) = remove_whitespace a ++ remove_whitespace b.
Proof. apply filter_app. Qed.

Lemma remove_whitespace_spaces w :
  (forall c, In c w -> is_space c = true) -> remove_whitespace w = [].
Proof.
  induction w as [| c w IH]; intros H; [reflexivity |].
  unfold remove_whitespace in *. simpl.
  rewrite (H c (or_introl eq_refl)). simpl. apply IH.
  intros d Hd. apply H. now right.
Qed.

(** X1: whitespace anywhere in the input, also inside a number, changes
    nothing: the outcome is that of the input without it. *)
Theorem X1_whitespace_ignored a w b :
  (forall c, In c w -> is_space c = true) ->
  calculate (a ++ w ++ b) = calculate (a ++ b).
Proof.
  intros Hw. unfold calculate.
  rewrite !remove_whitespace_app, (remove_whitespace_spaces w Hw).
  reflexivity.
Qed.

Lemma X1_witness :
  calculate (js "1" ++ [32; 9; 160]%N ++ js "2+3") = calculate (js "12+3")
  /\ calculate (js "12+3") = Some {| result := Some (of_Z 15); error := None |}.
Proof.
  split; [| reflexivity].
  apply (@X1_whitespace_ignored (js "1") [32; 9; 160]%N (js "2+3")).
  intros c Hc. repeat (destruct Hc as [<- | Hc]; [reflexivity |]). contradiction.
Defined.

Lemma formatResult_not_failure v m :
  m <> ERROR_INVALID_EXPRESSION -> formatResult v <> failure m.
Proof.
  intros Hm. unfold formatResult, failure.
  destruct (isFinite v); [discriminate |].
  intros H. injection H as H. now elim Hm.
Qed.

(** X2: the too-complex error is the answer exactly when the sanitized
    input is longer than 100 characters and all of them are allowed
    characters. *)
Theorem X2_too_complex_exactly expression :
  calculate expression = Some (failure ERROR_TOO_COMPLEX)
  <-> (100 < length (remove_whitespace expression)
       /\ forall c, In c (remove_whitespace expression) ->
                    In c (js "0123456789+-*/().")).
Proof.
  split.
  - unfold calculate.
    destruct (only_allowed_chars (remove_whitespace expression)) eqn:E; simpl.
    + apply only_allowed_chars_spec in E. destruct E as [_ Hall].
      destruct (100 <? _) eqn:El.
      * intros _. apply Nat.ltb_lt in El. auto.
      * destruct (slash_zero _); [discriminate |].
        destruct (evaluateExpression _) as [v | m |]; try discriminate.
        intros H.
        exfalso.
        apply (@formatResult_not_failure v ERROR_TOO_COMPLEX);
          [discriminate | congruence].
    + discriminate.
  - intros [Hlen Hall]. unfold calculate.
    assert (E : only_allowed_chars (remove_whitespace expression) = true).
    { apply only_allowed_chars_spec. split; [| assumption].
      intros E. rewrite E in Hlen. simpl in Hlen. lia. }
    rewrite E. simpl. apply Nat.ltb_lt in Hlen. now rewrite Hlen.
Qed.

Lemma X2_witness :
  100 < length (remove_whitespace (repeat (ch "(") 150))
  /\ forall c, In c (remove_whitespace (repeat (ch "(") 150)) ->
               In c (js "0123456789+-*/().").
Proof.
  apply (proj1 (X2_too_complex_exactly (repeat (ch "(") 150))). reflexivity.
Defined.

(** X3: the division-by-zero error is the answer exactly when the
    sanitized input consists of allowed characters, is at most 100
    characters long and contains ["/0"]; a divisor that only evaluates
    to zero never gives it. *)
Theorem X3_division_by_zero_exactly expression :
  calculate expression = Some (failure ERROR_DIVISION_BY_ZERO)
  <-> ((forall c, In c (remove_whitespace expression) ->
                  In c (js "0123456789+-*/()."))
       /\ length (remove_whitespace expression) <= 100
       /\ exists a b, remove_whitespace expression = a ++ js "/0" ++ b).
Proof.
  split.
  - unfold calculate.
    destruct (only_allowed_chars (remove_whitespace expression)) eqn:E; simpl.
    + apply only_allowed_chars_spec in E. destruct E as [_ Hall].
      destruct (100 <? _) eqn:El; [discriminate |].
      apply Nat.ltb_ge in El.
      destruct (slash_zero _) eqn:Ez.
      * intros _. repeat split; try assumption.
        apply slash_zero_inv; [| assumption].
        intros c. apply remove_whitespace_no_space.
      * destruct (evaluateExpression _) as [v | m |]; try discriminate.
        intros H.
        exfalso.
        apply (@formatResult_not_failure v ERROR_DIVISION_BY_ZERO);
          [discriminate | congruence].
    + discriminate.
  - intros (Hall & Hlen & a & b & Hs). unfold calculate.
    assert (E : only_allowed_chars (remove_whitespace expression) = true).
    { apply only_allowed_chars_spec. split; [| assumption].
      rewrite Hs. now destruct a. }
    rewrite E. simpl.
    destruct (100 <? _) eqn:E'; [apply Nat.ltb_lt in E'; lia |].
    rewrite slash_zero_substring; [reflexivity |]. now exists a, b.
Qed.

Lemma X3_witness :
  calculate (js "1/(2-2)") <> Some (failure ERROR_DIVISION_BY_ZERO)
  /\ calculate (js "1/(2-2)") = Some (failure ERROR_INVALID_EXPRESSION).
Proof.
  split; [| reflexivity].
  intros H. apply (proj1 (X3_division_by_zero_exactly (js "1/(2-2)"))) in H.
  destruct H as (_ & _ & a & b & H).
  apply (f_equal slash_zero) in H.
  rewrite (slash_zero_substring (ex_intro _ a (ex_intro _ b eq_refl))) in H.
  discriminate H.
Defined.

(** ** What the evaluator accepts *)

Lemma firstn_firstn_skipn A (l : list A) n m :
  firstn n l ++ firstn m (skipn n l) = firstn (n + m) l.
Proof.
  revert l. induction n as [| n IH]; intros l; [reflexivity |].
  destruct l as [| x l]; simpl.
  - now rewrite firstn_nil.
  - now rewrite IH.
Qed.

Lemma substring_app s a b c :
  a <= b <= c -> substring s a b ++ substring s b c = substring s a c.
Proof.
  intros H. unfold substring.
  replace (skipn b s) with (skipn (b - a) (skipn a s))
    by (rewrite skipn_skipn; f_equal; lia).
  rewrite firstn_firstn_skipn. f_equal. lia.
Qed.

Lemma substring_one s pos c :
  nth_error s pos = Some c -> substring s pos (S pos) = [c].
Proof.
  intros H. unfold substring. replace (S pos - pos) with 1 by lia.
  rewrite <- hd_error_skipn in H.
  destruct (skipn pos s) as [| d r]; [discriminate |].
  simpl in H. injection H as ->. reflexivity.
Qed.

Lemma substring_all s : substring s 0 (length s) = s.
Proof. unfold substring. simpl. rewrite Nat.sub_0_r. apply firstn_all. Qed.

Lemma In_substring s a b c :
  In c (substring s a b) -> exists i, a <= i < b /\ nth_error s i = Some c.
Proof.
  intros H. apply In_nth_error in H. destruct H as [j Hj].
  unfold substring in Hj. rewrite nth_error_firstn in Hj.
  destruct (j <? b - a) eqn:E; [| discriminate]. apply Nat.ltb_lt in E.
  rewrite nth_error_skipn in Hj. exists (a + j). split; [lia | assumption].
Qed.

Lemma substring_length s a b :
  b <= length s -> length (substring s a b) = b - a.
Proof.
  intros H. unfold substring. rewrite length_firstn, length_skipn. lia.
Qed.

Lemma char_is_nth s pos a :
  char_is s pos a = true -> nth_error s pos = Some (ch a).
Proof.
  unfold char_is. destruct (nth_error s pos) as [d |]; [| discriminate].
  intros H. apply N.eqb_eq in H. now subst d.
Qed.

Lemma of_number_literal c : of_number c = true -> In c (js "0123456789.").
Proof.
  unfold of_number. intros H. apply orb_true_iff in H. destruct H as [H | H].
  - now apply digit_literal.
  - apply N.eqb_eq in H. subst c. cbn [js list_ascii_of_string map In]. tauto.
Qed.

Lemma bind_ret A B (c : res A) (k : A -> res B) b :
  bind c k = Ret b -> exists a, c = Ret a /\ k a = Ret b.
Proof. destruct c as [a | m |]; simpl; try discriminate. eauto. Qed.

Section Accepts.

Variable s : jsstring.

Lemma accepted_number fuel pos v pos' :
  char_is s pos "(" = false ->
  parseFactor s (S fuel) pos = Ret (v, pos') ->
  pos < pos' <= length s /\ accepted_factor s pos pos' v.
Proof.
  intros Hp H.
  destruct (parseFactor_number s fuel pos Hp) as (stop & H1 & H2 & H3 & H4).
  rewrite H4 in H. destruct (pos =? stop) eqn:E; [discriminate |].
  apply Nat.eqb_neq in E. injection H as <- <-.
  assert (Hlen : stop <= length s).
  { destruct (Nat.le_gt_cases stop (length s)) as [Hle | Hgt]; [assumption |].
    assert (Hc : number_char s (stop - 1) = true) by (apply H2; lia).
    apply number_char_lt in Hc. lia. }
  split; [lia |].
  exists (FNum (substring s pos stop)). repeat split.
  - intros E'. apply (f_equal (@length N)) in E'.
    rewrite substring_length in E' by assumption. simpl in E'. lia.
  - intros c Hc. apply In_substring in Hc. destruct Hc as (i & Hi & Hc).
    apply of_number_literal. specialize (H2 i Hi).
    unfold number_char in H2. now rewrite Hc in H2.
Qed.

Lemma accepts_all n :
  (forall pos v pos',
      parseExpression s n pos = Ret (v, pos') ->
      pos < pos' <= length s /\ accepted_expr s pos pos' v)
  /\ (forall left_ pos v pos' start,
         start <= pos <= length s -> accepted_expr s start pos left_ ->
         parseExpression_loop s n left_ pos = Ret (v, pos') ->
         pos <= pos' <= length s /\ accepted_expr s start pos' v)
  /\ (forall pos v pos',
         parseTerm s n pos = Ret (v, pos') ->
         pos < pos' <= length s /\ accepted_term s pos pos' v)
  /\ (forall left_ pos v pos' start,
         start <= pos <= length s -> accepted_term s start pos left_ ->
         parseTerm_loop s n left_ pos = Ret (v, pos') ->
         pos <= pos' <= length s /\ accepted_term s start pos' v)
  /\ (forall pos v pos',
         parseFactor s n pos = Ret (v, pos') ->
         pos < pos' <= length s /\ accepted_factor s pos pos' v).
Proof.
  induction n as [| n (IHe & IHel & IHt & IHtl & IHf)].
  - split; [| split; [| split; [| split]]]; intros; discriminate.
  - split; [| split; [| split; [| split]]].
    + (* parseExpression *)
      intros pos v pos' H. simpl in H.
      apply bind_ret in H. destruct H as ([w p] & Ht & Hl).
      destruct (IHt _ _ _ Ht) as [Hb (t & T1 & T2 & T3)].
      assert (Ha : accepted_expr s pos p w) by (exists (ETerm t); auto).
      destruct (IHel w p v pos' pos ltac:(lia) Ha Hl) as [Hb' He].
      split; [lia | assumption].
    + (* parseExpression_loop *)
      intros left_ pos v pos' start Hs (e & E1 & E2 & E3) H. simpl in H.
      destruct (pos <? length s) eqn:El;
        [| injection H as <- <-; split; [lia | now exists e]].
      destruct (char_is s pos "+") eqn:Ep.
      { apply bind_ret in H. destruct H as ([w p] & Ht & Hl).
        destruct (IHt _ _ _ Ht) as [Hb (t & T1 & T2 & T3)].
        assert (Ha : accepted_expr s start p (add left_ w)).
        { exists (EAdd e t). cbn [text_expr value_expr well_formed_expr].
        rewrite E1, E2, T1, T2. repeat split; try assumption.
        rewrite <- (substring_app s (a := start) (b := pos) (c := p)) by lia.
        f_equal.
        rewrite <- (substring_app s (a := pos) (b := S pos) (c := p)) by lia.
        now rewrite (substring_one _ _ (char_is_nth _ _ _ Ep)). }
        destruct (IHel (add left_ w) p v pos' start ltac:(lia) Ha Hl) as [Hb' He].
        split; [lia | assumption]. }
      destruct (char_is s pos "-") eqn:Em;
        [| injection H as <- <-; split; [lia | now exists e]].
      apply bind_ret in H. destruct H as ([w p] & Ht & Hl).
      destruct (IHt _ _ _ Ht) as [Hb (t & T1 & T2 & T3)].
      assert (Ha : accepted_expr s start p (sub left_ w)).
      { exists (ESub e t). cbn [text_expr value_expr well_formed_expr].
      rewrite E1, E2, T1, T2. repeat split; try assumption.
      rewrite <- (substring_app s (a := start) (b := pos) (c := p)) by lia.
      f_equal.
      rewrite <- (substring_app s (a := pos) (b := S pos) (c := p)) by lia.
      now rewrite (substring_one _ _ (char_is_nth _ _ _ Em)). }
      destruct (IHel (sub left_ w) p v pos' start ltac:(lia) Ha Hl) as [Hb' He].
      split; [lia | assumption].
    + (* parseTerm *)
      intros pos v pos' H. simpl in H.
      apply bind_ret in H. destruct H as ([w p] & Hf & Hl).
      destruct (IHf _ _ _ Hf) as [Hb (f & F1 & F2 & F3)].
      assert (Ha : accepted_term s pos p w) by (exists (TFactor f); auto).
      destruct (IHtl w p v pos' pos ltac:(lia) Ha Hl) as [Hb' He].
      split; [lia | assumption].
    + (* parseTerm_loop *)
      intros left_ pos v pos' start Hs (t & T1 & T2 & T3) H. simpl in H.
      destruct (pos <? length s) eqn:El;
        [| injection H as <- <-; split; [lia | now exists t]].
      destruct (char_is s pos "*") eqn:Ep.
      { apply bind_ret in H. destruct H as ([w p] & Hf & Hl).
        destruct (IHf _ _ _ Hf) as [Hb (f & F1 & F2 & F3)].
        assert (Ha : accepted_term s start p (mul left_ w)).
        { exists (TMul t f). cbn [text_term value_term well_formed_term].
        rewrite T1, T2, F1, F2. repeat split; try assumption.
        rewrite <- (substring_app s (a := start) (b := pos) (c := p)) by lia.
        f_equal.
        rewrite <- (substring_app s (a := pos) (b := S pos) (c := p)) by lia.
        now rewrite (substring_one _ _ (char_is_nth _ _ _ Ep)). }
        destruct (IHtl (mul left_ w) p v pos' start ltac:(lia) Ha Hl) as [Hb' He].
        split; [lia | assumption]. }
      destruct (char_is s pos "/") eqn:Ed;
        [| injection H as <- <-; split; [lia | now exists t]].
      apply bind_ret in H. destruct H as ([w p] & Hf & Hl).
      destruct (strict_eq w zero) eqn:Ez; [discriminate |].
      destruct (IHf _ _ _ Hf) as [Hb (f & F1 & F2 & F3)].
      assert (Ha : accepted_term s start p (div left_ w)).
      { exists (TDiv t f). cbn [text_term value_term well_formed_term].
      rewrite T1, T2, F1, F2. repeat split; try assumption.
      rewrite <- (substring_app s (a := start) (b := pos) (c := p)) by lia.
      f_equal.
      rewrite <- (substring_app s (a := pos) (b := S pos) (c := p)) by lia.
      now rewrite (substring_one _ _ (char_is_nth _ _ _ Ed)). }
      destruct (IHtl (div left_ w) p v pos' start ltac:(lia) Ha Hl) as [Hb' He].
      split; [lia | assumption].
    + (* parseFactor *)
      intros pos v pos' H.
      destruct (char_is s pos "(") eqn:Ep.
      * simpl in H. rewrite Ep in H.
        apply bind_ret in H. destruct H as ([w p] & He & Hc).
        destruct (char_is s p ")") eqn:Ec; [| discriminate].
        injection Hc as <- <-.
        destruct (IHe _ _ _ He) as [Hb (e & E1 & E2 & E3)].
        pose proof (char_is_lt _ _ _ Ec) as Hp.
        split; [lia |].
        exists (FParen e). cbn [text_factor value_factor well_formed_factor].
        repeat split; try assumption.
        rewrite <- (substring_app s (a := pos) (b := S pos) (c := S p)) by lia.
        rewrite (substring_one _ _ (char_is_nth _ _ _ Ep)). simpl. f_equal.
        rewrite <- (substring_app s (a := S pos) (b := p) (c := S p)) by lia.
        now rewrite E1, (substring_one _ _ (char_is_nth _ _ _ Ec)).
      * destruct (accepted_number n pos Ep H) as [Hb Ha].
        split; [lia | assumption].
Qed.

(** On what the evaluator accepts: the whole text is a tree. *)
Lemma evaluateExpression_accepts v :
  evaluateExpression s = Ret v ->
  exists e, text_expr e = s /\ value_expr e = v /\ well_formed_expr e.
Proof.
  unfold evaluateExpression. intros H.
  apply bind_ret in H. destruct H as ([w p] & He & Hc).
  destruct (p =? length s) eqn:E; [| discriminate].
  apply Nat.eqb_eq in E. subst p. injection Hc as <-.
  destruct (proj1 (accepts_all _) _ _ _ He) as [_ (e & E1 & E2 & E3)].
  exists e. rewrite E1, substring_all. auto.
Qed.

End Accepts.

(** ** Matched parentheses *)

Lemma nesting_literal l rest d :
  number_literal l -> nesting (l ++ rest) d = nesting rest d.
Proof.
  intros [_ H]. induction l as [| c l IH]; [reflexivity |].
  simpl app. cbn [nesting].
  assert (Hc : In c (js "0123456789.")) by (apply H; now left).
  cbn [js list_ascii_of_string map In] in Hc.
  replace (c =? ch "(")%N with false
    by (repeat (destruct Hc as [<- | Hc]; [reflexivity |]); contradiction).
  replace (c =? ch ")")%N with false
    by (repeat (destruct Hc as [<- | Hc]; [reflexivity |]); contradiction).
  apply IH. intros x Hx. apply H. now right.
Qed.

Lemma nesting_text :
  (forall e, well_formed_expr e ->
             forall rest d, nesting (text_expr e ++ rest) d = nesting rest d)
  /\ (forall t, well_formed_term t ->
                forall rest d, nesting (text_term t ++ rest) d = nesting rest d)
  /\ (forall f, well_formed_factor f ->
                forall rest d, nesting (text_factor f ++ rest) d = nesting rest d).
Proof.
  apply grammar_ind; cbn [text_expr text_term text_factor
                          well_formed_expr well_formed_term well_formed_factor].
  - auto.
  - intros e IHe t IHt [He Ht] rest d.
    rewrite <- app_assoc, IHe by assumption. simpl app. cbn [nesting].
    change (ch "+" =? ch "(")%N with false. change (ch "+" =? ch ")")%N with false.
    now apply IHt.
  - intros e IHe t IHt [He Ht] rest d.
    rewrite <- app_assoc, IHe by assumption. simpl app. cbn [nesting].
    change (ch "-" =? ch "(")%N with false. change (ch "-" =? ch ")")%N with false.
    now apply IHt.
  - auto.
  - intros t IHt f IHf [Ht Hf] rest d.
    rewrite <- app_assoc, IHt by assumption. simpl app. cbn [nesting].
    change (ch "*" =? ch "(")%N with false. change (ch "*" =? ch ")")%N with false.
    now apply IHf.
  - intros t IHt f IHf (Ht & Hf & _) rest d.
    rewrite <- app_assoc, IHt by assumption. simpl app. cbn [nesting].
    change (ch "/" =? ch "(")%N with false. change (ch "/" =? ch ")")%N with false.
    now apply IHf.
  - intros l Hl rest d. now apply nesting_literal.
  - intros e IHe He rest d. simpl app. cbn [nesting].
    change (ch "(" =? ch "(")%N with true. cbv iota.
    rewrite <- app_assoc, IHe by assumption. simpl app. cbn [nesting].
    change (ch ")" =? ch "(")%N with false. change (ch ")" =? ch ")")%N with true.
    reflexivity.
Qed.

Lemma calculate_result_inv expression o :
  calculate expression = Some o -> result o <> None ->
  exists v,
    evaluateExpression (remove_whitespace expression) = Ret v
    /\ o = formatResult v
    /\ only_allowed_chars (remove_whitespace expression) = true
    /\ length (remove_whitespace expression) <= 100
    /\ slash_zero (remove_whitespace expression) = false.
Proof.
  unfold calculate. intros H Hr.
  destruct (only_allowed_chars _) eqn:E1; simpl in H;
    [| injection H as <-; now elim Hr].
  destruct (100 <? _) eqn:E2; [injection H as <-; now elim Hr |].
  destruct (slash_zero _) eqn:E3; [injection H as <-; now elim Hr |].
  destruct (evaluateExpression _) as [v | m |] eqn:E4;
    [| injection H as <-; now elim Hr | discriminate].
  injection H as <-. apply Nat.ltb_ge in E2. exists v. auto.
Qed.

(** X5: a result is returned only when the sanitized input is the text
    of a tree of the grammar in which no divisor evaluates to zero, and
    it is the formatted value of that tree. *)
Theorem X5_result_only_for_grammar expression o :
  calculate expression = Some o -> result o <> None ->
  exists e,
    well_formed_expr e
    /\ remove_whitespace expression = text_expr e
    /\ o = formatResult (value_expr e).
Proof.
  intros H Hr.
  destruct (calculate_result_inv expression H Hr) as (v & Hv & -> & _).
  destruct (evaluateExpression_accepts _ Hv) as (e & E1 & E2 & E3).
  exists e. rewrite E1, E2. auto.
Qed.

Lemma X5_witness :
  exists e,
    well_formed_expr e
    /\ remove_whitespace (js "2 * (3 + 4)") = text_expr e
    /\ {| result := Some (of_Z 14); error := None |}
       = formatResult (value_expr e).
Proof.
  apply (@X5_result_only_for_grammar (js "2 * (3 + 4)")
           {| result := Some (of_Z 14); error := None |}).
  - reflexivity.
  - discriminate.
Defined.

(** X6: a result is returned only when the parentheses of the input are
    matched: scanning it, the depth never falls below zero and ends at
    zero. *)
Theorem X6_result_only_when_matched expression o :
  calculate expression = Some o -> result o <> None ->
  nesting (remove_whitespace expression) 0 = Some 0.
Proof.
  intros H Hr.
  destruct (calculate_result_inv expression H Hr) as (v & Hv & _).
  destruct (evaluateExpression_accepts _ Hv) as (e & E1 & _ & E3).
  rewrite <- E1, <- (app_nil_r (text_expr e)).
  now rewrite (proj1 nesting_text e E3).
Qed.

Lemma X6_witness : nesting (remove_whitespace (js "((1 + 2) * (3))")) 0 = Some 0.
Proof.
  apply (@X6_result_only_when_matched (js "((1 + 2) * (3))")
           {| result := Some (of_Z 9); error := None |}).
  - reflexivity.
  - discriminate.
Defined.

(** X4: whenever a rule returns, the cursor has moved forward and is not
    beyond the end of the expression. *)
Theorem X4_cursor_moves_forward s fuel pos v pos' :
  parseExpression s fuel pos = Ret (v, pos')
  \/ parseTerm s fuel pos = Ret (v, pos')
  \/ parseFactor s fuel pos = Ret (v, pos') ->
  pos < pos' <= length s.
Proof.
  destruct (accepts_all s fuel) as (He & _ & Ht & _ & Hf).
  intros [H | [H | H]].
  - now destruct (He _ _ _ H).
  - now destruct (Ht _ _ _ H).
  - now destruct (Hf _ _ _ H).
Qed.

Lemma X4_witness : 2 < 7 <= length (js "1+(2*3)-4").
Proof.
  apply (@X4_cursor_moves_forward (js "1+(2*3)-4") 9 2 (of_Z 6) 7).
  right. left. reflexivity.
Defined.

(** ** Evaluation of a tree with its exceptions *)

Lemma run_defined :
  (forall e, run_expr e <> OutOfFuel) /\ (forall t, run_term t <> OutOfFuel)
  /\ (forall f, run_factor f <> OutOfFuel).
Proof.
  apply grammar_ind; cbn [run_expr run_term run_factor]; try discriminate; auto.
  - intros e IHe t IHt. destruct (run_expr e); simpl; try congruence.
    destruct (run_term t); simpl; congruence.
  - intros e IHe t IHt. destruct (run_expr e); simpl; try congruence.
    destruct (run_term t); simpl; congruence.
  - intros t IHt f IHf. destruct (run_term t); simpl; try congruence.
    destruct (run_factor f); simpl; congruence.
  - intros t IHt f IHf. destruct (run_term t); simpl; try congruence.
    destruct (run_factor f) as [b | |]; simpl; try congruence.
    destruct (strict_eq b zero); congruence.
Qed.

Section ThrowSteps.

Variable s : jsstring.

Lemma parseExpression_first_throws f pos m :
  parseTerm s f pos = Throw m -> parseExpression s (S f) pos = Throw m.
Proof. intros H. simpl. now rewrite H. Qed.

Lemma parseTerm_first_throws f pos m :
  parseFactor s f pos = Throw m -> parseTerm s (S f) pos = Throw m.
Proof. intros H. simpl. now rewrite H. Qed.

Lemma parseExpression_loop_throws f v pos m :
  pos < length s ->
  char_is s pos "+" = true
  \/ (char_is s pos "+" = false /\ char_is s pos "-" = true) ->
  parseTerm s f (S pos) = Throw m ->
  parseExpression_loop s (S f) v pos = Throw m.
Proof.
  intros Hp Hc H. simpl. apply Nat.ltb_lt in Hp. rewrite Hp.
  destruct Hc as [-> | [-> ->]]; now rewrite H.
Qed.

Lemma parseTerm_loop_throws f v pos m :
  pos < length s ->
  char_is s pos "*" = true
  \/ (char_is s pos "*" = false /\ char_is s pos "/" = true) ->
  parseFactor s f (S pos) = Throw m ->
  parseTerm_loop s (S f) v pos = Throw m.
Proof.
  intros Hp Hc H. simpl. apply Nat.ltb_lt in Hp. rewrite Hp.
  destruct Hc as [-> | [-> ->]]; now rewrite H.
Qed.

Lemma parseTerm_loop_zero f v w pos pos' :
  pos < length s -> char_is s pos "*" = false -> char_is s pos "/" = true ->
  parseFactor s f (S pos) = Ret (w, pos') -> strict_eq w zero = true ->
  parseTerm_loop s (S f) v pos = Throw "Division by zero".
Proof.
  intros Hp Hc Hc' H Hz. simpl. apply Nat.ltb_lt in Hp.
  rewrite Hp, Hc, Hc', H. simpl. now rewrite Hz.
Qed.

Lemma parseFactor_paren_throws f pos m :
  char_is s pos "(" = true ->
  parseExpression s f (S pos) = Throw m ->
  parseFactor s (S f) pos = Throw m.
Proof. intros Hc H. simpl. now rewrite Hc, H. Qed.

End ThrowSteps.

(** A term followed by neither [*] nor [/] stops at its end. *)
Lemma term_runs_whole t s pre rest :
  term_runs t ->
  s = pre ++ text_term t ++ rest ->
  literals_term t -> follows of_term rest ->
  exists fuel,
    parseTerm s fuel (length pre)
    = stops_with (run_term t) (length pre + length (text_term t)).
Proof.
  intros IH Hs Hl Hrest.
  apply (IH s pre rest); try assumption.
  - now apply follows_term_number.
  - pose proof (proj1 (proj2 run_defined) t).
    destruct (run_term t); simpl; congruence.
  - destruct (run_term t) as [v | m |] eqn:E; simpl.
    + exists 1. rewrite Hs, app_assoc, <- length_app.
      now apply parseTerm_loop_done.
    + reflexivity.
    + now apply (proj1 (proj2 run_defined) t).
Qed.

Lemma grammar_runs :
  (forall e, expr_runs e) /\ (forall t, term_runs t) /\ (forall f, factor_runs f).
Proof.
  apply grammar_ind.
  - (* ETerm *)
    intros t IH s pre rest r Hs Hl Hrest Hr H. cbn [text_expr run_expr] in *.
    destruct (@term_runs_whole t s pre rest IH Hs Hl Hrest) as [f2 H2].
    destruct (run_term t) as [v | m |]; simpl in H, H2.
    + destruct H as [f1 H1]. eapply parseExpression_start; eassumption.
    + subst r. exists (S f2). now apply parseExpression_first_throws.
    + contradiction.
  - (* EAdd *)
    intros e IHe t IHt s pre rest r Hs [Hle Hlt] Hrest Hr H.
    cbn [text_expr run_expr] in *.
    assert (Hs1 : s = pre ++ text_expr e ++ (ch "+" :: text_term t ++ rest))
      by (rewrite Hs, <- app_assoc; reflexivity).
    assert (Hs2 : s = (pre ++ text_expr e ++ [ch "+"]) ++ text_term t ++ rest)
      by (rewrite Hs, <- !app_assoc; reflexivity).
    assert (Hs3 : s = (pre ++ text_expr e) ++ ch "+" :: text_term t ++ rest)
      by (rewrite Hs1, app_assoc; reflexivity).
    destruct (@term_runs_whole t s _ rest IHt Hs2 Hlt Hrest) as [f2 H2].
    replace (length (pre ++ text_expr e ++ [ch "+"]))
      with (S (length (pre ++ text_expr e))) in H2 by cursor_eq.
    assert (Hp : length (pre ++ text_expr e) < length s)
      by (rewrite Hs3; cursor_eq).
    assert (Hc : char_is s (length (pre ++ text_expr e)) "+" = true)
      by (rewrite Hs3, char_is_at; reflexivity).
    apply (IHe s pre _ r Hs1 Hle); [reflexivity | assumption |].
    rewrite <- length_app.
    destruct (run_expr e) as [a | m |]; simpl in H |- *; try assumption.
    destruct (run_term t) as [b | m |]; simpl in H, H2.
    + destruct H as [f1 H1].
      apply parseExpression_loop_add with f1 f2 b
        (S (length (pre ++ text_expr e)) + length (text_term t));
        try assumption.
      rewrite <- H1. f_equal. cursor_eq.
    + subst r. exists (S f2). apply parseExpression_loop_throws; auto.
    + contradiction.
  - (* ESub *)
    intros e IHe t IHt s pre rest r Hs [Hle Hlt] Hrest Hr H.
    cbn [text_expr run_expr] in *.
    assert (Hs1 : s = pre ++ text_expr e ++ (ch "-" :: text_term t ++ rest))
      by (rewrite Hs, <- app_assoc; reflexivity).
    assert (Hs2 : s = (pre ++ text_expr e ++ [ch "-"]) ++ text_term t ++ rest)
      by (rewrite Hs, <- !app_assoc; reflexivity).
    assert (Hs3 : s = (pre ++ text_expr e) ++ ch "-" :: text_term t ++ rest)
      by (rewrite Hs1, app_assoc; reflexivity).
    destruct (@term_runs_whole t s _ rest IHt Hs2 Hlt Hrest) as [f2 H2].
    replace (length (pre ++ text_expr e ++ [ch "-"]))
      with (S (length (pre ++ text_expr e))) in H2 by cursor_eq.
    assert (Hp : length (pre ++ text_expr e) < length s)
      by (rewrite Hs3; cursor_eq).
    assert (Hc : char_is s (length (pre ++ text_expr e)) "+" = false)
      by (rewrite Hs3, char_is_at; reflexivity).
    assert (Hc' : char_is s (length (pre ++ text_expr e)) "-" = true)
      by (rewrite Hs3, char_is_at; reflexivity).
    apply (IHe s pre _ r Hs1 Hle); [reflexivity | assumption |].
    rewrite <- length_app.
    destruct (run_expr e) as [a | m |]; simpl in H |- *; try assumption.
    destruct (run_term t) as [b | m |]; simpl in H, H2.
    + destruct H as [f1 H1].
      apply parseExpression_loop_sub with f1 f2 b
        (S (length (pre ++ text_expr e)) + length (text_term t));
        try assumption.
      rewrite <- H1. f_equal. cursor_eq.
    + subst r. exists (S f2). apply parseExpression_loop_throws; auto.
    + contradiction.
  - (* TFactor *)
    intros f IH s pre rest r Hs Hl Hrest Hr H. cbn [text_term run_term] in *.
    destruct (IH s pre rest Hs Hl Hrest) as [f2 H2].
    destruct (run_factor f) as [v | m |]; simpl in H, H2.
    + destruct H as [f1 H1]. eapply parseTerm_start; eassumption.
    + subst r. exists (S f2). now apply parseTerm_first_throws.
    + contradiction.
  - (* TMul *)
    intros t IHt f IHf s pre rest r Hs [Hlt Hlf] Hrest Hr H.
    cbn [text_term run_term] in *.
    assert (Hs1 : s = pre ++ text_term t ++ (ch "*" :: text_factor f ++ rest))
      by (rewrite Hs, <- app_assoc; reflexivity).
    assert (Hs2 : s = (pre ++ text_term t ++ [ch "*"]) ++ text_factor f ++ rest)
      by (rewrite Hs, <- !app_assoc; reflexivity).
    assert (Hs3 : s = (pre ++ text_term t) ++ ch "*" :: text_factor f ++ rest)
      by (rewrite Hs1, app_assoc; reflexivity).
    destruct (IHf s _ rest Hs2 Hlf Hrest) as [f2 H2].
    replace (length (pre ++ text_term t ++ [ch "*"]))
      with (S (length (pre ++ text_term t))) in H2 by cursor_eq.
    assert (Hp : length (pre ++ text_term t) < length s)
      by (rewrite Hs3; cursor_eq).
    assert (Hc : char_is s (length (pre ++ text_term t)) "*" = true)
      by (rewrite Hs3, char_is_at; reflexivity).
    apply (IHt s pre _ r Hs1 Hlt); [reflexivity | assumption |].
    rewrite <- length_app.
    destruct (run_term t) as [a | m |]; simpl in H |- *; try assumption.
    destruct (run_factor f) as [b | m |]; simpl in H, H2.
    + destruct H as [f1 H1].
      apply parseTerm_loop_mul with f1 f2 b
        (S (length (pre ++ text_term t)) + length (text_factor f));
        try assumption.
      rewrite <- H1. f_equal. cursor_eq.
    + subst r. exists (S f2). apply parseTerm_loop_throws; auto.
    + contradiction.
  - (* TDiv *)
    intros t IHt f IHf s pre rest r Hs [Hlt Hlf] Hrest Hr H.
    cbn [text_term run_term] in *.
    assert (Hs1 : s = pre ++ text_term t ++ (ch "/" :: text_factor f ++ rest))
      by (rewrite Hs, <- app_assoc; reflexivity).
    assert (Hs2 : s = (pre ++ text_term t ++ [ch "/"]) ++ text_factor f ++ rest)
      by (rewrite Hs, <- !app_assoc; reflexivity).
    assert (Hs3 : s = (pre ++ text_term t) ++ ch "/" :: text_factor f ++ rest)
      by (rewrite Hs1, app_assoc; reflexivity).
    destruct (IHf s _ rest Hs2 Hlf Hrest) as [f2 H2].
    replace (length (pre ++ text_term t ++ [ch "/"]))
      with (S (length (pre ++ text_term t))) in H2 by cursor_eq.
    assert (Hp : length (pre ++ text_term t) < length s)
      by (rewrite Hs3; cursor_eq).
    assert (Hc : char_is s (length (pre ++ text_term t)) "*" = false)
      by (rewrite Hs3, char_is_at; reflexivity).
    assert (Hc' : char_is s (length (pre ++ text_term t)) "/" = true)
      by (rewrite Hs3, char_is_at; reflexivity).
    apply (IHt s pre _ r Hs1 Hlt); [reflexivity | assumption |].
    rewrite <- length_app.
    destruct (run_term t) as [a | m |]; simpl in H |- *; try assumption.
    destruct (run_factor f) as [b | m |]; simpl in H, H2.
    + destruct (strict_eq b zero) eqn:Ez; simpl in H.
      * subst r. exists (S f2). eapply parseTerm_loop_zero; eassumption.
      * destruct H as [f1 H1].
        apply parseTerm_loop_div with f1 f2 b
          (S (length (pre ++ text_term t)) + length (text_factor f));
          try assumption.
        rewrite <- H1. f_equal. cursor_eq.
    + subst r. exists (S f2). apply parseTerm_loop_throws; auto.
    + contradiction.
  - (* FNum *)
    intros l s pre rest Hs Hl Hrest. simpl in *.
    exists 1. rewrite Hs. now apply parseFactor_literal.
  - (* FParen *)
    intros e IH s pre rest Hs Hl Hrest. cbn [text_factor run_factor] in *.
    assert (Hs1 : s = (pre ++ [ch "("]) ++ text_expr e ++ (ch ")" :: rest))
      by (rewrite Hs; simpl; rewrite <- !app_assoc; reflexivity).
    assert (Hs2 : s = ((pre ++ [ch "("]) ++ text_expr e) ++ ch ")" :: rest)
      by (rewrite Hs1, <- !app_assoc; reflexivity).
    assert (Hs3 : s = pre ++ ch "(" :: text_expr e ++ ch ")" :: rest)
      by (rewrite Hs1, <- !app_assoc; reflexivity).
    pose proof (proj1 run_defined e) as Hd.
    destruct (IH s _ _ (stops_with (run_expr e)
                          (length (pre ++ [ch "("]) + length (text_expr e)))
                Hs1 Hl) as [f2 H2].
    { reflexivity. }
    { destruct (run_expr e); simpl; congruence. }
    { destruct (run_expr e) as [v | m |]; simpl; [| reflexivity | congruence].
      exists 1. rewrite Hs2 at 1. rewrite <- length_app.
      now apply parseExpression_loop_done. }
    replace (length (pre ++ [ch "("])) with (S (length pre)) in H2 by cursor_eq.
    assert (Hc : char_is s (length pre) "(" = true)
      by (rewrite Hs3, char_is_at; reflexivity).
    exists (S f2).
    destruct (run_expr e) as [v | m |]; cbn [stops_with] in H2 |- *.
    + replace (length pre + length (ch "(" :: text_expr e ++ [ch ")"]))
        with (S (S (length pre) + length (text_expr e)))
        by (simpl; rewrite !length_app; simpl; lia).
      apply parseFactor_paren; try assumption.
      replace (S (length pre) + length (text_expr e))
        with (length ((pre ++ [ch "("]) ++ text_expr e)) by cursor_eq.
      rewrite Hs2 at 1. rewrite char_is_at. reflexivity.
    + now apply parseFactor_paren_throws.
    + congruence.
Qed.

Lemma well_formed_literals :
  (forall e, well_formed_expr e -> literals_expr e)
  /\ (forall t, well_formed_term t -> literals_term t)
  /\ (forall f, well_formed_factor f -> literals_factor f).
Proof.
  apply grammar_ind; cbn [well_formed_expr well_formed_term well_formed_factor
                          literals_expr literals_term literals_factor];
    intuition.
Qed.

(** With its numbers in order, a tree either has all its divisors
    different from zero and evaluates to its value, or has a divisor
    equal to zero and throws. *)
Lemma run_outcome :
  (forall e, literals_expr e ->
             (well_formed_expr e /\ run_expr e = Ret (value_expr e))
             \/ (~ well_formed_expr e /\ run_expr e = Throw "Division by zero"))
  /\ (forall t, literals_term t ->
                (well_formed_term t /\ run_term t = Ret (value_term t))
                \/ (~ well_formed_term t
                    /\ run_term t = Throw "Division by zero"))
  /\ (forall f, literals_factor f ->
                (well_formed_factor f /\ run_factor f = Ret (value_factor f))
                \/ (~ well_formed_factor f
                    /\ run_factor f = Throw "Division by zero")).
Proof.
  apply grammar_ind;
    cbn [well_formed_expr well_formed_term well_formed_factor
         literals_expr literals_term literals_factor
         run_expr run_term run_factor value_expr value_term value_factor].
  - auto.
  - intros e IHe t IHt [He Ht].
    destruct (IHe He) as [[H1 ->] | [H1 ->]]; [| right; split; [tauto | reflexivity]].
    destruct (IHt Ht) as [[H2 ->] | [H2 ->]]; [| right; split; [tauto | reflexivity]].
    left. split; [tauto | reflexivity].
  - intros e IHe t IHt [He Ht].
    destruct (IHe He) as [[H1 ->] | [H1 ->]]; [| right; split; [tauto | reflexivity]].
    destruct (IHt Ht) as [[H2 ->] | [H2 ->]]; [| right; split; [tauto | reflexivity]].
    left. split; [tauto | reflexivity].
  - auto.
  - intros t IHt f IHf [Ht Hf].
    destruct (IHt Ht) as [[H1 ->] | [H1 ->]]; [| right; split; [tauto | reflexivity]].
    destruct (IHf Hf) as [[H2 ->] | [H2 ->]]; [| right; split; [tauto | reflexivity]].
    left. split; [tauto | reflexivity].
  - intros t IHt f IHf [Ht Hf].
    destruct (IHt Ht) as [[H1 ->] | [H1 ->]]; [| right; split; [tauto | reflexivity]].
    destruct (IHf Hf) as [[H2 ->] | [H2 ->]]; [| right; split; [tauto | reflexivity]].
    simpl. destruct (strict_eq (value_factor f) zero) eqn:Ez.
    + right. split; [| reflexivity]. intros (_ & _ & H). congruence.
    + left. split; [tauto | reflexivity].
  - intros l Hl. left. auto.
  - auto.
Qed.

Lemma text_allowed_literals :
  (forall e, literals_expr e ->
             text_expr e <> []
             /\ forall c, In c (text_expr e) -> allowed_char c = true)
  /\ (forall t, literals_term t ->
                text_term t <> []
                /\ forall c, In c (text_term t) -> allowed_char c = true)
  /\ (forall f, literals_factor f ->
                text_factor f <> []
                /\ forall c, In c (text_factor f) -> allowed_char c = true).
Proof.
  assert (Hop : forall (a b : jsstring) (o c : N),
             allowed_char o = true ->
             (forall x, In x a -> allowed_char x = true) ->
             (forall x, In x b -> allowed_char x = true) ->
             In c (a ++ o :: b) -> allowed_char c = true).
  { intros a b o c Ho Ha Hb Hc. apply in_app_or in Hc.
    destruct Hc as [Hc | [<- | Hc]]; auto. }
  apply grammar_ind; cbn [text_expr text_term text_factor
                          literals_expr literals_term literals_factor].
  - auto.
  - intros e IHe t IHt [He Ht].
    destruct (IHe He) as [H1 H2], (IHt Ht) as [H3 H4]. split.
    + intros E. apply app_eq_nil in E. now destruct E.
    + intros c. now apply Hop.
  - intros e IHe t IHt [He Ht].
    destruct (IHe He) as [H1 H2], (IHt Ht) as [H3 H4]. split.
    + intros E. apply app_eq_nil in E. now destruct E.
    + intros c. now apply Hop.
  - auto.
  - intros t IHt f IHf [Ht Hf].
    destruct (IHt Ht) as [H1 H2], (IHf Hf) as [H3 H4]. split.
    + intros E. apply app_eq_nil in E. now destruct E.
    + intros c. now apply Hop.
  - intros t IHt f IHf [Ht Hf].
    destruct (IHt Ht) as [H1 H2], (IHf Hf) as [H3 H4]. split.
    + intros E. apply app_eq_nil in E. now destruct E.
    + intros c. now apply Hop.
  - intros l [Hne Hl]. split; [assumption |].
    intros c Hc. apply allowed_char_spec. specialize (Hl c Hc).
    cbn [js list_ascii_of_string map In] in *. tauto.
  - intros e IHe He. destruct (IHe He) as [H1 H2]. split; [discriminate |].
    intros c [<- | Hc]; [reflexivity |].
    apply in_app_or in Hc. destruct Hc as [Hc | [<- | []]]; auto.
Qed.

(** On the text of a tree the evaluator does what the tree does. *)
Lemma evaluateExpression_runs e :
  literals_expr e -> evaluateExpression (text_expr e) = run_expr e.
Proof.
  intros Hl. pose proof (proj1 run_defined e) as Hd.
  destruct (proj1 grammar_runs e (text_expr e) [] []
              (stops_with (run_expr e) (length (text_expr e))))
    as [fuel H]; try (exact I || assumption).
  - now rewrite app_nil_r.
  - destruct (run_expr e); simpl; congruence.
  - destruct (run_expr e) as [v | m |]; simpl; [| reflexivity | congruence].
    exists 1. rewrite <- (app_nil_r (text_expr e)) at 1.
    now apply parseExpression_loop_done.
  - unfold evaluateExpression. simpl length in H.
    rewrite (parseExpression_at_enough_fuel _ _ H)
      by (destruct (run_expr e); simpl; congruence).
    destruct (run_expr e) as [v | m |]; simpl; [| reflexivity | congruence].
    now rewrite Nat.eqb_refl.
Qed.

(** X7: when the sanitized input is the text of a tree in which some
    divisor evaluates to zero, is at most 100 characters long and does
    not contain ["/0"], the evaluator throws ["Division by zero"] and the
    answer is the invalid-expression error. *)
Theorem X7_zero_divisor_is_invalid expression e :
  remove_whitespace expression = text_expr e ->
  literals_expr e -> ~ well_formed_expr e ->
  length (text_expr e) <= 100 ->
  ~ (exists a b, text_expr e = a ++ js "/0" ++ b) ->
  evaluateExpression (text_expr e) = Throw "Division by zero"
  /\ calculate expression = Some (failure ERROR_INVALID_EXPRESSION).
Proof.
  intros Hs Hl Hwf Hlen Hno.
  assert (Hrun : evaluateExpression (text_expr e) = Throw "Division by zero").
  { rewrite (evaluateExpression_runs e Hl).
    destruct (proj1 run_outcome e Hl) as [[H _] | [_ H]]; [contradiction | assumption]. }
  split; [assumption |].
  destruct (proj1 text_allowed_literals e Hl) as [Hne Hall].
  rewrite calculate_evaluates; rewrite Hs.
  - now rewrite Hrun.
  - destruct (text_expr e) as [| c r] eqn:E; [now elim Hne |].
    unfold only_allowed_chars. apply forallb_forall. exact Hall.
  - assumption.
  - destruct (slash_zero (text_expr e)) eqn:Ez; [| reflexivity].
    elim Hno. apply slash_zero_inv; [| assumption].
    intros c Hc. rewrite <- Hs in Hc.
    now apply remove_whitespace_no_space with expression.
Qed.

Lemma X7_witness :
  evaluateExpression (js "8/(2-2)+1") = Throw "Division by zero"
  /\ calculate (js "8 / (2 - 2) + 1") = Some (failure ERROR_INVALID_EXPRESSION).
Proof.
  apply (@X7_zero_divisor_is_invalid (js "8 / (2 - 2) + 1") eight_by_nothing).
  - reflexivity.
  - cbn. repeat split; try discriminate;
      intros c Hc; cbn in Hc;
      repeat (destruct Hc as [<- | Hc]; [cbn; tauto |]); contradiction.
  - cbn [eight_by_nothing well_formed_expr well_formed_term well_formed_factor].
    intros [(_ & _ & H) _]. vm_compute in H. discriminate H.
  - vm_compute. lia.
  - apply no_slash_zero_checked. reflexivity.
Defined.

(** ** Facts on the storage *)

Import JsText Storage.
Open Scope Z_scope.

(** ** The map *)

Lemma get_set_same (V : Type) (k : Z) (v : V) (m : JsMap.t V) :
  JsMap.get k (JsMap.set k v m) = Some v.
Proof.
  induction m as [| [k0 v0] r IH]; simpl.
  - now rewrite Z.eqb_refl.
  - destruct (Z.eqb_spec k0 k) as [E | E]; simpl.
    + subst. now rewrite Z.eqb_refl.
    + destruct (Z.eqb_spec k0 k); [contradiction | exact IH].
Qed.

Lemma get_set_other (V : Type) (k k' : Z) (v : V) (m : JsMap.t V) :
  k' <> k -> JsMap.get k' (JsMap.set k v m) = JsMap.get k' m.
Proof.
  intros N. induction m as [| [k0 v0] r IH]; simpl.
  - destruct (Z.eqb_spec k k'); [congruence | reflexivity].
  - destruct (Z.eqb_spec k0 k) as [E | E]; simpl.
    + subst. destruct (Z.eqb_spec k k'); [congruence | reflexivity].
    + now rewrite IH.
Qed.

Lemma set_fresh (V : Type) (k : Z) (v : V) (m : JsMap.t V) :
  JsMap.get k m = None -> JsMap.set k v m = m ++ [(k, v)].
Proof.
  induction m as [| [k0 v0] r IH]; simpl; intros H.
  - reflexivity.
  - destruct (Z.eqb_spec k0 k); [discriminate |]. now rewrite IH.
Qed.

Lemma keys_set_present (V : Type) (k : Z) (v w : V) (m : JsMap.t V) :
  JsMap.get k m = Some w -> JsMap.keys (JsMap.set k v m) = JsMap.keys m.
Proof.
  induction m as [| [k0 v0] r IH]; simpl; intros H.
  - discriminate.
  - destruct (Z.eqb_spec k0 k); simpl; [reflexivity |].
    f_equal. now apply IH.
Qed.


Lemma get_none_keys (V : Type) (k : Z) (m : JsMap.t V) :
  JsMap.get k m = None <-> ~ In k (JsMap.keys m).
Proof.
  induction m as [| [k0 v0] r IH]; simpl.
  - tauto.
  - destruct (Z.eqb_spec k0 k); split; intros H.
    + discriminate.
    + exfalso. apply H. now left.
    + intros [E | E]; [congruence | now apply IH in E].
    + apply IH. intros E. apply H. now right.
Qed.

Lemma get_In (V : Type) (k : Z) (v : V) (m : JsMap.t V) :
  JsMap.get k m = Some v -> In (k, v) m.
Proof.
  induction m as [| [k0 v0] r IH]; simpl; [discriminate |].
  destruct (Z.eqb_spec k0 k); intros H.
  - left. congruence.
  - right. now apply IH.
Qed.

Lemma sorted_head_fresh (k : Z) (l : list Z) :
  StronglySorted Z.lt (k :: l) -> ~ In k l.
Proof.
  intros S I. inversion S as [| ? ? _ F]; subst.
  rewrite Forall_forall in F. specialize (F _ I). lia.
Qed.

Lemma In_get (V : Type) (k : Z) (v : V) (m : JsMap.t V) :
  StronglySorted Z.lt (JsMap.keys m) -> In (k, v) m -> JsMap.get k m = Some v.
Proof.
  induction m as [| [k0 v0] r IH]; simpl; intros S I; [contradiction |].
  destruct I as [E | I].
  - inversion E; subst. now rewrite Z.eqb_refl.
  - destruct (Z.eqb_spec k0 k) as [E | E].
    + subst. exfalso. apply (@sorted_head_fresh _ _ S).
      change (In (fst (k, v)) (map fst r)). now apply in_map.
    + apply IH; [now inversion S | exact I].
Qed.


Lemma sorted_app_last (l : list Z) (k : Z) :
  StronglySorted Z.lt l -> Forall (fun x => x < k) l ->
  StronglySorted Z.lt (l ++ [k]).
Proof.
  induction 1 as [| a l S IH F]; simpl; intros B.
  - constructor; constructor.
  - inversion B; subst. constructor.
    + now apply IH.
    + apply Forall_app. split; [exact F | now repeat constructor].
Qed.

Lemma keyed_bound (V : Type) (key_of : V -> Z) (next : Z) (m : JsMap.t V) :
  keyed key_of next m -> Forall (fun x => x < next) (JsMap.keys m).
Proof.
  intros [_ F]. unfold JsMap.keys. apply Forall_map.
  eapply Forall_impl; [| exact F]. now intros ? [? _].
Qed.

Lemma keyed_fresh (V : Type) (key_of : V -> Z) (next : Z) (m : JsMap.t V) :
  keyed key_of next m -> JsMap.get next m = None.
Proof.
  intros K. apply get_none_keys. intros I.
  pose proof (@keyed_bound _ _ _ _ K) as B. rewrite Forall_forall in B.
  specialize (B _ I). lia.
Qed.

Lemma keyed_create (V : Type) (key_of : V -> Z) (next : Z) (v : V)
  (m : JsMap.t V) :
  keyed key_of next m -> key_of v = next ->
  keyed key_of (next + 1) (JsMap.set next v m).
Proof.
  intros K E. rewrite set_fresh by exact (@keyed_fresh _ _ _ _ K).
  pose proof (@keyed_bound _ _ _ _ K) as B. destruct K as [S F]. split.
  - unfold JsMap.keys. rewrite map_app. now apply sorted_app_last.
  - apply Forall_app. split.
    + eapply Forall_impl; [| exact F]. simpl. intros ? [? ?]. split; [lia | assumption].
    + repeat constructor; simpl; [lia | exact E].
Qed.

Lemma keyed_get (V : Type) (key_of : V -> Z) (next : Z) (m : JsMap.t V)
  (k : Z) (v : V) :
  keyed key_of next m -> JsMap.get k m = Some v -> key_of v = k /\ k < next.
Proof.
  intros [_ F] G. apply get_In in G. rewrite Forall_forall in F.
  destruct (F _ G) as [? ?]. simpl in *. now split.
Qed.

Lemma set_present_entries (V : Type) (P : Z * V -> Prop) (k : Z) (v : V)
  (m : JsMap.t V) :
  Forall P m -> P (k, v) -> Forall P (JsMap.set k v m).
Proof.
  induction m as [| [k0 v0] r IH]; simpl; intros F H.
  - now repeat constructor.
  - inversion F; subst. destruct (Z.eqb_spec k0 k).
    + subst. now constructor.
    + constructor; [assumption | now apply IH].
Qed.

Lemma keyed_replace (V : Type) (key_of : V -> Z) (next : Z) (m : JsMap.t V)
  (k : Z) (v w : V) :
  keyed key_of next m -> JsMap.get k m = Some w -> key_of v = k ->
  keyed key_of next (JsMap.set k v m).
Proof.
  intros K G E. destruct (@keyed_get _ _ _ _ _ _ K G) as [_ B]. destruct K as [S F]. split.
  - now rewrite (@keys_set_present _ k v w m G).
  - apply set_present_entries; [exact F | now split].
Qed.

Lemma delete_keeps (V : Type) (P : Z * V -> Prop) (k : Z) (m : JsMap.t V) :
  Forall P m -> Forall P (JsMap.delete k m).
Proof.
  induction m as [| [k0 v0] r IH]; simpl; intros F; [constructor |].
  inversion F; subst. destruct (Z.eqb_spec k0 k); [assumption |].
  constructor; [assumption | now apply IH].
Qed.

Lemma delete_sorted (V : Type) (k : Z) (m : JsMap.t V) :
  StronglySorted Z.lt (JsMap.keys m) ->
  StronglySorted Z.lt (JsMap.keys (JsMap.delete k m)).
Proof.
  induction m as [| [k0 v0] r IH]; simpl; intros S; [constructor |].
  inversion S as [| ? ? S' F]; subst.
  destruct (Z.eqb_spec k0 k); [assumption |]. simpl. constructor.
  - now apply IH.
  - change (Forall (Z.lt k0) (map fst (JsMap.delete k r))).
    apply Forall_map.
    apply (@delete_keeps V (fun x => k0 < fst x) k r).
    exact (proj1 (Forall_map fst (Z.lt k0) r) F).
Qed.

Lemma keyed_delete (V : Type) (key_of : V -> Z) (next : Z) (m : JsMap.t V)
  (k : Z) :
  keyed key_of next m -> keyed key_of next (JsMap.delete k m).
Proof.
  intros [S F]. split; [now apply delete_sorted | now apply delete_keeps].
Qed.

Lemma keyed_empty (V : Type) (key_of : V -> Z) (next : Z) :
  keyed key_of next (@JsMap.empty V).
Proof. split; constructor. Qed.

(** ** The storage keeps its maps keyed *)

Lemma run_consistent (st : MemStorage) (op : operation) :
  consistent st -> consistent (run st op).
Proof.
  intros (U & C & L). destruct op; simpl.
  - split; [| split]; simpl; try assumption. now apply keyed_create.
  - split; [| split]; simpl; try assumption. now apply keyed_create.
  - unfold updateCommand.
    destruct (JsMap.get id_ (botCommands st)) as [existing |] eqn:G; simpl.
    + split; [| split]; simpl; try assumption.
      eapply keyed_replace; [exact C | exact G |].
      simpl. now destruct (@keyed_get _ _ _ _ _ _ C G).
    + now split; [| split].
  - split; [| split]; simpl; try assumption. now apply keyed_delete.
  - unfold incrementCommandUsage.
    destruct (JsMap.get id_ (botCommands st)) as [existing |] eqn:G; simpl.
    + split; [| split]; simpl; try assumption.
      eapply keyed_replace; [exact C | exact G |].
      simpl. now destruct (@keyed_get _ _ _ _ _ _ C G).
    + now split; [| split].
  - split; [| split]; simpl; try assumption. now apply keyed_create.
  - split; [| split]; simpl; try assumption. apply keyed_empty.
Qed.

Lemma newStorage_consistent : consistent newStorage.
Proof.
  split; [| split]; simpl.
  - apply keyed_empty.
  - apply (@keyed_create _ id 1 _ JsMap.empty); [apply keyed_empty | reflexivity].
  - apply keyed_empty.
Qed.

Lemma run_all_consistent (ops : list operation) (st : MemStorage) :
  consistent st -> consistent (run_all ops st).
Proof.
  revert st. induction ops as [| op r IH]; simpl; intros st H; [exact H |].
  apply IH. now apply run_consistent.
Qed.

Lemma reachable_consistent (st : MemStorage) : reachable st -> consistent st.
Proof.
  intros [ops ->]. apply run_all_consistent, newStorage_consistent.
Qed.

(** ** Identifiers *)






(** ** Commands *)




Lemma find_first (A : Type) (f : A -> bool) (l : list A) (x : A) :
  find f l = Some x ->
  exists a b, l = a ++ x :: b /\ f x = true /\ forall y, In y a -> f y = false.
Proof.
  induction l as [| h r IH]; simpl; [discriminate |].
  destruct (f h) eqn:E; intros H.
  - injection H as <-. exists [], r. repeat split; [exact E | intros ? []].
  - destruct (IH H) as (a & b & -> & Fx & Fa). exists (h :: a), b.
    repeat split; [exact Fx |]. intros y [<- | I]; [exact E | now apply Fa].
Qed.

Lemma string_eqb_spec (a b : jsstring) : string_eqb a b = true <-> a = b.
Proof.
  unfold string_eqb. destruct (list_eq_dec N.eq_dec a b); split; congruence.
Qed.

Lemma string_eqb_false (a b : jsstring) : string_eqb a b = false <-> a <> b.
Proof.
  unfold string_eqb. destruct (list_eq_dec N.eq_dec a b); split; congruence.
Qed.

Lemma sorted_app_order (a b : list Z) (x y : Z) :
  StronglySorted Z.lt (a ++ x :: b) -> In y b -> x < y.
Proof.
  induction a as [| h a IH]; simpl; intros S I.
  - inversion S as [| ? ? _ F]; subst. rewrite Forall_forall in F. now apply F.
  - inversion S; subst. now apply IH.
Qed.

Lemma keyed_values (V : Type) (key_of : V -> Z) (next : Z) (m : JsMap.t V) :
  keyed key_of next m -> JsMap.keys m = map key_of (JsMap.values m).
Proof.
  intros [_ F]. unfold JsMap.keys, JsMap.values. rewrite map_map.
  apply map_ext_in. intros e I. rewrite Forall_forall in F.
  now destruct (F e I).
Qed.

Lemma keyed_stored (V : Type) (key_of : V -> Z) (next : Z) (m : JsMap.t V)
  (v : V) :
  keyed key_of next m -> In v (JsMap.values m) -> JsMap.get (key_of v) m = Some v.
Proof.
  intros K I. unfold JsMap.values in I. apply in_map_iff in I.
  destruct I as ([k w] & E & I). simpl in E. subst w.
  destruct K as [S F]. rewrite Forall_forall in F.
  destruct (F _ I) as [_ E]. simpl in E. rewrite E.
  now apply In_get.
Qed.

(** X10: [getCommandByName] finds, among the stored commands with that
    name, the one with the smallest identifier, and nothing exactly when
    no stored command has the name. *)
Theorem X10_command_by_name (st : MemStorage) (name_ : jsstring) :
  reachable st ->
  match getCommandByName name_ st with
  | Some found =>
      name found = name_ /\
      getCommand (id found) st = Some found /\
      forall other, In other (getCommands st) -> name other = name_ ->
                    id found <= id other
  | None => forall other, In other (getCommands st) -> name other <> name_
  end.
Proof.
  intros R. apply reachable_consistent in R. destruct R as (_ & C & _).
  unfold getCommandByName, getCommand, getCommands.
  destruct (find _ _) as [found |] eqn:F.
  - destruct (find_first _ _ F) as (a & b & E & N & Fa).
    apply string_eqb_spec in N.
    assert (I : In found (JsMap.values (botCommands st))).
    { rewrite E. apply in_or_app. right. now left. }
    split; [exact N |]. split.
    + eapply keyed_stored; eassumption.
    + intros other Io No. rewrite E in Io.
      apply in_app_or in Io. destruct Io as [Io | [<- | Io]].
      * apply Fa in Io. apply string_eqb_false in Io. contradiction.
      * lia.
      * destruct C as [S K].
        assert (Ek : JsMap.keys (botCommands st)
                     = map id (JsMap.values (botCommands st))).
        { eapply keyed_values. split; eassumption. }
        rewrite Ek, E, map_app in S. simpl in S.
        enough (id found < id other) by lia.
        eapply sorted_app_order; [exact S | now apply in_map].
  - intros other Io. apply string_eqb_false.
    exact (find_none _ _ F other Io).
Qed.

Lemma X10_witness :
  getCommand 1 newStorage = getCommandByName (js "repeat") newStorage.
Proof.
  pose proof (@X10_command_by_name newStorage (js "repeat")) as H.
  assert (R : reachable newStorage) by (exists []; reflexivity).
  specialize (H R). simpl in H. symmetry. exact (proj1 (proj2 H)).
Defined.






(** X13: [updateCommand] of an identifier that is not stored changes
    nothing and returns nothing.  Otherwise it returns the stored command
    with the given properties replaced: the identifier and the usage count
    stay, the commands keep their order, and the other commands are as
    before. *)
Theorem X13_update_command (st : MemStorage) (k : Z)
  (partialCommand : PartialCommand) :
  reachable st ->
  match getCommand k st with
  | None => updateCommand k partialCommand st = (None, st)
  | Some existing =>
      let updated := merge existing partialCommand in
      let st' := snd (updateCommand k partialCommand st) in
      fst (updateCommand k partialCommand st) = Some updated /\
      getCommand k st' = Some updated /\
      id updated = k /\ usageCount updated = usageCount existing /\
      map id (getCommands st') = map id (getCommands st) /\
      (forall k', k' <> k -> getCommand k' st' = getCommand k' st)
  end.
Proof.
  intros R. apply reachable_consistent in R. pose proof R as R0.
  destruct R as (_ & C & _).
  unfold getCommand, updateCommand.
  destruct (JsMap.get k (botCommands st)) as [existing |] eqn:G; [| reflexivity].
  simpl. destruct (@keyed_get _ _ _ _ _ _ C G) as [Ek Bk].
  split; [reflexivity |]. split; [apply get_set_same |].
  split; [exact Ek |]. split; [reflexivity |]. split.
  - assert (C' : keyed id (currentCommandId st)
                   (JsMap.set k (merge existing partialCommand) (botCommands st))).
    { eapply keyed_replace; [exact C | exact G | exact Ek]. }
    unfold getCommands. simpl.
    rewrite <- (@keyed_values _ _ _ _ C'), <- (@keyed_values _ _ _ _ C).
    eapply keys_set_present. exact G.
  - intros k' N. now apply get_set_other.
Qed.

Lemma X13_witness :
  option_map cooldown
    (getCommand 1 (snd (updateCommand 1 (only_cooldown 30) newStorage)))
  = Some 30 /\
  updateCommand 7 (only_cooldown 30) newStorage = (None, newStorage).
Proof.
  assert (R : reachable newStorage) by (exists []; reflexivity).
  split.
  - exact (f_equal (option_map cooldown)
             (proj1 (proj2
                (@X13_update_command newStorage 1 (only_cooldown 30) R)))).
  - exact (@X13_update_command newStorage 7 (only_cooldown 30) R).
Defined.

(** ** Usage counts *)





(** ** Pages of the log *)

Lemma insert_sorted_perm (A : Type) (compare : A -> A -> Z) (x : A)
  (l : list A) :
  Permutation (insert_sorted compare x l) (x :: l).
Proof.
  induction l as [| y r IH]; simpl; [reflexivity |].
  destruct (compare x y <=? 0); [reflexivity |].
  rewrite IH. apply perm_swap.
Qed.

Lemma sort_perm (A : Type) (compare : A -> A -> Z) (l : list A) :
  Permutation (sort compare l) l.
Proof.
  induction l as [| x r IH]; simpl; [reflexivity |].
  rewrite insert_sorted_perm. now constructor.
Qed.

Lemma insert_sorted_newest_first (x : CommandLog) (l : list CommandLog) :
  StronglySorted newest_first l ->
  StronglySorted newest_first (insert_sorted by_timestamp x l).
Proof.
  induction 1 as [| y r S IH F]; simpl.
  - constructor; constructor.
  - unfold by_timestamp at 1. destruct (Z.leb_spec (timestamp y - timestamp x) 0).
    + constructor; [now constructor |]. constructor.
      * unfold newest_first. lia.
      * eapply Forall_impl; [| exact F]. unfold newest_first. intros; lia.
    + constructor; [exact IH |].
      rewrite Forall_forall. intros z I.
      apply (Permutation_in _ (insert_sorted_perm by_timestamp x r)) in I.
      destruct I as [<- | I].
      * unfold newest_first. lia.
      * rewrite Forall_forall in F. now apply F.
Qed.

Lemma sort_newest_first (l : list CommandLog) :
  StronglySorted newest_first (sort by_timestamp l).
Proof.
  induction l as [| x r IH]; simpl; [constructor |].
  now apply insert_sorted_newest_first.
Qed.

Lemma firstn_min_length (A : Type) (n : nat) (l : list A) :
  firstn (Nat.min n (length l)) l = firstn n l.
Proof.
  destruct (Nat.le_ge_cases n (length l)) as [H | H].
  - now rewrite Nat.min_l.
  - rewrite Nat.min_r by exact H. now rewrite firstn_all, firstn_all2.
Qed.

Lemma slice_page (A : Type) (l : list A) (offset limit : Z) :
  0 <= offset -> 0 <= limit ->
  slice l (Some offset) (plus (Some offset) (Some limit)) =
  firstn (Z.to_nat limit) (skipn (Z.to_nat offset) l).
Proof.
  intros Ho Hl. unfold slice, plus, slice_index.
  destruct (Z.ltb_spec offset 0); [lia |].
  destruct (Z.ltb_spec (offset + limit) 0); [lia |].
  destruct (Nat.le_gt_cases (length l) (Z.to_nat offset)) as [L | L].
  - rewrite (Nat.min_r (Z.to_nat offset)) by exact L.
    rewrite (Nat.min_r (Z.to_nat (offset + limit))) by lia.
    rewrite Nat.sub_diag. simpl.
    rewrite (skipn_all2 l) by exact L. now rewrite firstn_nil.
  - rewrite (Nat.min_l (Z.to_nat offset)) by lia.
    rewrite <- (firstn_min_length (Z.to_nat limit)). f_equal.
    rewrite length_skipn. lia.
Qed.

Lemma StronglySorted_firstn (A : Type) (R : A -> A -> Prop) (n : nat)
  (l : list A) :
  StronglySorted R l -> StronglySorted R (firstn n l).
Proof.
  intros S. revert n. induction S as [| x l S IH F]; intros [| n]; simpl;
    try constructor.
  - apply IH.
  - rewrite Forall_forall in *. intros y I. apply F.
    rewrite <- (firstn_skipn n l). apply in_or_app. now left.
Qed.

Lemma StronglySorted_skipn (A : Type) (R : A -> A -> Prop) (n : nat)
  (l : list A) :
  StronglySorted R l -> StronglySorted R (skipn n l).
Proof.
  intros S. revert n. induction S as [| x l S IH F]; intros [| n]; simpl;
    try (constructor; assumption).
  apply IH.
Qed.

Lemma In_firstn_skipn (A : Type) (a b : nat) (l : list A) (x : A) :
  In x (firstn a (skipn b l)) -> In x l.
Proof.
  intros I. rewrite <- (firstn_skipn b l). apply in_or_app. right.
  rewrite <- (firstn_skipn a (skipn b l)). apply in_or_app. now left.
Qed.

Lemma getCommandLogs_page (st : MemStorage) (limit offset : Z) :
  0 <= limit -> 0 <= offset ->
  getCommandLogs (Some (Some limit)) (Some (Some offset)) st =
  firstn (Z.to_nat limit) (skipn (Z.to_nat offset) (all_logs st)).
Proof.
  intros Hl Ho. unfold getCommandLogs. simpl or_default.
  now apply slice_page.
Qed.

(** X15: with a limit and an offset that are not negative,
    [getCommandLogs] returns at most [limit] stored entries, newest
    first, and the page that starts where this one ends continues it: the
    two together are the page of both limits. *)
Theorem X15_log_pages (st : MemStorage) (limit offset : Z) :
  0 <= limit -> 0 <= offset ->
  let page := getCommandLogs (Some (Some limit)) (Some (Some offset)) st in
  (length page <= Z.to_nat limit)%nat /\
  StronglySorted (fun a b => timestamp b <= timestamp a) page /\
  (forall entry, In entry page ->
     In entry (JsMap.values (botCommandLogs st))) /\
  (forall more, 0 <= more ->
     page ++ getCommandLogs (Some (Some more)) (Some (Some (offset + limit))) st
     = getCommandLogs (Some (Some (limit + more))) (Some (Some offset)) st) /\
  (offset = 0 -> Z.of_nat (length (botCommandLogs st)) <= limit ->
   Permutation page (JsMap.values (botCommandLogs st))).
Proof.
  intros Hl Ho. simpl. rewrite getCommandLogs_page by assumption.
  split; [| split; [| split; [| split]]].
  - apply firstn_le_length.
  - apply StronglySorted_firstn, StronglySorted_skipn.
    apply (sort_newest_first (JsMap.values (botCommandLogs st))).
  - intros entry I. apply In_firstn_skipn in I.
    apply (Permutation_in _ (sort_perm by_timestamp _)) in I.
    exact I.
  - intros more Hm. rewrite !getCommandLogs_page by lia.
    rewrite Z2Nat.inj_add by lia. rewrite Z2Nat.inj_add by lia.
    rewrite Nat.add_comm, <- skipn_skipn.
    apply firstn_firstn_skipn.
  - intros -> Hn. simpl. rewrite firstn_all2.
    + apply sort_perm.
    + unfold all_logs. rewrite (Permutation_length (sort_perm _ _)).
      unfold JsMap.values. rewrite length_map. lia.
Qed.

Lemma X15_witness :
  map log_id (getCommandLogs (Some (Some 1)) (Some (Some 0)) three_entries) ++
  map log_id (getCommandLogs (Some (Some 5)) (Some (Some 1)) three_entries)
  = [2; 3; 1].
Proof.
  rewrite <- map_app.
  transitivity
    (map log_id (getCommandLogs (Some (Some 6)) (Some (Some 0)) three_entries));
    [| reflexivity].
  apply f_equal.
  exact (proj1 (proj2 (proj2 (proj2
    (@X15_log_pages three_entries 1 0 ltac:(lia) ltac:(lia))))) 5 ltac:(lia)).
Defined.

(** X16: a limit or an offset that is not a number gives an empty page.
    A negative limit with offset 0 does not: it leaves out that many of the
    oldest entries and returns all the others, newest first. *)
Theorem X16_limits_that_are_no_count (st : MemStorage) (n : Z)
  (other : option Z) :
  0 < n ->
  getCommandLogs (Some None) (Some other) st = [] /\
  getCommandLogs (Some other) (Some None) st = [] /\
  getCommandLogs (Some (Some (- n))) (Some (Some 0)) st =
    firstn (length (botCommandLogs st) - Z.to_nat n)
      (getCommandLogs (Some (Some (Z.of_nat (length (botCommandLogs st)))))
         (Some (Some 0)) st).
Proof.
  intros Hn. split; [| split].
  - unfold getCommandLogs, slice. simpl or_default.
    replace (plus other None) with (@None Z) by now destruct other.
    reflexivity.
  - unfold getCommandLogs, slice. simpl or_default. simpl plus.
    simpl slice_index. now rewrite Nat.sub_0_r.
  - rewrite (@getCommandLogs_page st (Z.of_nat (length (botCommandLogs st))) 0)
      by lia.
    simpl skipn. unfold getCommandLogs, slice. simpl or_default. fold (all_logs st).
    assert (L : length (all_logs st) = length (botCommandLogs st)).
    { unfold all_logs. rewrite (Permutation_length (sort_perm _ _)).
      unfold JsMap.values. apply length_map. }
    unfold plus, slice_index. simpl Z.add.
    destruct (Z.ltb_spec 0 0); [lia |].
    destruct (Z.ltb_spec (- n) 0); [| lia].
    simpl Z.to_nat. simpl Nat.min. rewrite Nat.sub_0_r. simpl skipn.
    change (sort _ _) with (all_logs st).
    rewrite L, Nat2Z.id, firstn_firstn. f_equal. lia.
Qed.

Lemma X16_witness :
  map log_id (getCommandLogs (Some (Some (- 1))) (Some (Some 0)) three_entries)
  = [2; 3].
Proof.
  transitivity
    (map log_id
       (firstn 2
          (getCommandLogs (Some (Some 3)) (Some (Some 0)) three_entries)));
    [| reflexivity].
  apply f_equal.
  exact (proj2 (proj2
    (@X16_limits_that_are_no_count three_entries 1 None ltac:(lia)))).
Defined.

Close Scope Z_scope.

(** ** Facts on the text of commands *)

Lemma trim_start_nil (s : jsstring) :
  trim_start s = [] <-> forall c, In c s -> is_space c = true.
Proof.
  induction s as [| c r IH]; simpl.
  - split; [intros _ ? [] | reflexivity].
  - destruct (is_space c) eqn:E.
    + rewrite IH. split.
      * intros H d [<- | I]; [exact E | now apply H].
      * intros H d I. apply H. now right.
    + split; [discriminate |]. intros H.
      rewrite (H c) in E by now left. discriminate.
Qed.

Lemma trim_start_head (s : jsstring) (c : N) (r : jsstring) :
  trim_start s = c :: r -> is_space c = false.
Proof.
  induction s as [| d t IH]; simpl; [discriminate |].
  destruct (is_space d) eqn:E; [exact IH |].
  intros H. injection H as <- _. exact E.
Qed.

Lemma trim_start_suffix (s : jsstring) : exists w, s = w ++ trim_start s.
Proof.
  induction s as [| d t [w IH]]; simpl.
  - now exists [].
  - destruct (is_space d).
    + exists (d :: w). simpl. now rewrite <- IH.
    + now exists [].
Qed.

Lemma trim_end_nil (s : jsstring) :
  trim_end s = [] <-> forall c, In c s -> is_space c = true.
Proof.
  induction s as [| c r IH]; simpl.
  - split; [intros _ ? [] | reflexivity].
  - destruct (trim_end r) as [| k kept] eqn:T.
    + destruct (is_space c) eqn:E.
      * split; [| reflexivity].
        intros _ d [<- | I]; [exact E | now apply (proj1 IH)].
      * split; [discriminate |]. intros H.
        rewrite (H c) in E by now left. discriminate.
    + split; [discriminate |]. intros H.
      assert (N : k :: kept = []) by (apply IH; intros d I; apply H; now right).
      discriminate N.
Qed.

(** What [trimEnd] keeps ends in a character that is no whitespace. *)
Lemma trim_end_last (s a : jsstring) (c : N) :
  trim_end s = a ++ [c] -> is_space c = false.
Proof.
  revert a. induction s as [| d r IH]; simpl; intros a H.
  - now destruct a.
  - destruct (trim_end r) as [| k kept] eqn:T.
    + destruct (is_space d) eqn:E; [now destruct a |].
      destruct a as [| x a].
      * injection H as <-. exact E.
      * injection H as _ H. now destruct a.
    + destruct a as [| x a].
      * discriminate H.
      * injection H as _ H. now apply (IH a).
Qed.

Lemma trim_end_fixed (a : jsstring) (c : N) :
  is_space c = false -> trim_end (a ++ [c]) = a ++ [c].
Proof.
  intros E. induction a as [| d a IH]; simpl.
  - now rewrite E.
  - rewrite IH. now destruct a.
Qed.

Lemma trim_end_head (c : N) (r : jsstring) :
  is_space c = false -> trim_end (c :: r) = c :: trim_end r.
Proof.
  intros E. simpl. destruct (trim_end r); [now rewrite E | reflexivity].
Qed.

Lemma trim_nil (s : jsstring) :
  trim s = [] <-> forall c, In c s -> is_space c = true.
Proof.
  unfold trim. split.
  - intros H. apply trim_start_nil.
    destruct (trim_start s) as [| c r] eqn:T; [reflexivity |].
    rewrite trim_end_head in H by (eapply trim_start_head; exact T).
    discriminate H.
  - intros H. apply trim_start_nil in H. now rewrite H.
Qed.

Lemma trim_fixed (s : jsstring) (H : trimmed s) : trim s = s.
Proof.
  destruct H as [-> | (f & m & l & [[-> ->] | ->] & Ef & El)];
    [reflexivity | |]; unfold trim; simpl; rewrite Ef.
  - simpl. now rewrite Ef.
  - change (f :: m ++ [l]) with ((f :: m) ++ [l]). now apply trim_end_fixed.
Qed.

Lemma trim_ends (s a : jsstring) (c : N) :
  trim s = a ++ [c] -> is_space c = false.
Proof. unfold trim. apply trim_end_last. Qed.

Lemma truthy_trim (s : jsstring) (c : N) :
  In c s -> is_space c = false -> truthy (trim s) = true.
Proof.
  intros I E. destruct (trim s) eqn:T; [| reflexivity].
  pose proof (proj1 (trim_nil s) T c I) as S. congruence.
Qed.

Lemma starts_with_app (p s : jsstring) :
  starts_with p s = true -> s = p ++ skipn (length p) s.
Proof.
  revert s. induction p as [| a p IH]; intros [| c r]; simpl; try easy.
  intros H. apply andb_prop in H. destruct H as [E H].
  apply N.eqb_eq in E. subst. f_equal. now apply IH.
Qed.

(** After a prefix that ends in a space, a trimmed text goes on with a
    character that is no whitespace. *)
Lemma rest_of_trimmed (raw p rest : jsstring) :
  trim raw = (p ++ [space]) ++ rest ->
  exists c, In c rest /\ is_space c = false.
Proof.
  intros H. destruct rest as [| c a _] using rev_ind.
  - rewrite app_nil_r in H. now apply trim_ends in H.
  - exists c. split; [apply in_or_app; right; now left |].
    rewrite app_assoc in H. now apply trim_ends in H.
Qed.

Lemma index_of_found (c : N) (s : jsstring) (i : nat) :
  index_of c s = Some i ->
  s = firstn i s ++ c :: skipn (i + 1) s /\ ~ In c (firstn i s).
Proof.
  revert i. induction s as [| d r IH]; simpl; intros i H; [discriminate |].
  destruct (N.eqb_spec d c) as [-> | N].
  - injection H as <-. simpl. now split.
  - destruct (index_of c r) as [j |]; [| discriminate].
    injection H as <-. destruct (IH j eq_refl) as [E F]. simpl. split.
    + now rewrite <- E.
    + intros [G | G]; [contradiction | now apply F].
Qed.

Lemma index_of_none (c : N) (s : jsstring) :
  index_of c s = None <-> ~ In c s.
Proof.
  induction s as [| d r IH]; simpl; [tauto |].
  destruct (N.eqb_spec d c) as [-> | N].
  - split; [discriminate | intros H; exfalso; apply H; now left].
  - destruct (index_of c r) as [j |].
    + split; [discriminate |]. intros H. exfalso.
      assert (Q : ~ In c r) by (intros I; apply H; now right).
      apply IH in Q. discriminate Q.
    + split; [| reflexivity]. intros _ [G | G]; [contradiction |].
      now apply (proj1 IH).
Qed.

(** ** The handler of text messages and the test of commands *)

(** X17: the handler of text messages never sends one of its hints
    "Please provide ...": it trims the message first, so after [/repeat ],
    [/calculate ] or [/dm ] there is always a text to work on. *)
Theorem X17_hints_never_sent (toString : number -> jsstring)
  (authorIsBot mayManageMessages : bool) (messageContent : jsstring) :
  let action :=
    Bot.onMessageCreate toString authorIsBot mayManageMessages messageContent in
  action <> Some Bot.RepeatHint /\
  action <> Some Bot.CalculateHint /\
  action <> Some Bot.DmHint.
Proof.
  simpl. unfold Bot.onMessageCreate.
  destruct authorIsBot; [repeat split; discriminate |].
  destruct (string_eqb _ (js "/joke")); [repeat split; discriminate |].
  destruct (starts_with (js "/repeat ") _) eqn:R.
  { apply starts_with_app in R.
    destruct (@rest_of_trimmed messageContent (js "/repeat") _ R) as (c & I & E).
    rewrite (@truthy_trim _ _ I E). repeat split; discriminate. }
  destruct (starts_with (js "/calculate ") _) eqn:C.
  { apply starts_with_app in C.
    destruct (@rest_of_trimmed messageContent (js "/calculate") _ C)
      as (c & I & E).
    rewrite (@truthy_trim _ _ I E).
    destruct (calculate _); repeat split; discriminate. }
  destruct (string_eqb _ (js "/joinvoice")); [repeat split; discriminate |].
  destruct (string_eqb _ (js "/leavevoice")); [repeat split; discriminate |].
  destruct (starts_with (js "/dm ") _) eqn:D; [| repeat split; discriminate].
  destruct mayManageMessages; simpl negb; cbv iota;
    [| repeat split; discriminate].
  apply starts_with_app in D.
  destruct (@rest_of_trimmed messageContent (js "/dm") _ D) as (c & I & E).
  set (args := trim (skipn (length (js "/dm ")) (trim messageContent))).
  assert (A : truthy args = true) by exact (@truthy_trim _ _ I E).
  destruct (index_of space args) as [i |] eqn:X.
  - destruct (@index_of_found _ _ _ X) as [S _].
    assert (T : truthy (trim (skipn (i + 1) args)) = true).
    { destruct (skipn (i + 1) args) as [| d b _] using rev_ind.
      - exfalso. unfold args in S at 1.
        pose proof (@trim_ends _ (firstn i args) space S) as F.
        discriminate F.
      - apply (@truthy_trim _ d); [apply in_or_app; right; now left |].
        unfold args in S at 1.
        change (firstn i args ++ space :: b ++ [d])
          with (firstn i args ++ (space :: b) ++ [d]) in S.
        rewrite app_assoc in S. exact (@trim_ends _ _ _ S). }
    rewrite T. simpl negb. cbv iota.
    destruct (truthy _ && _); repeat split; discriminate.
  - rewrite A. repeat split; discriminate.
Qed.

Lemma split_whole (c : N) (s : jsstring) : ~ In c s -> split c s = [s].
Proof.
  induction s as [| d r IH]; simpl; intros H; [reflexivity |].
  destruct (N.eqb_spec d c) as [-> | N]; [exfalso; apply H; now left |].
  rewrite IH; [reflexivity |]. intros I. apply H. now right.
Qed.

Lemma split_at (c : N) (a b : jsstring) :
  ~ In c a -> split c (a ++ c :: b) = a :: split c b.
Proof.
  induction a as [| d r IH]; simpl; intros H.
  - now rewrite N.eqb_refl.
  - destruct (N.eqb_spec d c) as [-> | N]; [exfalso; apply H; now left |].
    rewrite IH; [reflexivity |]. intros I. apply H. now right.
Qed.

Lemma split_cons (c : N) (s : jsstring) :
  exists part parts, split c s = part :: parts.
Proof.
  induction s as [| d r (part & parts & IH)]; simpl; [now eauto |].
  destruct (d =? c)%N; [now eauto |]. rewrite IH. now eauto.
Qed.

Lemma join_split (c : N) (s : jsstring) : join c (split c s) = s.
Proof.
  induction s as [| d r IH]; [reflexivity |]. simpl.
  destruct (split_cons c r) as (part & parts & S). rewrite S in *.
  destruct (N.eqb_spec d c) as [-> | N].
  - change (c :: join c (part :: parts) = c :: r). now rewrite IH.
  - destruct parts as [| q qs].
    + simpl in *. now subst.
    + change (d :: (part ++ c :: join c (q :: qs)) = d :: r).
      f_equal. exact IH.
Qed.

Lemma no_space_inside (word : jsstring) :
  (forall c, In c word -> is_space c = false) -> ~ In space word.
Proof. intros H I. apply H in I. discriminate I. Qed.

Lemma word_trimmed (p word : jsstring) (first : N) :
  is_space first = false -> word <> [] ->
  (forall c, In c word -> is_space c = false) ->
  trim (first :: p ++ word) = first :: p ++ word.
Proof.
  intros F N H. apply trim_fixed. right.
  destruct word as [| l w _] using rev_ind; [contradiction |].
  exists first, (p ++ w), l. split; [right; now rewrite app_assoc |].
  split; [exact F |]. apply H. apply in_or_app. right. now left.
Qed.

Lemma plain_word_trimmed (word : jsstring) :
  (forall c, In c word -> is_space c = false) -> trim word = word.
Proof.
  intros H. apply trim_fixed. destruct word as [| f w]; [now left | right].
  destruct w as [| l m _] using rev_ind.
  - exists f, [], f. split; [now left |]. split; apply H; now left.
  - exists f, m, l. split; [now right |]. split; apply H.
    + now left.
    + right. apply in_or_app. right. now left.
Qed.

(** X18: a [/dm] with one word after it is handled differently by the
    live handler and by the test of commands.  The live handler takes the
    word as a message for every member of the server; the test answers
    that the message is missing. *)
Theorem X18_dm_with_one_word (toString : number -> jsstring)
  (joke : option jsstring) (fallbackJoke : jsstring) (now : Z)
  (storage : Storage.MemStorage) (word : jsstring) :
  word <> [] -> (forall c, In c word -> is_space c = false) ->
  Bot.onMessageCreate toString false true (js "/dm " ++ word)
    = Some (Bot.DmEveryone word) /\
  option_map Bot.status
    (Bot.testCommand toString joke fallbackJoke now storage (js "/dm " ++ word))
    = Some (js "Missing Message").
Proof.
  intros N H.
  assert (T : trim (js "/dm " ++ word) = js "/dm " ++ word).
  { apply (@word_trimmed (js "dm ") word (ch "/")); [reflexivity | assumption ..]. }
  assert (W : trim word = word).
  { now apply plain_word_trimmed. }
  assert (X : index_of space word = None)
    by now apply index_of_none, no_space_inside.
  assert (Y : truthy word = true) by now destruct word.
  split.
  - unfold Bot.onMessageCreate. rewrite T.
    replace (string_eqb (js "/dm " ++ word) (js "/joke")) with false
      by (symmetry; apply string_eqb_false; discriminate).
    replace (string_eqb (js "/dm " ++ word) (js "/joinvoice")) with false
      by (symmetry; apply string_eqb_false; discriminate).
    replace (string_eqb (js "/dm " ++ word) (js "/leavevoice")) with false
      by (symmetry; apply string_eqb_false; discriminate).
    literals. simpl. rewrite W. change 32%N with space. rewrite X. simpl.
    now rewrite Y.
  - unfold Bot.testCommand, Bot.command_name, Bot.command_parts. rewrite T.
    change (js "/dm " ++ word) with (js "/dm" ++ space :: word).
    rewrite split_at by (literals; simpl; intuition discriminate).
    rewrite split_whole by now apply no_space_inside.
    literals. simpl.
    replace (string_eqb [100; 109]%N [106; 111; 107; 101]%N) with false
      by (symmetry; apply string_eqb_false; discriminate).
    replace (string_eqb [100; 109]%N [99; 97; 108; 99; 117; 108; 97; 116; 101]%N)
      with false by (symmetry; apply string_eqb_false; discriminate).
    replace (string_eqb [100; 109]%N [100; 109]%N) with true
      by (symmetry; now apply string_eqb_spec).
    rewrite W. change 32%N with space. rewrite X. now rewrite Y.
Qed.

Lemma X18_witness :
  Bot.onMessageCreate (fun _ => []) false true (js "/dm bob")
    = Some (Bot.DmEveryone (js "bob")) /\
  option_map Bot.status
    (Bot.testCommand (fun _ => []) None [] 0 Storage.newStorage (js "/dm bob"))
    = Some (js "Missing Message").
Proof.
  apply (@X18_dm_with_one_word (fun _ => []) None [] 0 Storage.newStorage
           (js "bob")).
  - discriminate.
  - intros c I. vm_compute in I.
    destruct I as [<- | [<- | [<- | []]]]; reflexivity.
Defined.

(** X19: a message that the live handler answers with a calculation gets
    the same response and the same status from the test of commands. *)
Theorem X19_calculate_same_in_test (toString : number -> jsstring)
  (mayManageMessages : bool) (joke : option jsstring) (fallbackJoke : jsstring)
  (now : Z) (storage : Storage.MemStorage)
  (text expression response_ status_ : jsstring) :
  Bot.onMessageCreate toString false mayManageMessages text
    = Some (Bot.CalculateReply expression response_ status_) ->
  Bot.testCommand toString joke fallbackJoke now storage text
    = Some {| Bot.command := text; Bot.response := response_;
              Bot.status := status_; Bot.timestamp := now |}.
Proof.
  unfold Bot.onMessageCreate, Bot.testCommand, Bot.command_name,
    Bot.command_parts.
  set (content := trim text).
  destruct (string_eqb content (js "/joke")); [discriminate |].
  destruct (starts_with (js "/repeat ") content);
    [destruct (truthy _); discriminate |].
  destruct (starts_with (js "/calculate ") content) eqn:C.
  - apply starts_with_app in C.
    remember (skipn (length (js "/calculate ")) content) as rest eqn:R.
    clear R. intros H. rewrite C.
    change (js "/calculate " ++ rest) with (js "/calculate" ++ space :: rest).
    rewrite split_at by (literals; simpl; intuition discriminate).
    cbn [hd tl]. rewrite join_split.
    replace (starts_with (js "/") (js "/calculate")) with true by reflexivity.
    replace (skipn 1 (js "/calculate")) with (js "calculate") by reflexivity.
    replace (string_eqb (js "calculate") (js "joke")) with false
      by (symmetry; apply string_eqb_false; discriminate).
    replace (string_eqb (js "calculate") (js "calculate")) with true
      by (symmetry; now apply string_eqb_spec).
    destruct (truthy (trim rest)); [| discriminate]. simpl negb. cbv iota.
    destruct (calculate (trim rest)) as [o |]; [| discriminate].
    injection H as <- <- <-. reflexivity.
  - destruct (string_eqb content (js "/joinvoice")); [discriminate |].
    destruct (string_eqb content (js "/leavevoice")); [discriminate |].
    destruct (starts_with (js "/dm ") content); [| discriminate].
    destruct (negb mayManageMessages); [discriminate |].
    destruct (match index_of space _ with Some _ => _ | None => _ end)
      as [username messageContent_].
    destruct (negb (truthy messageContent_)); [discriminate |].
    destruct username as [name |]; [| discriminate].
    destruct (truthy name && _); discriminate.
Qed.

Lemma X19_witness :
  option_map Bot.status
    (Bot.testCommand (fun _ => []) None [] 0 Storage.newStorage
       (js " /calculate  (1+2)*3 ")) = Some (js "Success").
Proof.
  refine (f_equal (option_map Bot.status)
            (@X19_calculate_same_in_test (fun _ => []) false None [] 0
               Storage.newStorage (js " /calculate  (1+2)*3 ") (js "(1+2)*3")
               _ (js "Success") _)).
  lazy. reflexivity.
Defined.

(** X20: the test of commands runs nothing but [joke], [calculate], [dm]
    and [repeat]: for every other name the status is "Unknown Command",
    whatever commands the storage holds. *)
Theorem X20_only_four_commands (toString : number -> jsstring)
  (joke : option jsstring) (fallbackJoke : jsstring) (now : Z)
  (storage : Storage.MemStorage) (text : jsstring) :
  In (Bot.command_name text)
    [js "joke"; js "calculate"; js "dm"; js "repeat"] \/
  option_map Bot.status
    (Bot.testCommand toString joke fallbackJoke now storage text)
    = Some (js "Unknown Command").
Proof.
  unfold Bot.testCommand.
  destruct (string_eqb (Bot.command_name text) (js "joke")) eqn:J.
  { apply string_eqb_spec in J. left. rewrite J. now left. }
  destruct (string_eqb (Bot.command_name text) (js "calculate")) eqn:C.
  { apply string_eqb_spec in C. left. rewrite C. right. now left. }
  destruct (string_eqb (Bot.command_name text) (js "dm")) eqn:D.
  { apply string_eqb_spec in D. left. rewrite D. right. right. now left. }
  unfold Storage.getCommandByName.
  destruct (find _ _) as [cmd |] eqn:F; [| now right].
  apply find_some in F. destruct F as [_ F]. apply string_eqb_spec in F.
  unfold Commands.handleCommand.
  destruct (string_eqb (Storage.name cmd) (js "repeat")) eqn:R; [| now right].
  apply string_eqb_spec in R. left. rewrite <- F, R. right. right. right.
  now left.
Qed.

(** X21: for [/repeat] and a text that does not end in whitespace, the
    test of commands answers with the text as it was typed, spaces in
    front included, if the storage holds a command named [repeat], and
    with "Unknown command: /repeat" if not.  The live handler does not
    ask the storage, and repeats the trimmed text. *)
Theorem X21_repeat_in_test_and_live (toString : number -> jsstring)
  (mayManageMessages : bool) (joke : option jsstring) (fallbackJoke : jsstring)
  (now : Z) (storage : Storage.MemStorage) (front : jsstring) (last_ : N) :
  is_space last_ = false ->
  let text := front ++ [last_] in
  let message := js "/repeat " ++ text in
  Bot.testCommand toString joke fallbackJoke now storage message
    = Some {| Bot.command := message;
              Bot.response :=
                match Storage.getCommandByName (js "repeat") storage with
                | Some _ => text
                | None => js "Unknown command: /repeat"
                end;
              Bot.status :=
                match Storage.getCommandByName (js "repeat") storage with
                | Some _ => js "Success"
                | None => js "Unknown Command"
                end;
              Bot.timestamp := now |} /\
  Bot.onMessageCreate toString false mayManageMessages message
    = Some (Bot.RepeatReply (trim text)).
Proof.
  intros L. cbv zeta.
  assert (T : trim (js "/repeat " ++ front ++ [last_])
              = js "/repeat " ++ front ++ [last_]).
  { apply trim_fixed. right. exists (ch "/"), (js "repeat " ++ front), last_.
    split; [right; now rewrite <- app_assoc |]. now split. }
  assert (Y : truthy (trim (front ++ [last_])) = true).
  { apply (@truthy_trim _ last_); [apply in_or_app; right; now left | exact L]. }
  split.
  - unfold Bot.testCommand, Bot.command_name, Bot.command_parts. rewrite T.
    change (js "/repeat " ++ front ++ [last_])
      with (js "/repeat" ++ space :: (front ++ [last_])).
    rewrite split_at by (literals; simpl; intuition discriminate).
    cbn [hd tl]. rewrite join_split.
    replace (starts_with (js "/") (js "/repeat")) with true by reflexivity.
    replace (skipn 1 (js "/repeat")) with (js "repeat") by reflexivity.
    replace (string_eqb (js "repeat") (js "joke")) with false
      by (symmetry; apply string_eqb_false; discriminate).
    replace (string_eqb (js "repeat") (js "calculate")) with false
      by (symmetry; apply string_eqb_false; discriminate).
    replace (string_eqb (js "repeat") (js "dm")) with false
      by (symmetry; apply string_eqb_false; discriminate).
    destruct (Storage.getCommandByName (js "repeat") storage) as [cmd |] eqn:G;
      [| reflexivity].
    unfold Storage.getCommandByName in G. apply find_some in G.
    destruct G as [_ G]. unfold Commands.handleCommand. rewrite G.
    unfold Commands.handleRepeatCommand.
    replace (truthy (front ++ [last_])) with true by now destruct front.
    destruct (trim (front ++ [last_])) as [| k kept] eqn:E; [discriminate Y |].
    replace (string_eqb (k :: kept) []) with false
      by (symmetry; apply string_eqb_false; discriminate).
    reflexivity.
  - unfold Bot.onMessageCreate. rewrite T.
    replace (string_eqb (js "/repeat " ++ front ++ [last_]) (js "/joke"))
      with false by (symmetry; apply string_eqb_false; discriminate).
    replace (starts_with (js "/repeat ") (js "/repeat " ++ front ++ [last_]))
      with true by reflexivity.
    replace (skipn (length (js "/repeat ")) (js "/repeat " ++ front ++ [last_]))
      with (front ++ [last_]) by reflexivity.
    now rewrite Y.
Qed.

Lemma X21_witness :
  option_map Bot.response
    (Bot.testCommand (fun _ => []) None [] 0 Storage.newStorage
       (js "/repeat  hi")) = Some (js " hi") /\
  Bot.onMessageCreate (fun _ => []) false false (js "/repeat  hi")
    = Some (Bot.RepeatReply (js "hi")).
Proof.
  pose proof (@X21_repeat_in_test_and_live (fun _ => []) false None [] 0
                Storage.newStorage (js " h") (ch "i") eq_refl) as [A B].
  split.
  - exact (f_equal (option_map Bot.response) A).
  - exact B.
Defined.

Import Dm.
Open Scope Z_scope.

(** ** Facts on the direct messages to all members *)

Lemma direct_tags_app (a b : list Event) :
  direct_tags (a ++ b) = direct_tags a ++ direct_tags b.
Proof.
  induction a as [| [t x | x] a IH]; simpl; [reflexivity | now rewrite IH | exact IH].
Qed.

Lemma progress_count_app (a b : list Event) :
  progress_count (a ++ b) = (progress_count a + progress_count b)%nat.
Proof.
  induction a as [| [t x | x] a IH]; simpl; [reflexivity | exact IH | now rewrite IH].
Qed.

(** One member, when the progress channel does not fail. *)
Lemma message_member_quiet (message : jsstring)
  (progressChannel : option Channel) (r : Run) (member : Member) :
  quiet_from (sends r) progressChannel ->
  let r' := message_member message progressChannel r member in
  total (stats r') = total (stats r) /\
  sent (stats r') = sent (stats r) + (if reached member then 1 else 0) /\
  failed (stats r') = failed (stats r) + (if reached member then 0 else 1) /\
  errors (stats r') =
    errors (stats r) ++ (if reached member then [] else [failure_text member]) /\
  direct_tags (events r') = direct_tags (events r) ++ [tag member] /\
  (sends r <= sends r')%nat.
Proof.
  intros Q. unfold message_member, reached.
  destruct (delivery member) as [e |] eqn:E; simpl.
  - rewrite direct_tags_app. unfold failure_text. rewrite E. simpl.
    repeat split; lia.
  - destruct progressChannel as [channel |]; simpl.
    + destruct (Z.rem (sent (stats r) + 1) 5 =? 0); simpl.
      * rewrite (Q channel (sends r) eq_refl) by lia. simpl.
        rewrite !direct_tags_app. simpl. rewrite !app_nil_r.
        repeat split; lia.
      * rewrite direct_tags_app, app_nil_r. simpl. repeat split; lia.
    + rewrite direct_tags_app, app_nil_r. simpl. repeat split; lia.
Qed.

Lemma count_split (A : Type) (p : A -> bool) (l : list A) :
  (length (filter p l) + length (filter (fun x => negb (p x)) l))%nat = length l.
Proof.
  induction l as [| x l IH]; simpl; [reflexivity |].
  destruct (p x); simpl; lia.
Qed.

(** The loop, when the progress channel does not fail. *)
Lemma loop_quiet (message : jsstring) (progressChannel : option Channel)
  (l : list Member) (r : Run) :
  quiet_from (sends r) progressChannel ->
  let r' := fold_left (message_member message progressChannel) l r in
  total (stats r') = total (stats r) /\
  sent (stats r') = sent (stats r) + Z.of_nat (length (filter reached l)) /\
  failed (stats r') = failed (stats r) + Z.of_nat (length (filter unreached l)) /\
  errors (stats r') =
    errors (stats r) ++ map failure_text (filter unreached l) /\
  direct_tags (events r') = direct_tags (events r) ++ map tag l /\
  (sends r <= sends r')%nat.
Proof.
  revert r. induction l as [| member l IH]; intros r Q.
  - simpl. rewrite !app_nil_r. repeat split; lia.
  - destruct (@message_member_quiet message progressChannel r member Q)
      as (T & S & F & E & D & N).
    assert (Q' : quiet_from
                   (sends (message_member message progressChannel r member))
                   progressChannel).
    { intros channel n Ec Hn. apply (Q channel n Ec). lia. }
    destruct (IH _ Q') as (T' & S' & F' & E' & D' & N').
    cbn [fold_left filter]. cbv zeta in *.
    rewrite T', S', F', E', D', T, S, F, E, D. unfold unreached.
    destruct (reached member); simpl negb; cbv iota; cbn [length map];
      rewrite <- ?app_assoc, ?app_nil_r; repeat split; simpl; lia.
Qed.

(** X22: if the fetch of the members succeeds and no send on the progress
    channel fails, the function resolves, and its statistics add up: the
    total is the number of members that are no bots, each of them is
    messaged once, in order, and counted as sent or as failed, with one
    entry in [errors] for each failure. *)
Theorem X22_statistics_add_up (guild : Guild) (message : jsstring)
  (progressChannel : option Channel) :
  fetch guild = None -> quiet_from 0 progressChannel ->
  exists s evs,
    sendDirectMessageToAllMembers guild message progressChannel
      = (Resolved s, evs) /\
    total s = Z.of_nat (length (recipients guild)) /\
    sent s = Z.of_nat (length (filter reached (recipients guild))) /\
    failed s = total s - sent s /\
    errors s = map failure_text (filter unreached (recipients guild)) /\
    Z.of_nat (length (errors s)) = failed s /\
    direct_tags evs = map tag (recipients guild).
Proof.
  intros F Q. unfold sendDirectMessageToAllMembers. rewrite F.
  fold (recipients guild).
  pose proof (count_split reached (recipients guild)) as C.
  fold unreached in C.
  destruct progressChannel as [channel |].
  - unfold send_progress.
    cbn [stats total sent failed errors sends events with_stats].
    rewrite (Q channel 0%nat eq_refl) by lia.
    match goal with
    | |- context [fold_left ?f ?l ?r] =>
        assert (Q1 : quiet_from (sends r) (Some channel))
          by (intros c n Ec Hn; apply (Q c n Ec); lia);
        destruct (@loop_quiet message (Some channel) l r Q1)
          as (T & S & Fa & E & D & N);
        set (r' := fold_left f l r) in *
    end.
    cbn [stats sends events] in *.
    rewrite (Q channel (sends r') eq_refl) by lia.
    eexists. eexists. split; [reflexivity |].
    cbn [stats events]. rewrite direct_tags_app, D, T, S, Fa, E. simpl.
    rewrite app_nil_r, length_map. repeat split; lia.
  - cbn [stats total sent failed errors sends events with_stats].
    match goal with
    | |- context [fold_left ?f ?l ?r] =>
        assert (Q1 : quiet_from (sends r) None) by (intros c n Ec; discriminate);
        destruct (@loop_quiet message None l r Q1) as (T & S & Fa & E & D & N);
        set (r' := fold_left f l r) in *
    end.
    eexists. eexists. split; [reflexivity |].
    cbn [stats events] in *. rewrite D, T, S, Fa, E. simpl.
    rewrite length_map. repeat split; lia.
Qed.

Lemma X22_witness :
  exists evs,
    sendDirectMessageToAllMembers small_guild (js "hi") None
    = (Resolved {| total := 2; sent := 1; failed := 1;
                   errors := [js "Could not message bob#3: blocked"] |}, evs).
Proof.
  assert (Q : quiet_from 0 None) by (intros c n E; discriminate E).
  destruct (@X22_statistics_add_up small_guild (js "hi") None eq_refl Q)
    as (s & evs & E & _).
  exists evs. rewrite E. vm_compute in E. injection E as <- _. reflexivity.
Defined.

(** One member, whatever the progress channel does. *)
Lemma message_member_any (message : jsstring)
  (progressChannel : option Channel) (r : Run) (member : Member) :
  let r' := message_member message progressChannel r member in
  total (stats r') = total (stats r) /\
  sent (stats r) <= sent (stats r') <= sent (stats r) + 1 /\
  failed (stats r) <= failed (stats r') /\
  direct_tags (events r') = direct_tags (events r) ++ [tag member] /\
  (progress_count (events r) = sends r ->
   progress_count (events r') = sends r').
Proof.
  unfold message_member.
  destruct (delivery member) as [e |]; simpl.
  - rewrite direct_tags_app, progress_count_app. simpl.
    repeat split; lia.
  - destruct progressChannel as [channel |]; simpl.
    + destruct (Z.rem (sent (stats r) + 1) 5 =? 0); simpl.
      * destruct (channel (sends r)); simpl;
          rewrite !direct_tags_app, !progress_count_app; simpl;
          rewrite app_nil_r; repeat split; lia.
      * rewrite direct_tags_app, progress_count_app. simpl. repeat split; lia.
    + rewrite direct_tags_app, progress_count_app. simpl. repeat split; lia.
Qed.

Lemma loop_any (message : jsstring) (progressChannel : option Channel)
  (l : list Member) (r : Run) :
  let r' := fold_left (message_member message progressChannel) l r in
  total (stats r') = total (stats r) /\
  sent (stats r) <= sent (stats r') <= sent (stats r) + Z.of_nat (length l) /\
  failed (stats r) <= failed (stats r') /\
  direct_tags (events r') = direct_tags (events r) ++ map tag l /\
  (progress_count (events r) = sends r ->
   progress_count (events r') = sends r').
Proof.
  revert r. induction l as [| member l IH]; intros r.
  - simpl. rewrite app_nil_r. repeat split; lia.
  - destruct (message_member_any message progressChannel r member)
      as (T & S & F & D & N).
    destruct (IH (message_member message progressChannel r member))
      as (T' & S' & F' & D' & N').
    cbn [fold_left]. cbv zeta in *. rewrite T', D', T, D.
    cbn [length map]. rewrite <- app_assoc.
    repeat split; lia.
Qed.

(** X23: whatever fails, the function messages either nobody or every
    member that is no bot, once and in order, and never a bot (apart from
    tags that members share).  It rejects only with the error of its last send
    on the progress channel, after the fetch of the members or an earlier
    send on that channel has failed; so it always resolves without a
    progress channel.  If it resolves, [sent] is between 0 and [total], and
    [failed] is not negative. *)
Theorem X23_who_is_messaged (guild : Guild) (message : jsstring)
  (progressChannel : option Channel) :
  let run := sendDirectMessageToAllMembers guild message progressChannel in
  (direct_tags (snd run) = [] \/
   fetch guild = None /\ direct_tags (snd run) = map tag (recipients guild)) /\
  match fst run with
  | Rejected error =>
      exists channel k,
        progressChannel = Some channel /\
        progress_count (snd run) = S k /\ channel k = Some error /\
        (fetch guild <> None \/ exists n, (n < k)%nat /\ channel n <> None)
  | Resolved s =>
      total s = match fetch guild with
                | None => Z.of_nat (length (recipients guild))
                | Some _ => 0
                end /\
      0 <= sent s <= total s /\ 0 <= failed s
  end.
Proof.
  cbv zeta. unfold sendDirectMessageToAllMembers.
  fold (recipients guild).
  destruct (fetch guild) as [e |] eqn:F.
  { unfold global_error, send_progress. simpl.
    destruct progressChannel as [channel |]; simpl.
    - destruct (channel 0%nat) as [e' |] eqn:C; simpl.
      + split; [now left |]. exists channel, 0%nat.
        repeat split; [exact C | left; discriminate].
      + split; [now left |]. repeat split; lia.
    - split; [now left |]. repeat split; lia. }
  destruct progressChannel as [channel |].
  - unfold send_progress.
    cbn [stats total sent failed errors sends events with_stats].
    destruct (channel 0%nat) as [e |] eqn:C0.
    { unfold global_error, send_progress. simpl.
      destruct (channel 1%nat) as [e' |] eqn:C1; simpl.
      - split; [now left |]. exists channel, 1%nat.
        repeat split; [exact C1 | right; exists 0%nat; split; [lia | congruence]].
      - split; [now left |]. repeat split; lia. }
    match goal with
    | |- context [fold_left ?f ?l ?r] =>
        destruct (@loop_any message (Some channel) l r) as (T & Se & Fa & D & N);
        set (r' := fold_left f l r) in *
    end.
    cbn [stats total sent failed errors sends events with_stats] in *.
    specialize (N eq_refl).
    destruct (channel (sends r')) as [e |] eqn:C1.
    + unfold global_error, send_progress. cbn [stats sends events].
      destruct (channel (S (sends r'))) as [e' |] eqn:C2; cbn [fst snd].
      * rewrite !direct_tags_app, !progress_count_app, D, N. simpl.
        rewrite !app_nil_r. split; [right; now split |].
        exists channel, (S (sends r')). split; [reflexivity |].
        split; [lia |]. split; [exact C2 |]. right. exists (sends r').
        split; [lia | congruence].
      * rewrite !direct_tags_app, D. simpl. rewrite !app_nil_r.
        split; [right; now split |]. simpl. rewrite T. repeat split; lia.
    + cbn [fst snd]. rewrite direct_tags_app, D. simpl. rewrite app_nil_r.
      split; [right; now split |]. rewrite T. repeat split; lia.
  - cbn [stats total sent failed errors sends events with_stats].
    match goal with
    | |- context [fold_left ?f ?l ?r] =>
        destruct (@loop_any message None l r) as (T & Se & Fa & D & N);
        set (r' := fold_left f l r) in *
    end.
    cbn [fst snd stats total sent failed errors sends events with_stats] in *.
    rewrite D. split; [right; now split |]. rewrite T. repeat split; lia.
Qed.

Lemma all_reached (l : list Member) :
  (forall member, In member l -> delivery member = None) ->
  filter reached l = l /\ filter unreached l = [].
Proof.
  induction l as [| m l IH]; intros H; [now split |].
  destruct IH as [A B]; [intros x I; apply H; now right |].
  assert (Rm : reached m = true)
    by (unfold reached; now rewrite (H m) by now left).
  assert (Um : unreached m = false) by (unfold unreached; now rewrite Rm).
  cbn [filter]. now rewrite Rm, Um, A, B.
Qed.

(** Members that get the message, without an update of the progress. *)
Lemma loop_plain (message : jsstring) (channel : Channel) (l : list Member)
  (r : Run) :
  (forall member, In member l -> delivery member = None) ->
  0 <= sent (stats r) -> sent (stats r) + Z.of_nat (length l) < 5 ->
  let r' := fold_left (message_member message (Some channel)) l r in
  stats r' =
    {| total := total (stats r); sent := sent (stats r) + Z.of_nat (length l);
       failed := failed (stats r); errors := errors (stats r) |}
  /\ sends r' = sends r.
Proof.
  revert r. induction l as [| member l IH]; intros r H L U.
  - simpl. rewrite Z.add_0_r. now destruct (stats r).
  - cbn [fold_left]. cbv zeta.
    set (r1 := message_member message (Some channel) r member).
    assert (E : stats r1 =
                {| total := total (stats r); sent := sent (stats r) + 1;
                   failed := failed (stats r); errors := errors (stats r) |}
                /\ sends r1 = sends r).
    { unfold r1, message_member. rewrite (H member) by now left.
      cbn [stats total sent failed errors sends events with_stats].
      destruct (Z.eqb_spec (Z.rem (sent (stats r) + 1) 5) 0) as [Z | Z].
      - exfalso. rewrite Z.rem_small in Z; simpl length in U; lia.
      - now split. }
    destruct E as [E1 E2].
    destruct (IH r1) as [I1 I2].
    + intros m I. apply H. now right.
    + rewrite E1. simpl. lia.
    + rewrite E1. simpl sent. simpl length in U. lia.
    + cbv zeta in I1, I2. rewrite I1, I2, E1, E2. simpl total. simpl sent.
      simpl failed. simpl errors. split; [| reflexivity].
      f_equal. simpl length. lia.
Qed.

(** A member that gets the message, with an update that fails. *)
Lemma message_member_update_fails (message : jsstring) (channel : Channel)
  (r : Run) (member : Member) (error : jsstring) :
  delivery member = None -> Z.rem (sent (stats r) + 1) 5 = 0 ->
  channel (sends r) = Some error ->
  let r' := message_member message (Some channel) r member in
  stats r' =
    {| total := total (stats r); sent := sent (stats r) + 1;
       failed := failed (stats r) + 1;
       errors := errors (stats r) ++
                 [js "Could not message " ++ tag member ++ js ": " ++ error] |}
  /\ sends r' = S (sends r).
Proof.
  intros D N C. unfold message_member. rewrite D.
  cbn [stats total sent failed errors sends events with_stats].
  rewrite N. cbn [Z.eqb]. unfold send_progress.
  cbn [stats total sent failed errors sends events with_stats].
  rewrite C. now split.
Qed.

(** X24: a failure of the progress channel is booked as a failure of a
    member.  If every member gets the message, but the update after the
    fifth message cannot be sent, the function reports one failure, for the
    fifth member, and [sent] and [failed] together exceed [total]. *)
Theorem X24_update_failure_is_booked_on_member (guild : Guild)
  (message : jsstring) (channel : Channel) (a b c d fifth : Member)
  (others : list Member) (error : jsstring) :
  fetch guild = None ->
  recipients guild = [a; b; c; d; fifth] ++ others ->
  (forall member, In member (recipients guild) -> delivery member = None) ->
  channel 0%nat = None -> channel 1%nat = Some error ->
  (forall n, (2 <= n)%nat -> channel n = None) ->
  fst (sendDirectMessageToAllMembers guild message (Some channel)) =
  Resolved {| total := 5 + Z.of_nat (length others);
              sent := 5 + Z.of_nat (length others);
              failed := 1;
              errors := [js "Could not message " ++ tag fifth ++ js ": "
                         ++ error] |}.
Proof.
  intros F R H C0 C1 C2.
  assert (Ha : forall m, In m [a; b; c; d] -> delivery m = None).
  { intros m I. apply H. rewrite R. simpl in I. simpl. tauto. }
  assert (He : delivery fifth = None) by (apply H; rewrite R; simpl; tauto).
  assert (Ho : forall m, In m others -> delivery m = None).
  { intros m I. apply H. rewrite R. apply in_or_app. now right. }
  assert (L : length (recipients guild) = (5 + length others)%nat)
    by now rewrite R.
  change [a; b; c; d; fifth] with ([a; b; c; d] ++ [fifth]) in R.
  unfold sendDirectMessageToAllMembers. rewrite F.
  fold (recipients guild). rewrite L. rewrite R. clear R H L.
  unfold send_progress.
  cbn [stats total sent failed errors sends events with_stats].
  rewrite C0, !fold_left_app.
  match goal with
  | |- context [fold_left ?f [a; b; c; d] ?r] =>
      destruct (@loop_plain message channel [a; b; c; d] r Ha) as [S4 N4];
        [ simpl; lia | simpl; lia | ];
      set (r4 := fold_left f [a; b; c; d] r) in *
  end.
  cbn [fold_left].
  cbn [stats total sent failed errors sends events length] in S4, N4.
  assert (Z5 : Z.rem (sent (stats r4) + 1) 5 = 0) by now rewrite S4.
  assert (C5 : channel (sends r4) = Some error) by now rewrite N4.
  destruct (@message_member_update_fails message channel r4 fifth error He
              Z5 C5) as [S5 N5].
  set (r5 := message_member message (Some channel) r4 fifth) in *.
  rewrite S4 in S5. rewrite N4 in N5.
  cbn [total sent failed errors app] in S5.
  assert (Q : quiet_from (sends r5) (Some channel)).
  { intros ch n E Hn. injection E as <-. apply C2. rewrite N5 in Hn.
    exact Hn. }
  destruct (@loop_quiet message (Some channel) others r5 Q)
    as (T & S & Fa & E & _ & N).
  set (r' := fold_left (message_member message (Some channel)) others r5) in *.
  rewrite C2 by (rewrite N5 in N; exact N). cbn [fst].
  destruct (all_reached others Ho) as [A B].
  rewrite A in S. rewrite B in Fa, E. rewrite S5 in T, S, Fa, E.
  cbn [total sent failed errors length map] in T, S, Fa, E.
  rewrite app_nil_r in E.
  destruct (stats r') as [t s f es]. cbn [total sent failed errors] in *.
  subst t s f es. f_equal. f_equal; lia.
Qed.

Lemma X24_witness :
  fst (sendDirectMessageToAllMembers five_humans (js "hi")
         (Some second_send_fails)) =
  Resolved {| total := 5; sent := 5; failed := 1;
              errors := [js "Could not message e#5: Missing Access"] |}.
Proof.
  refine (@X24_update_failure_is_booked_on_member five_humans (js "hi")
            second_send_fails (human "a#1") (human "b#2") (human "c#3")
            (human "d#4") (human "e#5") [] (js "Missing Access")
            eq_refl eq_refl _ eq_refl eq_refl _).
  - intros member I. vm_compute in I.
    destruct I as [<- | [<- | [<- | [<- | [<- | []]]]]]; reflexivity.
  - intros [| [| n]] L; [lia | lia | reflexivity].
Defined.

Close Scope Z_scope.

Import Cooldowns.

(** ** Facts on the cooldowns *)

Lemma string_get_set_same (V : Type) (k : jsstring) (v : V) (m : StringMap V) :
  get k (set k v m) = Some v.
Proof.
  assert (E : string_eqb k k = true) by now apply string_eqb_spec.
  induction m as [| [k0 v0] r IH]; simpl.
  - now rewrite E.
  - destruct (string_eqb k0 k) eqn:E0; simpl; rewrite E0; [reflexivity | exact IH].
Qed.

Lemma string_get_set_other (V : Type) (k k' : jsstring) (v : V)
  (m : StringMap V) :
  k' <> k -> get k' (set k v m) = get k' m.
Proof.
  intros N. induction m as [| [k0 v0] r IH]; simpl.
  - replace (string_eqb k k') with false; [reflexivity |].
    symmetry. apply string_eqb_false. congruence.
  - destruct (string_eqb k0 k) eqn:E0; simpl.
    + apply string_eqb_spec in E0. subst k0.
      replace (string_eqb k k') with false; [reflexivity |].
      symmetry. apply string_eqb_false. congruence.
    + now rewrite IH.
Qed.

Lemma isOnCooldown_answer (userId commandName : jsstring)
  (cooldownTime now : number) (cds : Cooldowns) :
  fst (isOnCooldown userId commandName cooldownTime now cds) =
  match last_use userId commandName cds with
  | Some timestamp => lt now (add timestamp (mul cooldownTime (of_Z 1000)))
  | None => false
  end.
Proof.
  unfold isOnCooldown, last_use.
  destruct (get commandName cds) as [ts |]; [| reflexivity].
  now destruct (get userId ts).
Qed.

Lemma last_use_set (userId commandName : jsstring) (c now : number)
  (cds : Cooldowns) :
  last_use userId commandName (setCooldown userId commandName c now cds)
  = Some now.
Proof.
  unfold last_use, setCooldown.
  destruct (get commandName cds) as [ts |] eqn:G.
  - rewrite G, string_get_set_same. apply string_get_set_same.
  - now rewrite !string_get_set_same.
Qed.

Lemma last_use_other (userId commandName user command : jsstring)
  (c now : number) (cds : Cooldowns) :
  (user, command) <> (userId, commandName) ->
  last_use user command (setCooldown userId commandName c now cds)
  = last_use user command cds.
Proof.
  intros N. unfold last_use, setCooldown.
  destruct (list_eq_dec N.eq_dec command commandName) as [-> | Nc].
  - assert (Nu : user <> userId) by congruence.
    destruct (get commandName cds) as [ts |] eqn:G.
    + rewrite G, string_get_set_same. now apply string_get_set_other.
    + rewrite !string_get_set_same. now apply string_get_set_other.
  - destruct (get commandName cds) as [ts |] eqn:G.
    + rewrite G. now rewrite string_get_set_other.
    + rewrite string_get_set_same. now rewrite !string_get_set_other.
Qed.

(** ** Comparison of integers in double arithmetic *)

Lemma digits_bounds (n : positive) :
  (2 ^ (Zpos (digits2_pos n) - 1) <= Zpos n < 2 ^ Zpos (digits2_pos n))%Z.
Proof.
  rewrite digits2_log2.
  replace (Z.log2 (Zpos n) + 1 - 1)%Z with (Z.log2 (Zpos n)) by lia.
  change (Z.log2 (Zpos n) + 1)%Z with (Z.succ (Z.log2 (Zpos n))).
  apply Z.log2_spec. lia.
Qed.

Lemma canon_compare (n1 n2 : positive) :
  (Zpos n1 < 2 ^ 53)%Z -> (Zpos n2 < 2 ^ 53)%Z ->
  SFcompare (canon false n1) (canon false n2) = Some (n1 ?= n2)%positive /\
  SFcompare (canon true n1) (canon true n2)
    = Some (CompOpp (n1 ?= n2)%positive).
Proof.
  intros H1 H2. unfold canon. cbn [SFcompare].
  pose proof (digits_bounds n1) as [L1 U1].
  pose proof (digits_bounds n2) as [L2 U2].
  set (d1 := Zpos (digits2_pos n1)) in *.
  set (d2 := Zpos (digits2_pos n2)) in *.
  assert (D1 : (d1 <= 53)%Z).
  { destruct (Z.le_gt_cases d1 53) as [L | G]; [exact L | exfalso].
    assert ((2 ^ 53 <= 2 ^ (d1 - 1))%Z) by (apply Z.pow_le_mono_r; lia). lia. }
  assert (D2 : (d2 <= 53)%Z).
  { destruct (Z.le_gt_cases d2 53) as [L | G]; [exact L | exfalso].
    assert ((2 ^ 53 <= 2 ^ (d2 - 1))%Z) by (apply Z.pow_le_mono_r; lia). lia. }
  destruct (Z.compare_spec (d1 - 53) (d2 - 53)) as [E | L | G].
  - assert (E' : d2 = d1) by lia. rewrite E'.
    assert (K : (0 < 2 ^ (53 - d1))%Z) by (apply Z.pow_pos_nonneg; lia).
    assert (C : Pos.compare_cont Eq
                  (Z.to_pos (Zpos n1 * 2 ^ (53 - d1)))
                  (Z.to_pos (Zpos n2 * 2 ^ (53 - d1)))
                = (n1 ?= n2)%positive).
    { change (Pos.compare_cont Eq ?a ?b) with (a ?= b)%positive.
      rewrite <- Z2Pos.inj_compare by lia.
      change (n1 ?= n2)%positive with (Zpos n1 ?= Zpos n2)%Z.
      destruct (Z.compare_spec (Zpos n1) (Zpos n2)) as [Q | Q | Q].
      - apply Z.compare_eq_iff. congruence.
      - apply Z.compare_lt_iff. nia.
      - apply Z.compare_gt_iff. nia. }
    rewrite C. now split.
  - assert (N : (n1 ?= n2)%positive = Lt).
    { apply Pos.compare_lt_iff.
      assert ((2 ^ d1 <= 2 ^ (d2 - 1))%Z) by (apply Z.pow_le_mono_r; lia). lia. }
    rewrite N. now split.
  - assert (N : (n1 ?= n2)%positive = Gt).
    { apply Pos.compare_gt_iff.
      assert ((2 ^ d2 <= 2 ^ (d1 - 1))%Z) by (apply Z.pow_le_mono_r; lia). lia. }
    rewrite N. now split.
Qed.

Lemma lt_represents (x y : number) (a b : Z) :
  represents x a -> represents y b -> lt x y = (a <? b)%Z.
Proof.
  intros [Ha Hx] [Hb Hy]. unfold lt, SFltb.
  destruct a as [| na | na], b as [| nb | nb];
    destruct Hx as [-> | [Hx ->]]; try discriminate Hx;
    destruct Hy as [-> | [Hy ->]]; try discriminate Hy;
    try reflexivity; cbn [of_int].
  - destruct (@canon_compare na nb) as [C _]; [lia | lia |].
    rewrite C. unfold Z.ltb. cbn [Z.compare].
    now destruct (na ?= nb)%positive.
  - destruct (@canon_compare na nb) as [_ C]; [lia | lia |].
    rewrite C. unfold Z.ltb. cbn [Z.compare].
    now destruct (na ?= nb)%positive.
Qed.

Lemma represents_of_Z (z : Z) : (Z.abs z < 2 ^ 53)%Z -> represents (of_Z z) z.
Proof. intros H. split; [exact H |]. left. now apply of_Z_of_int. Qed.

(** ** The window of a cooldown *)

(** X25: after [setCooldown] at the time [t0], the user is on cooldown
    for the command exactly at the times before [t0 + 1000 * cooldown]
    (whatever cooldown [setCooldown] itself was given), and the answers
    for every other user or command are as before.  Times are in
    milliseconds, integers of magnitude below 2^53. *)
Theorem X25_cooldown_window (userId commandName : jsstring)
  (given cooldownTime now0 now : number) (cds : Cooldowns) (t0 t cooldown : Z) :
  represents now0 t0 -> represents now t -> represents cooldownTime cooldown ->
  (Z.abs (cooldown * 1000) < 2 ^ 53)%Z ->
  (Z.abs (t0 + cooldown * 1000) < 2 ^ 53)%Z ->
  let cds' := setCooldown userId commandName given now0 cds in
  fst (isOnCooldown userId commandName cooldownTime now cds')
    = (t <? t0 + cooldown * 1000)%Z /\
  forall user command,
    (user, command) <> (userId, commandName) ->
    fst (isOnCooldown user command cooldownTime now cds')
    = fst (isOnCooldown user command cooldownTime now cds).
Proof.
  intros R0 R Rc B1 B2. cbv zeta. split.
  - rewrite isOnCooldown_answer, last_use_set.
    apply lt_represents; [exact R |].
    apply add_represents; [exact R0 | | exact B2].
    apply mul_represents; [exact Rc | | exact B1].
    apply represents_of_Z. simpl. lia.
  - intros user command N. rewrite !isOnCooldown_answer.
    now rewrite last_use_other.
Qed.

Lemma X25_witness :
  fst (isOnCooldown (js "7") (js "repeat") (of_Z 10) (of_Z 1700000009999)
         (setCooldown (js "7") (js "repeat") (of_Z 3) (of_Z 1700000000000) []))
  = true.
Proof.
  refine (proj1 (@X25_cooldown_window (js "7") (js "repeat") (of_Z 3) (of_Z 10)
                   (of_Z 1700000000000) (of_Z 1700000009999) []
                   1700000000000 1700000009999 10 _ _ _ _ _)).
  - apply represents_of_Z. simpl. lia.
  - apply represents_of_Z. simpl. lia.
  - apply represents_of_Z. simpl. lia.
  - simpl. lia.
  - simpl. lia.
Defined.

(** ** The remaining time *)

Lemma not_above_zero_lt (x : number) :
  not_above_zero x = true -> lt zero x = false.
Proof. destruct x as [s | s | | s m e]; simpl; intros H; now subst. Qed.

Lemma round_aux_negative (m e : Z) (l : location) :
  not_above_zero (binary_round_aux prec emax true m e l) = true.
Proof.
  unfold binary_round_aux.
  destruct (shr_fexp prec emax m e l) as [mrs' e'].
  destruct (shr_fexp prec emax _ e' loc_Exact) as [mrs'' e''].
  destruct (shr_m mrs''); [reflexivity | | reflexivity].
  now destruct (e'' <=? emax - prec)%Z.
Qed.

Lemma of_Z_negative (p : positive) : not_above_zero (of_Z (Zneg p)) = true.
Proof.
  unfold of_Z, binary_normalize, binary_round.
  destruct (shl_align _ _ _) as [mz ez]. apply round_aux_negative.
Qed.

Lemma ceil_not_above_zero (x : number) :
  not_above_zero x = true -> not_above_zero (ceil x) = true.
Proof.
  destruct x as [s | s | | s m e]; simpl; try easy.
  intros ->. destruct (Z.leb_spec 0 e) as [| L]; [reflexivity |].
  destruct (Z.eqb_spec (Zpos m / 2 ^ (- e)) 0) as [| N]; [reflexivity |].
  destruct (Zpos m / 2 ^ (- e))%Z as [| q | q] eqn:Q.
  - contradiction.
  - apply of_Z_negative.
  - exfalso. assert (P : (0 < 2 ^ (- e))%Z) by (apply Z.pow_pos_nonneg; lia).
    pose proof (Z.div_pos (Zpos m) (2 ^ (- e))%Z ltac:(lia) P). lia.
Qed.

Lemma div_not_above_zero (x y : number) (a : Z) (n : positive) :
  represents x a -> (a <= 0)%Z -> y = canon false n ->
  not_above_zero (div x y) = true.
Proof.
  intros [_ Hx] Ha ->. unfold div, canon.
  destruct a as [| p | p]; [| lia |].
  - destruct Hx as [-> | [_ ->]]; reflexivity.
  - destruct Hx as [-> | [Hx _]]; [| discriminate Hx].
    cbn [of_int canon SFdiv xorb].
    destruct (SFdiv_core_binary _ _ _ _ _ _) as [[mz ez] lz].
    apply round_aux_negative.
Qed.

(** X26: the remaining time is computed with 3 seconds, whatever the
    cooldown of the command.  Three seconds or more after [setCooldown], a
    user who is still on cooldown is told a number of seconds that is not
    above zero. *)
Theorem X26_wait_is_not_positive (userId commandName : jsstring)
  (given cooldownTime now0 now : number) (cds : Cooldowns) (t0 t cooldown : Z) :
  represents now0 t0 -> represents now t -> represents cooldownTime cooldown ->
  (0 <= t0)%Z -> (t0 + 3000 <= t < t0 + cooldown * 1000)%Z ->
  (t0 + cooldown * 1000 < 2 ^ 53)%Z ->
  let cds' := setCooldown userId commandName given now0 cds in
  fst (isOnCooldown userId commandName cooldownTime now cds') = true /\
  lt zero (getRemainingCooldown userId commandName now cds') = false.
Proof.
  intros R0 R Rc P W B. cbv zeta. split.
  - rewrite isOnCooldown_answer, last_use_set.
    rewrite (@lt_represents now _ t (t0 + cooldown * 1000)).
    + apply Z.ltb_lt. lia.
    + exact R.
    + apply add_represents; [exact R0 | | lia].
      apply mul_represents; [exact Rc | | lia].
      apply represents_of_Z. simpl. lia.
  - pose proof (last_use_set userId commandName given now0 cds) as G.
    unfold last_use in G. unfold getRemainingCooldown.
    destruct (get commandName _) as [ts |]; [| discriminate G]. rewrite G.
    apply not_above_zero_lt, ceil_not_above_zero.
    apply (@div_not_above_zero _ _ (t0 + 3000 - t) 1000%positive).
    + apply sub_represents; [| exact R | lia].
      apply add_represents; [exact R0 | | lia].
      apply represents_of_Z. simpl. lia.
    + lia.
    + apply (of_Z_of_int 1000). simpl. lia.
Qed.

Lemma X26_witness :
  lt zero
    (getRemainingCooldown (js "7") (js "repeat") (of_Z 1700000005000)
       (setCooldown (js "7") (js "repeat") (of_Z 10) (of_Z 1700000000000) []))
  = false.
Proof.
  refine (proj2 (@X26_wait_is_not_positive (js "7") (js "repeat") (of_Z 10)
                   (of_Z 10) (of_Z 1700000000000) (of_Z 1700000005000) []
                   1700000000000 1700000005000 10 _ _ _ _ _ _)).
  - apply represents_of_Z. simpl. lia.
  - apply represents_of_Z. simpl. lia.
  - apply represents_of_Z. simpl. lia.
  - lia.
  - lia.
  - simpl. lia.
Defined.
